(** * Tactica Arena combat core

  A shallow embedding of the combat resolution engine (deterministic
  random source, hidden d20 rules, damage model, hit calculator,
  action-point economy, match state and initiative ordering) together
  with the properties its specification states about it.

  JavaScript numbers are embedded as rationals ([Q]) wherever the
  engine works with stats, percentages and bonuses, and as integers ([Z])
  where the code keeps them integral by construction (the generator state,
  die faces, dice counts).  Floor and ceiling are [Qfloor] and
  [Qceiling]; comparison operators are the boolean tests of [QArith].
  In the damage pipeline, where products with decimal fractions are
  rounded down to whole numbers, every arithmetic operation returns the
  IEEE 754 double nearest to its exact result ([Js.double]), as the
  engine's numbers do.
  A method that mutates an object returns the object's new state; a thrown
  error is [None].  JavaScript maps and sets are [gmap] and [gset] where
  only lookups matter and lists where the iteration order is used.  The
  optional debug logs carry timestamps and are kept, without them, only
  for the action point system. *)

From stdpp Require Import gmap strings list.
From Stdlib Require Import ZArith QArith Qround Qminmax Qabs Qpower Lqa Lia Ascii.
From Stdlib Require Import Sorting.Permutation Sorting.Sorted.
From Stdlib Require Floats Uint63.

(* ===================================================================== *)
(** * Numbers as the engine uses them *)
(* ===================================================================== *)

Module Js.
Local Open Scope Q_scope.

(** [x || d] on numbers: zero (like [undefined]) falls through to [d]. *)
Definition orElse (x d : Q) : Q := if Qeq_bool x 0 then d else x.

(** [Math.floor] and [Math.ceil], returned as numbers again. *)
Definition floor (x : Q) : Q := inject_Z (Qfloor x).
Definition ceil (x : Q) : Q := inject_Z (Qceiling x).

(** [a >= b], [a > b] and [a < b]. *)
Definition geb (a b : Q) : bool := Qle_bool b a.
Definition gtb (a b : Q) : bool := negb (Qle_bool a b).
Definition ltb (a b : Q) : bool := negb (Qle_bool b a).

(** ** Double precision *)

(** [floor(log2 x)] for a positive [x]: the difference of the bit lengths
    of numerator and denominator, or one less. *)
Definition ilog2 (x : Q) : Z :=
  let k := (Z.log2 (Qnum x) - Z.log2 (Zpos (Qden x)))%Z in
  if Qle_bool (2 ^ k) x then k else (k - 1)%Z.

(** The integer nearest to [x]; of two equally near ones, the even one. *)
Definition nearestEven (x : Q) : Z :=
  let f := Qfloor x in
  match Qcompare (x - inject_Z f) (1 # 2) with
  | Lt => f
  | Gt => (f + 1)%Z
  | Eq => if Z.even f then f else (f + 1)%Z
  end.

(** The IEEE 754 binary64 number nearest to [x] (53 significant bits, least
    exponent -1074, round to nearest, ties to even): the value a JavaScript
    number holds when the exact result of an operation is [x].  Results
    beyond the largest double, which JavaScript turns into [Infinity], are
    not part of the model. *)
Definition double (x : Q) : Q :=
  let r := Qred x in
  if Qeq_bool r 0 then 0
  else
    let e := Z.max (-1074) (ilog2 (Qabs r) - 52) in
    Qred (inject_Z (nearestEven (r / 2 ^ e)) * 2 ^ e).

(** [a + b], [a - b] and [a * b] on doubles. *)
Definition add (a b : Q) : Q := double (a + b).
Definition sub (a b : Q) : Q := double (a - b).
Definition mul (a b : Q) : Q := double (a * b).

(** A number the engine can hold: a double. *)
Definition isDouble (x : Q) : Prop := double x == x.

(** The value of a finite float of the kernel, whose arithmetic is IEEE 754
    binary64 as well, and the kernel float of a whole number below 2^53 in
    magnitude. *)
Definition ofFloat (f : PrimFloat.float) : Q :=
  match FloatOps.Prim2SF f with
  | SpecFloat.S754_finite s m e =>
      Qred ((if s then -1 else 1) * inject_Z (Zpos m) * 2 ^ e)
  | _ => 0
  end.

Definition toFloat (n : Z) : PrimFloat.float :=
  if (n <? 0)%Z then PrimFloat.opp (PrimFloat.of_uint63 (Uint63.of_Z (- n)))
  else PrimFloat.of_uint63 (Uint63.of_Z n).

(** The kernel float of a decimal literal [n / d], as a correctly rounded
    quotient. *)
Definition literalFloat (n d : Z) : PrimFloat.float :=
  PrimFloat.div (toFloat n) (toFloat d).

(** The kernel float 2^e. *)
Definition powerFloat (e : Z) : PrimFloat.float :=
  PrimFloat.ldshiftexp (toFloat 1) (Uint63.of_Z (e + 2101)).

(** Case analysis on every [Qmax] and [Qmin] of the goal and the
    hypotheses, leaving linear arithmetic. *)
Ltac minmax_cases :=
  repeat match goal with
         | |- context [Qmax ?a ?b] =>
             let m := fresh "m" in
             let H := fresh "Hm" in
             destruct (Q.max_spec a b) as [[? H] | [? H]];
             set (m := Qmax a b) in *; clearbody m
         | |- context [Qmin ?a ?b] =>
             let m := fresh "m" in
             let H := fresh "Hm" in
             destruct (Q.min_spec a b) as [[? H] | [? H]];
             set (m := Qmin a b) in *; clearbody m
         | _ : context [Qmax ?a ?b] |- _ =>
             let m := fresh "m" in
             let H := fresh "Hm" in
             destruct (Q.max_spec a b) as [[? H] | [? H]];
             set (m := Qmax a b) in *; clearbody m
         | _ : context [Qmin ?a ?b] |- _ =>
             let m := fresh "m" in
             let H := fresh "Hm" in
             destruct (Q.min_spec a b) as [[? H] | [? H]];
             set (m := Qmin a b) in *; clearbody m
         end.
End Js.

(* ===================================================================== *)
(** * core/DeterministicRNG.js *)
(* ===================================================================== *)

Module Rng.
Local Open Scope Z_scope.

(** A seed is whatever number the caller hands to the constructor. *)
Inductive JsNumber : Type :=
| Finite (q : Q)
| NaN
| PosInfinity
| NegInfinity.

(** Unary minus on a seed value. *)
Definition negate (x : JsNumber) : JsNumber :=
  match x with
  | Finite q => Finite (- q)%Q
  | NaN => NaN
  | PosInfinity => NegInfinity
  | NegInfinity => PosInfinity
  end.

Definition two32 : Z := 4294967296.

(** [x >>> 0] on an integral value. *)
Definition toUint32 (z : Z) : Z := z mod two32.

(** [Math.abs(Math.floor(seed)) >>> 0]; the shift sends NaN and the
    infinities to zero. *)
Definition normalizeSeed (seed : JsNumber) : Z :=
  match seed with
  | Finite q => toUint32 (Z.abs (Qfloor q))
  | NaN | PosInfinity | NegInfinity => 0
  end.

Record DeterministicRNG : Type := mkRNG {
  originalSeed : JsNumber;
  state : Z;
  callCount : Z
}.

(** [new DeterministicRNG(seed)] *)
Definition create (seed : JsNumber) : DeterministicRNG :=
  {| originalSeed := seed; state := normalizeSeed seed; callCount := 0 |}.

(** [nextRaw]: one step of the linear congruential generator. *)
Definition nextRaw (r : DeterministicRNG) : Z * DeterministicRNG :=
  let s := toUint32 (1664525 * state r + 1013904223) in
  (s, {| originalSeed := originalSeed r; state := s; callCount := callCount r + 1 |}).

(** [random]: the raw draw divided by 2^32. *)
Definition random (r : DeterministicRNG) : Q * DeterministicRNG :=
  let '(v, r') := nextRaw r in
  ((inject_Z v / inject_Z two32)%Q, r').

(** [randInt(min, max)]; [None] stands for the thrown range error. *)
Definition randInt (min max : Z) (r : DeterministicRNG)
  : option (Z * DeterministicRNG) :=
  if min >? max then None
  else
    let range := max - min + 1 in
    let '(v, r') := nextRaw r in
    Some (min + v mod range, r').

Definition rollD20 (r : DeterministicRNG) : option (Z * DeterministicRNG) :=
  randInt 1 20 r.

(** [reset]: back to the normalized original seed. *)
Definition reset (r : DeterministicRNG) : DeterministicRNG :=
  {| originalSeed := originalSeed r;
     state := normalizeSeed (originalSeed r);
     callCount := 0 |}.

(** [getState] / [setState]: the serialised cursor. *)
Record SavedState : Type := mkSaved {
  savedOriginalSeed : JsNumber;
  savedCurrentState : Z;
  savedCallCount : Z
}.

Definition getState (r : DeterministicRNG) : SavedState :=
  {| savedOriginalSeed := originalSeed r;
     savedCurrentState := state r;
     savedCallCount := callCount r |}.

Definition setState (s : SavedState) (_ : DeterministicRNG) : DeterministicRNG :=
  {| originalSeed := savedOriginalSeed s;
     state := savedCurrentState s;
     callCount := if savedCallCount s =? 0 then 0 else savedCallCount s |}.

(** The generation loop [for (i < n) seq.push(this.random())]. *)
Fixpoint randoms (n : nat) (r : DeterministicRNG) : list Q * DeterministicRNG :=
  match n with
  | O => ([], r)
  | S k =>
      let '(v, r1) := random r in
      let '(vs, r2) := randoms k r1 in
      (v :: vs, r2)
  end.

(** The same loop drawing d20 rolls. *)
Fixpoint rollD20s (n : nat) (r : DeterministicRNG)
  : option (list Z * DeterministicRNG) :=
  match n with
  | O => Some ([], r)
  | S k =>
      match rollD20 r with
      | None => None
      | Some (v, r1) =>
          match rollD20s k r1 with
          | None => None
          | Some (vs, r2) => Some (v :: vs, r2)
          end
      end
  end.

(** The comparison loop of [validateReproducibility]. *)
Fixpoint sequencesEqual (a b : list Q) : bool :=
  match a, b with
  | [], _ => true
  | x :: a', y :: b' => if Qeq_bool x y then sequencesEqual a' b' else false
  | _ :: _, [] => false
  end.

Definition validateReproducibility (iterations : nat) (r : DeterministicRNG)
  : bool * DeterministicRNG :=
  let originalState := getState r in
  let '(firstSequence, r1) := randoms iterations (reset r) in
  let '(secondSequence, r2) := randoms iterations (reset r1) in
  let r3 := setState originalState r2 in
  (sequencesEqual firstSequence secondSequence, r3).

(** The value of the generator state after [k] steps from [s]. *)
Definition lcg (s : Z) : Z := toUint32 (1664525 * s + 1013904223).
Definition nthRaw (s : Z) (k : nat) : Z := Nat.iter k lcg s.
End Rng.

(* ===================================================================== *)
(** * Strings and plain objects *)
(* ===================================================================== *)

Module Str.
Local Open Scope string_scope.

Definition lowerChar (c : ascii) : ascii :=
  let n := nat_of_ascii c in
  if (Nat.leb 65 n && Nat.leb n 90)%bool then ascii_of_nat (n + 32) else c.

(** [s.toLowerCase()] on the ASCII range. *)
Fixpoint toLowerCase (s : string) : string :=
  match s with
  | EmptyString => EmptyString
  | String c rest => String (lowerChar c) (toLowerCase rest)
  end.

Definition upperChar (c : ascii) : ascii :=
  let n := nat_of_ascii c in
  if (Nat.leb 97 n && Nat.leb n 122)%bool then ascii_of_nat (n - 32) else c.

(** [s.toUpperCase()] on the ASCII range. *)
Fixpoint toUpperCase (s : string) : string :=
  match s with
  | EmptyString => EmptyString
  | String c rest => String (upperChar c) (toUpperCase rest)
  end.

(** [s.includes(sub)] *)
Fixpoint includes (s sub : string) : bool :=
  if String.prefix sub s then true
  else match s with
       | EmptyString => false
       | String _ rest => includes rest sub
       end.

(** [list.includes(x)] on an array of strings. *)
Definition oneOf (x : string) (l : list string) : bool :=
  existsb (String.eqb x) l.
End Str.

Module Obj.
Local Open Scope Q_scope.

(** An object whose properties are numbers, in insertion order. *)
Definition t : Type := list (string * Q).

Fixpoint prop (o : t) (k : string) : option Q :=
  match o with
  | [] => None
  | (k', v) :: rest => if String.eqb k' k then Some v else prop rest k
  end.

(** [o[k] || d]: an absent or zero property yields the default. *)
Definition propOr (o : t) (k : string) (d : Q) : Q :=
  match prop o k with
  | Some v => Js.orElse v d
  | None => d
  end.

(** [o[k] = v] *)
Fixpoint setProp (o : t) (k : string) (v : Q) : t :=
  match o with
  | [] => [(k, v)]
  | (k', v') :: rest =>
      if String.eqb k' k then (k', v) :: rest else (k', v') :: setProp rest k v
  end.
End Obj.

(* ===================================================================== *)
(** * constants/GameConstants.js: the visible stat block *)
(* ===================================================================== *)

Module Visible.
Local Open Scope Q_scope.

Inductive StatName : Type :=
| HP | MP | ATK | DEF | MAG | RES | AGL | INT | MOV | RNG | LCK.

Record Stats : Type := mkStats {
  sHP : Q; sMP : Q; sATK : Q; sDEF : Q; sMAG : Q; sRES : Q;
  sAGL : Q; sINT : Q; sMOV : Q; sRNG : Q; sLCK : Q
}.

Definition get (s : Stats) (n : StatName) : Q :=
  match n with
  | HP => sHP s | MP => sMP s | ATK => sATK s | DEF => sDEF s
  | MAG => sMAG s | RES => sRES s | AGL => sAGL s | INT => sINT s
  | MOV => sMOV s | RNG => sRNG s | LCK => sLCK s
  end.

Definition set (s : Stats) (n : StatName) (v : Q) : Stats :=
  match n with
  | HP => mkStats v (sMP s) (sATK s) (sDEF s) (sMAG s) (sRES s) (sAGL s) (sINT s) (sMOV s) (sRNG s) (sLCK s)
  | MP => mkStats (sHP s) v (sATK s) (sDEF s) (sMAG s) (sRES s) (sAGL s) (sINT s) (sMOV s) (sRNG s) (sLCK s)
  | ATK => mkStats (sHP s) (sMP s) v (sDEF s) (sMAG s) (sRES s) (sAGL s) (sINT s) (sMOV s) (sRNG s) (sLCK s)
  | DEF => mkStats (sHP s) (sMP s) (sATK s) v (sMAG s) (sRES s) (sAGL s) (sINT s) (sMOV s) (sRNG s) (sLCK s)
  | MAG => mkStats (sHP s) (sMP s) (sATK s) (sDEF s) v (sRES s) (sAGL s) (sINT s) (sMOV s) (sRNG s) (sLCK s)
  | RES => mkStats (sHP s) (sMP s) (sATK s) (sDEF s) (sMAG s) v (sAGL s) (sINT s) (sMOV s) (sRNG s) (sLCK s)
  | AGL => mkStats (sHP s) (sMP s) (sATK s) (sDEF s) (sMAG s) (sRES s) v (sINT s) (sMOV s) (sRNG s) (sLCK s)
  | INT => mkStats (sHP s) (sMP s) (sATK s) (sDEF s) (sMAG s) (sRES s) (sAGL s) v (sMOV s) (sRNG s) (sLCK s)
  | MOV => mkStats (sHP s) (sMP s) (sATK s) (sDEF s) (sMAG s) (sRES s) (sAGL s) (sINT s) v (sRNG s) (sLCK s)
  | RNG => mkStats (sHP s) (sMP s) (sATK s) (sDEF s) (sMAG s) (sRES s) (sAGL s) (sINT s) (sMOV s) v (sLCK s)
  | LCK => mkStats (sHP s) (sMP s) (sATK s) (sDEF s) (sMAG s) (sRES s) (sAGL s) (sINT s) (sMOV s) (sRNG s) v
  end.
(** VISIBLE_STATS: minimum, maximum and base value of every stat. *)
Definition statMin (n : StatName) : Q :=
  match n with
  | HP => 100 | MP => 20 | ATK => 10 | DEF => 5 | MAG => 10 | RES => 5
  | AGL => 5 | INT => 5 | MOV => 3 | RNG => 1 | LCK => 1
  end.

Definition statMax (n : StatName) : Q :=
  match n with
  | HP => 600 | MP => 200 | ATK => 80 | DEF => 60 | MAG => 80 | RES => 60
  | AGL => 40 | INT => 40 | MOV => 7 | RNG => 6 | LCK => 20
  end.

Definition statBase (n : StatName) : Q :=
  match n with
  | HP => 100 | MP => 50 | ATK => 25 | DEF => 15 | MAG => 20 | RES => 10
  | AGL => 15 | INT => 12 | MOV => 4 | RNG => 1 | LCK => 8
  end.
End Visible.

(* ===================================================================== *)
(** * hidden/D20Engine.js: the hidden rules engine *)
(* ===================================================================== *)

Module D20.
Local Open Scope Q_scope.

(** HIDDEN_STATS and COMBAT.CRITICAL *)
Definition MODIFIER_OFFSET : Q := 10.
Definition MODIFIER_DIVISOR : Q := 2.
Definition ABILITY_MIN : Q := 3.
Definition ABILITY_MAX : Q := 18.
Definition ABILITY_BASE : Q := 10.
Definition D20_MIN : Z := 1.
Definition D20_MAX : Z := 20.
Definition NATURAL_CRIT : Q := 20.
Definition NATURAL_FUMBLE : Z := 1.
Definition BASE_DEFENSE_VALUE : Q := 10.
Definition BASE_SAVE_DC : Q := 8.
Definition MAX_THREAT_RANGE : Q := 18.

Definition calculateModifier (abilityScore : Q) : Q :=
  Js.floor ((abilityScore - MODIFIER_OFFSET) / MODIFIER_DIVISOR).

Definition calculateProficiency (level : Q) : Q :=
  if Js.geb level 61 then 6
  else if Js.geb level 41 then 5
  else if Js.geb level 21 then 4
  else if Js.geb level 11 then 3
  else 2.

Definition validateAbilityScore (score : Q) : Q :=
  Qmax ABILITY_MIN (Qmin ABILITY_MAX score).

Inductive Ability : Type := STR | DEX | CON | INT | WIS | CHA.

Record AbilityScores : Type := mkAbilities {
  scoreSTR : Q; scoreDEX : Q; scoreCON : Q;
  scoreINT : Q; scoreWIS : Q; scoreCHA : Q
}.

(** [new AbilityScores(scores)]: missing scores default to 10, all are
    clamped to [3, 18]. *)
Definition newAbilityScores (scores : AbilityScores) : AbilityScores :=
  {| scoreSTR := validateAbilityScore (Js.orElse (scoreSTR scores) ABILITY_BASE);
     scoreDEX := validateAbilityScore (Js.orElse (scoreDEX scores) ABILITY_BASE);
     scoreCON := validateAbilityScore (Js.orElse (scoreCON scores) ABILITY_BASE);
     scoreINT := validateAbilityScore (Js.orElse (scoreINT scores) ABILITY_BASE);
     scoreWIS := validateAbilityScore (Js.orElse (scoreWIS scores) ABILITY_BASE);
     scoreCHA := validateAbilityScore (Js.orElse (scoreCHA scores) ABILITY_BASE) |}.

Definition score (a : AbilityScores) (ability : Ability) : Q :=
  match ability with
  | STR => scoreSTR a | DEX => scoreDEX a | CON => scoreCON a
  | INT => scoreINT a | WIS => scoreWIS a | CHA => scoreCHA a
  end.

Definition getModifier (a : AbilityScores) (ability : Ability) : Q :=
  calculateModifier (score a ability).

(** Situational modifiers read by the defense-value formulas. *)
Record Situational : Type := mkSituational {
  cover : Q; height : Q; buffs : Q; magicalCover : Q
}.


(** DefenseCalculator *)
Definition calculatePhysicalDV (abilities : AbilityScores) (equipment : Obj.t)
    (situational : Situational) : Q :=
  let baseDV := BASE_DEFENSE_VALUE in
  let armorBonus := Obj.propOr equipment "armor" 0 in
  let dexMod := getModifier abilities DEX in
  let coverBonus := Js.orElse (cover situational) 0 in
  let heightBonus := Js.orElse (height situational) 0 in
  let buffs := Js.orElse (buffs situational) 0 in
  baseDV + armorBonus + dexMod + coverBonus + heightBonus + buffs.

Definition calculateMagicalDV (abilities : AbilityScores) (equipment : Obj.t)
    (situational : Situational) : Q :=
  let baseDV := BASE_DEFENSE_VALUE in
  let resBonus := Obj.propOr equipment "resistance" 0 in
  let wisMod := getModifier abilities WIS in
  let coverBonus := Js.orElse (magicalCover situational) 0 in
  let buffs := Js.orElse (buffs situational) 0 in
  baseDV + resBonus + wisMod + coverBonus + buffs.

(** AttackCalculator *)
Definition calculatePhysicalAttack (abilities : AbilityScores) (level : Q)
    (isRanged : bool) (equipment : Obj.t) : Q :=
  let proficiency := calculateProficiency level in
  let abilityMod := if isRanged then getModifier abilities DEX
                    else getModifier abilities STR in
  let equipmentBonus := Obj.propOr equipment "weapon" 0 in
  proficiency + abilityMod + equipmentBonus.

Definition calculateSpellAttack (abilities : AbilityScores) (level : Q)
    (primaryAbility : Ability) (equipment : Obj.t) : Q :=
  let proficiency := calculateProficiency level in
  let abilityMod := getModifier abilities primaryAbility in
  let equipmentBonus := Obj.propOr equipment "focus" 0 in
  proficiency + abilityMod + equipmentBonus.

(** CriticalSystem *)
Record ThreatRange : Type := mkThreat {
  minThreat : Q; maxThreat : Q; extension : Q
}.

Definition calculateThreatRange (abilities : AbilityScores)
    (visibleStats : Visible.Stats) (equipment : Obj.t) : ThreatRange :=
  let intMod := getModifier abilities INT in
  let lckMod := calculateModifier (Js.orElse (Visible.sLCK visibleStats) 8) in
  let equipmentMod := Obj.propOr equipment "criticalModifier" 0 in
  let extension := Qmax 0 (intMod + lckMod + equipmentMod) in
  let maxExtension := NATURAL_CRIT - MAX_THREAT_RANGE in
  let actualExtension := Qmin extension maxExtension in
  let minThreat := NATURAL_CRIT - actualExtension in
  {| minThreat := minThreat; maxThreat := NATURAL_CRIT; extension := actualExtension |}.

Definition isCriticalHit (roll : Z) (threatRange : ThreatRange) : bool :=
  Js.geb (inject_Z roll) (minThreat threatRange).

Definition isFumble (roll : Z) : bool := Z.eqb roll NATURAL_FUMBLE.

(** The snapshots handed to the engine. *)
Record Attacker : Type := mkAttacker {
  attAbilities : AbilityScores;
  attLevel : Q;
  attEquipment : Obj.t;
  attVisibleStats : Visible.Stats
}.

Record Defender : Type := mkDefender {
  defAbilities : AbilityScores;
  defEquipment : Obj.t;
  defSituational : Situational
}.

(** The d20 roll object produced by the random source. *)
Record AttackRoll : Type := mkRoll {
  result : Z; rolls : list Z; advantage : bool; disadvantage : bool
}.

Record AttackResolution : Type := mkResolution {
  hit : bool;
  critical : bool;
  fumble : bool;
  totalAttack : Q;
  defenseValue : Q;
  attackRoll : Z;
  attackBonus : Q;
  margin : Q;
  threatRange : ThreatRange
}.

(** D20Engine.resolvePhysicalAttack *)
Definition resolvePhysicalAttack (attacker : Attacker) (defender : Defender)
    (roll : AttackRoll) (isRanged : bool) : AttackResolution :=
  let attackBonus :=
    calculatePhysicalAttack (attAbilities attacker) (attLevel attacker)
                            isRanged (attEquipment attacker) in
  let defenseValue :=
    calculatePhysicalDV (defAbilities defender) (defEquipment defender)
                        (defSituational defender) in
  let totalAttack := inject_Z (result roll) + attackBonus in
  let hit := Js.geb totalAttack defenseValue in
  let threatRange :=
    calculateThreatRange (attAbilities attacker) (attVisibleStats attacker)
                         (attEquipment attacker) in
  let critical := hit && isCriticalHit (result roll) threatRange in
  let fumble := isFumble (result roll) in
  {| hit := hit; critical := critical; fumble := fumble;
     totalAttack := totalAttack; defenseValue := defenseValue;
     attackRoll := result roll; attackBonus := attackBonus;
     margin := totalAttack - defenseValue; threatRange := threatRange |}.

(** D20Engine.resolveSpellAttack *)
Definition resolveSpellAttack (caster : Attacker) (target : Defender)
    (roll : AttackRoll) (primaryAbility : Ability) : AttackResolution :=
  let spellBonus :=
    calculateSpellAttack (attAbilities caster) (attLevel caster)
                         primaryAbility (attEquipment caster) in
  let defenseValue :=
    calculateMagicalDV (defAbilities target) (defEquipment target)
                       (defSituational target) in
  let totalAttack := inject_Z (result roll) + spellBonus in
  let hit := Js.geb totalAttack defenseValue in
  let threatRange :=
    calculateThreatRange (attAbilities caster) (attVisibleStats caster)
                         (attEquipment caster) in
  let critical := hit && isCriticalHit (result roll) threatRange in
  let fumble := isFumble (result roll) in
  {| hit := hit; critical := critical; fumble := fumble;
     totalAttack := totalAttack; defenseValue := defenseValue;
     attackRoll := result roll; attackBonus := spellBonus;
     margin := totalAttack - defenseValue; threatRange := threatRange |}.
End D20.

(* ===================================================================== *)
(** * The unit data model (Unit, StatusEffect, Equipment) *)
(* ===================================================================== *)

Module Units.
Local Open Scope Q_scope.

Definition MAX_PER_TURN : Q := 3.

(** An entry of an item's [specialEffects] array. *)
Record SpecialEffect : Type := mkSpecial {
  spType : string;
  spDamageType : string;
  spActionType : string;
  spName : string;
  spValue : Q
}.

Record Equipment : Type := mkEquipment {
  itemId : string;
  itemName : string;
  itemType : string;
  durability : Q;
  statModifiers : Obj.t;
  abilityModifiers : Obj.t;
  specialEffects : list SpecialEffect
}.

(** [{ type: 'flat' | 'percentage', value }] *)
Record CostModifier : Type := mkCostModifier {
  cmType : string;
  cmValue : Q
}.

(** The properties of a status effect's [effects] object that the engine
    reads: numeric entries keyed by a visible stat, and the nested tables
    keyed by damage type or action type. *)
Record Effects : Type := mkEffects {
  statEntries : list (Visible.StatName * Q);
  initiativeBonus : Q;
  resistance : option Obj.t;
  damageBonus : option Obj.t;
  damageMultiplier : option Obj.t;
  damageVulnerability : option Obj.t;
  damageReduction : option Obj.t;
  apCostModifier : option (list (string * CostModifier));
  apRestoration : option CostModifier
}.

Definition noEffects : Effects :=
  mkEffects [] 0 None None None None None None None.

Record StatusEffect : Type := mkStatus {
  effectName : string;
  effectType : string;
  duration : Q;
  intensity : Q;
  effects : Effects
}.

Definition hasExpired (e : StatusEffect) : bool := Qle_bool (duration e) 0.

(** StatusEffect.getModifiers, restricted to the stat-keyed entries. *)
Definition getModifiers (e : StatusEffect) : list (Visible.StatName * Q) :=
  if hasExpired e then []
  else map (fun '(stat, value) => (stat, Js.orElse (value * intensity e) 0))
           (statEntries (effects e)).

Definition isBroken (item : Equipment) : bool := Qle_bool (durability item) 0.

Definition getStatModifiers (item : Equipment) : Obj.t :=
  if isBroken item then [] else statModifiers item.

Definition getAbilityModifiers (item : Equipment) : Obj.t :=
  if isBroken item then [] else abilityModifiers item.

Record Unit : Type := mkUnit {
  unitId : string;
  unitName : string;
  unitClass : string;
  faction : string;
  level : Q;
  isLeader : bool;
  hiddenAbilities : D20.AbilityScores;
  equipment : list Equipment;
  baseStats : Visible.Stats;
  currentHP : Q;
  currentMP : Q;
  currentAP : Q;
  statusEffects : list StatusEffect;
  isIncapacitated : bool;
  position : Z * Z;
  facing : string;
  hasActedThisTurn : bool
}.

(** [base[stat] = Math.max(0, base[stat] + modifier)] for every entry. *)
Definition applyModifiers (base : Visible.Stats)
    (modifiers : list (Visible.StatName * Q)) : Visible.Stats :=
  fold_left (fun b '(stat, modifier) =>
               Visible.set b stat (Qmax 0 (Visible.get b stat + modifier)))
            modifiers base.

(** Unit.getCurrentStats: base stats plus status effect modifiers. *)
Definition getCurrentStats (u : Unit) : Visible.Stats :=
  fold_left (fun base effect => applyModifiers base (getModifiers effect))
            (statusEffects u) (baseStats u).

(** [combined[k] = (combined[k] || 0) + value] over the entries of [o]. *)
Definition addEntries (combined o : Obj.t) : Obj.t :=
  fold_left (fun c '(k, value) => Obj.setProp c k (Obj.propOr c k 0 + value))
            o combined.

Definition getEquipmentStatModifiers (u : Unit) : Obj.t :=
  fold_left (fun combined item => addEntries combined (getStatModifiers item))
            (equipment u) [].

Definition getEquipmentAbilityModifiers (u : Unit) : Obj.t :=
  fold_left (fun combined item => addEntries combined (getAbilityModifiers item))
            (equipment u) [].

(** Unit.getHiddenData *)
Definition getHiddenData (u : Unit) : D20.Attacker :=
  {| D20.attAbilities := hiddenAbilities u;
     D20.attLevel := level u;
     D20.attEquipment := getEquipmentAbilityModifiers u;
     D20.attVisibleStats := getCurrentStats u |}.

(** CLASSES.TYPES, FACTIONS.TYPES and the equipment limit of [equipItem]. *)
Definition CLASS_TYPES : list string :=
  ["SWORDSMAN"; "GUARDIAN"; "ARCHER"; "RANGER";
   "MAGE"; "CLERIC"; "ROGUE"; "SPEARMASTER"]%string.

Definition FACTION_TYPES : list string :=
  ["HUMAN_KINGDOM"; "ELVEN_COURT"; "DWARVEN_CLANS";
   "UMBRAL_LEAGUE"; "TIDEMARCH"]%string.

Definition MAX_CONCURRENT_EFFECTS : nat := 20.

Definition clampStat (n : Visible.StatName) (v : Q) : Q :=
  Qmax (Visible.statMin n) (Qmin (Visible.statMax n) v).

(** Unit.deriveVisibleStats: the visible stat block from the hidden
    abilities, the level, the equipment and the faction passive. *)
Definition deriveVisibleStats (u : Unit) : Visible.Stats :=
  let proficiency := D20.calculateProficiency (level u) in
  let abilities := hiddenAbilities u in
  let modifiers : Obj.t :=
    [ ("STR", D20.getModifier abilities D20.STR);
      ("DEX", D20.getModifier abilities D20.DEX);
      ("CON", D20.getModifier abilities D20.CON);
      ("INT", D20.getModifier abilities D20.INT);
      ("WIS", D20.getModifier abilities D20.WIS);
      ("CHA", D20.getModifier abilities D20.CHA) ]%string in
  let equipmentStats := getEquipmentStatModifiers u in
  let equipmentAbilities := getEquipmentAbilityModifiers u in
  let effective := addEntries modifiers equipmentAbilities in
  let m := fun k => Obj.propOr effective k 0 in
  let eq := fun k => Obj.propOr equipmentStats k 0 in
  let base := Visible.statBase in
  let low := Visible.statMin in
  let hp := Qmax (low Visible.HP)
              (base Visible.HP + m "CON" * 15 + level u * 8 + eq "HP") in
  let mp := Qmax (low Visible.MP)
              (base Visible.MP + m "INT" * 8 + m "WIS" * 4 + level u * 2 + eq "MP") in
  let atk := Qmax (low Visible.ATK)
               (base Visible.ATK + m "STR" * 3 + proficiency + eq "ATK") in
  let def := Qmax (low Visible.DEF) (base Visible.DEF + m "CON" * 2 + eq "DEF") in
  let mag := Qmax (low Visible.MAG)
               (base Visible.MAG + m "INT" * 3 + proficiency + eq "MAG") in
  let res := Qmax (low Visible.RES) (base Visible.RES + m "WIS" * 2 + eq "RES") in
  let agl := Qmax (low Visible.AGL) (base Visible.AGL + m "DEX" * 2 + eq "AGL") in
  let int := Qmax (low Visible.INT)
               (base Visible.INT + m "INT" + Js.floor (level u / 10) + eq "INT") in
  let mov := Qmax (low Visible.MOV)
               (base Visible.MOV + Js.floor (m "DEX" / 2) + eq "MOV") in
  let rng := Qmax (low Visible.RNG) (base Visible.RNG + eq "RNG") in
  let lck := Qmax (low Visible.LCK)
               (base Visible.LCK + m "CHA" + Js.floor (level u / 20) + eq "LCK") in
  let agl' := if String.eqb (faction u) "ELVEN_COURT" then agl + 1 else agl in
  Visible.mkStats
    (clampStat Visible.HP hp) (clampStat Visible.MP mp)
    (clampStat Visible.ATK atk) (clampStat Visible.DEF def)
    (clampStat Visible.MAG mag) (clampStat Visible.RES res)
    (clampStat Visible.AGL agl') (clampStat Visible.INT int)
    (clampStat Visible.MOV mov) (clampStat Visible.RNG rng)
    (clampStat Visible.LCK lck).

Definition withEquipment (u : Unit) (items : list Equipment)
    (stats : Visible.Stats) : Unit :=
  {| unitId := unitId u; unitName := unitName u; unitClass := unitClass u;
     faction := faction u; level := level u; isLeader := isLeader u;
     hiddenAbilities := hiddenAbilities u;
     equipment := items; baseStats := stats;
     currentHP := currentHP u; currentMP := currentMP u;
     currentAP := currentAP u; statusEffects := statusEffects u;
     isIncapacitated := isIncapacitated u; position := position u;
     facing := facing u; hasActedThisTurn := hasActedThisTurn u |}.

(** [map.set(item.id, item)] on the values of the equipment map. *)
Fixpoint setItem (items : list Equipment) (item : Equipment) : list Equipment :=
  match items with
  | [] => [item]
  | other :: rest =>
      if String.eqb (itemId other) (itemId item) then item :: rest
      else other :: setItem rest item
  end.

(** Unit.equipItem *)
Definition equipItem (u : Unit) (item : Equipment) : bool * Unit :=
  if Nat.leb MAX_CONCURRENT_EFFECTS (length (equipment u)) then (false, u)
  else
    let u1 := withEquipment u (setItem (equipment u) item) (baseStats u) in
    (true, withEquipment u1 (equipment u1) (deriveVisibleStats u1)).

(** [new Equipment(config)] *)
Definition newEquipment (config : Equipment) : Equipment :=
  {| itemId := itemId config; itemName := itemName config;
     itemType := itemType config;
     durability := Js.orElse (durability config) 10;
     statModifiers := statModifiers config;
     abilityModifiers := abilityModifiers config;
     specialEffects := specialEffects config |}.

(** The configuration object of [new Unit(config)].  Empty strings and
    zero numbers stand for absent entries; the id is required (the source
    would otherwise generate one from the clock). *)
Record UnitConfig : Type := mkConfig {
  cfgId : string;
  cfgName : string;
  cfgClass : string;
  cfgFaction : string;
  cfgLevel : Q;
  cfgIsLeader : bool;
  cfgHiddenAbilities : D20.AbilityScores;
  cfgEquipment : list Equipment;
  cfgPosition : option (Z * Z);
  cfgFacing : string
}.

Definition orString (s d : string) : string :=
  if String.eqb s "" then d else s.

(** The body of the constructor, before validation. *)
Definition build (config : UnitConfig) : Unit :=
  let blank :=
    {| unitId := cfgId config;
       unitName := orString (cfgName config) "Unknown Unit";
       unitClass := orString (cfgClass config) "SWORDSMAN";
       faction := orString (cfgFaction config) "HUMAN_KINGDOM";
       level := Qmax 1 (Qmin 80 (Js.orElse (cfgLevel config) 1));
       isLeader := cfgIsLeader config;
       hiddenAbilities := D20.newAbilityScores (cfgHiddenAbilities config);
       equipment := [];
       baseStats := Visible.mkStats 0 0 0 0 0 0 0 0 0 0 0;
       currentHP := 0; currentMP := 0; currentAP := 0;
       statusEffects := []; isIncapacitated := false;
       position := (0, 0)%Z; facing := "north";
       hasActedThisTurn := false |} in
  let loaded :=
    fold_left (fun u item => snd (equipItem u (newEquipment item)))
              (cfgEquipment config) blank in
  let stats := deriveVisibleStats loaded in
  {| unitId := unitId loaded; unitName := unitName loaded;
     unitClass := unitClass loaded; faction := faction loaded;
     level := level loaded; isLeader := isLeader loaded;
     hiddenAbilities := hiddenAbilities loaded;
     equipment := equipment loaded;
     baseStats := stats;
     currentHP := Visible.sHP stats;
     currentMP := Visible.sMP stats;
     currentAP := MAX_PER_TURN;
     statusEffects := [];
     isIncapacitated := false;
     position := match cfgPosition config with
                 | Some p => p
                 | None => (0, 0)%Z
                 end;
     facing := orString (cfgFacing config) "north";
     hasActedThisTurn := false |}.

(** Unit.validate *)
Definition validate (u : Unit) : bool :=
  (negb (String.eqb (unitId u) "")
   && Str.oneOf (unitClass u) CLASS_TYPES
   && Str.oneOf (faction u) FACTION_TYPES
   && negb (Js.ltb (level u) 1) && negb (Js.gtb (level u) 80))%bool.

(** [new Unit(config)]; [None] stands for a thrown validation error. *)
Definition newUnit (config : UnitConfig) : option Unit :=
  let u := build config in
  if validate u then Some u else None.

Record DamageTaken : Type := mkDamageTaken {
  damage : Q;
  actualDamage : Q;
  overkill : Q;
  mitigation : option Q;
  remainingHP : option Q
}.

Definition setHP (u : Unit) (hp : Q) (incap : bool) (ap : Q) : Unit :=
  {| unitId := unitId u; unitName := unitName u; unitClass := unitClass u;
     faction := faction u; level := level u; isLeader := isLeader u;
     hiddenAbilities := hiddenAbilities u;
     equipment := equipment u; baseStats := baseStats u;
     currentHP := hp; currentMP := currentMP u; currentAP := ap;
     statusEffects := statusEffects u; isIncapacitated := incap;
     position := position u; facing := facing u;
     hasActedThisTurn := hasActedThisTurn u |}.

(** Unit.takeDamage(amount, type), in double arithmetic.  The one
    difference written exactly is [currentHP - actualDamage]: a whole
    number taken from a larger number of hit points, which are at most the
    HP stat and so far below 2^53, is a double again
    ([MitigationFacts.takeDamage_remaining_is_double_difference]). *)
Definition takeDamage (u : Unit) (amount : Q) (type : string)
  : DamageTaken * Unit :=
  if isIncapacitated u then
    ({| damage := 0; actualDamage := 0; overkill := 0;
        mitigation := None; remainingHP := None |}, u)
  else
    let currentStats := getCurrentStats u in
    let mitigation :=
      if String.eqb type "physical"
      then Js.mul (Visible.sDEF currentStats) (Js.double 0.02)
      else if String.eqb type "magical"
      then Js.mul (Visible.sRES currentStats) (Js.double 0.02)
      else 0 in
    let mitigatedDamage :=
      Qmax 1 (Js.floor (Js.mul amount
                               (Js.sub 1 (Qmin (Js.double 0.9) mitigation)))) in
    let actualDamage := Qmin (currentHP u) mitigatedDamage in
    let overkill := Js.sub mitigatedDamage actualDamage in
    let hp := Qmax 0 (currentHP u - actualDamage) in
    let u' := if Qle_bool hp 0 then setHP u hp true 0
              else setHP u hp (isIncapacitated u) (currentAP u) in
    ({| damage := amount; actualDamage := actualDamage; overkill := overkill;
        mitigation := Some (Js.sub amount mitigatedDamage);
        remainingHP := Some hp |}, u').

Definition setAP (u : Unit) (ap : Q) (acted : bool) : Unit :=
  {| unitId := unitId u; unitName := unitName u; unitClass := unitClass u;
     faction := faction u; level := level u; isLeader := isLeader u;
     hiddenAbilities := hiddenAbilities u;
     equipment := equipment u; baseStats := baseStats u;
     currentHP := currentHP u; currentMP := currentMP u; currentAP := ap;
     statusEffects := statusEffects u; isIncapacitated := isIncapacitated u;
     position := position u; facing := facing u;
     hasActedThisTurn := acted |}.

(** Unit.spendAP(cost) *)
Definition spendAP (u : Unit) (cost : Q) : bool * Unit :=
  if (Js.geb (currentAP u) cost && negb (isIncapacitated u))%bool then
    (true, setAP u (Qmax 0 (currentAP u - cost)) true)
  else (false, u).

(** Unit.restoreAP() *)
Definition restoreAP (u : Unit) : Unit :=
  if negb (isIncapacitated u) then setAP u MAX_PER_TURN false else u.

(** Unit.canAct(apCost) *)
Definition canAct (u : Unit) (apCost : Q) : bool :=
  (negb (isIncapacitated u) && Js.geb (currentAP u) apCost)%bool.
End Units.

(* ===================================================================== *)
(** * systems/DamageCalculator.js *)
(* ===================================================================== *)

Module Damage.
Import Units.
Local Open Scope Q_scope.

(** A weapon or spell damage profile. *)
Record DamageProfile : Type := mkProfile {
  dice : Z;
  sides : Z;
  modifier : option D20.Ability;
  profileType : string
}.


Definition SPELL_DAMAGE : list (string * DamageProfile) :=
  [ ("MAGIC_MISSILE", mkProfile 3 4 (Some D20.INT) "magical");
    ("FIREBALL", mkProfile 6 6 (Some D20.INT) "fire");
    ("ICE_SHARD", mkProfile 4 6 (Some D20.INT) "ice");
    ("LIGHTNING_BOLT", mkProfile 5 6 (Some D20.INT) "lightning");
    ("HOLY_LIGHT", mkProfile 4 6 (Some D20.WIS) "holy");
    ("DIVINE_WRATH", mkProfile 3 8 (Some D20.WIS) "holy");
    ("POISON_CLOUD", mkProfile 2 4 (Some D20.INT) "poison");
    ("BURNING", mkProfile 1 6 None "fire") ]%string.

Fixpoint profileOf (table : list (string * DamageProfile)) (key : string)
  : option DamageProfile :=
  match table with
  | [] => None
  | (k, p) :: rest => if String.eqb k key then Some p else profileOf rest key
  end.

(** ** DamageResistance

    The arithmetic of this class and of the final damage computation is
    double arithmetic: the literals are the doubles nearest to the decimal
    fractions written in the code ([Js.double]; 1.5, 1.25 and whole numbers
    are doubles as they stand), and sums, differences and products are
    [Js.add], [Js.sub] and [Js.mul]. *)

Definition isPhysicalDamage (damageType : string) : bool :=
  Str.oneOf damageType ["physical"; "slashing"; "piercing"; "bludgeoning"]%string.

Definition isMagicalDamage (damageType : string) : bool :=
  Str.oneOf damageType
    ["magical"; "fire"; "ice"; "lightning"; "earth"; "wind"; "dark"; "holy"]%string.

Definition calculatePhysicalMitigation (defenseValue baseDamage : Q) : Q :=
  let reductionPercent :=
    Qmin (Js.double 0.9) (Js.mul defenseValue (Js.double 0.02)) in
  Js.floor (Js.mul baseDamage reductionPercent).

Definition calculateMagicalMitigation (resistanceValue baseDamage : Q) : Q :=
  let reductionPercent :=
    Qmin (Js.double 0.9) (Js.mul resistanceValue (Js.double 0.02)) in
  Js.floor (Js.mul baseDamage reductionPercent).

(** The resistance summed over equipment and status effects, before the
    final clamp. *)
Definition summedResistance (defender : Unit) (damageType : string) : Q :=
  let fromEquipment :=
    fold_left
      (fun resistance item =>
         fold_left (fun r resist => Js.add r (Js.orElse (spValue resist) 0))
           (filter (fun effect =>
                      (String.eqb (spType effect) "resistance"
                       && String.eqb (spDamageType effect) damageType)%bool)
                   (specialEffects item))
           resistance)
      (equipment defender) 0 in
  fold_left
    (fun resistance effect =>
       match Units.resistance (effects effect) with
       | Some table =>
           match Obj.prop table damageType with
           | Some v => if Qeq_bool v 0 then resistance else Js.add resistance v
           | None => resistance
           end
       | None => resistance
       end)
    (statusEffects defender) fromEquipment.

Definition calculateElementalResistance (defender : Unit) (damageType : string) : Q :=
  let resistance := summedResistance defender damageType in
  Qmax (-1) (Qmin (Js.double 0.95) resistance).

Record MitigationResult : Type := mkMitigation {
  originalDamage : Q;
  baseMitigation : option Q;
  resistancePercent : option Q;
  finalDamage : Q;
  damageReduced : option Q
}.

Definition calculateMitigation (defender : Unit) (damageType : string)
    (baseDamage : Q) : MitigationResult :=
  let stats := getCurrentStats defender in
  let mitigation :=
    if isPhysicalDamage damageType then
      calculatePhysicalMitigation (Visible.sDEF stats) baseDamage
    else if isMagicalDamage damageType then
      calculateMagicalMitigation (Visible.sRES stats) baseDamage
    else 0 in
  let resistancePercent := calculateElementalResistance defender damageType in
  let afterMitigation := Qmax 1 (Js.sub baseDamage mitigation) in
  let afterResistance :=
    Qmax 1 (Js.floor (Js.mul afterMitigation (Js.sub 1 resistancePercent))) in
  {| originalDamage := baseDamage;
     baseMitigation := Some mitigation;
     resistancePercent := Some resistancePercent;
     finalDamage := afterResistance;
     damageReduced := Some (Js.sub baseDamage afterResistance) |}.

(** ** DamageCalculator *)

(** The dice loop [for (i < n) { roll = rng.randInt(1, sides); ... }],
    returning the sum, the individual rolls and the advanced generator. *)
Fixpoint rollDamageDice (n : nat) (sides : Z) (rng : Rng.DeterministicRNG)
  : option (Z * list Z * Rng.DeterministicRNG) :=
  match n with
  | O => Some (0%Z, [], rng)
  | S k =>
      '(roll, rng1) ← Rng.randInt 1 sides rng;
      '(total, rolls, rng2) ← rollDamageDice k sides rng1;
      Some ((roll + total)%Z, roll :: rolls, rng2)
  end.

Definition abilityDamageOf (abilities : D20.AbilityScores)
    (modifier : option D20.Ability) : Q :=
  match modifier with
  | Some ability => Qmax 0 (D20.getModifier abilities ability)
  | None => 0
  end.



Record SpellDamage : Type := mkSpellDamage {
  sType : string;
  sDiceDamage : Z;
  sDiceRolls : list Z;
  sAbilityDamage : Q;
  sFocusBonus : Q;
  sLevelBonus : Q;
  sSpellLevel : Q;
  sTotalDamage : Q;
  sIsCritical : bool
}.

(** calculateSpellDamage *)
Definition calculateSpellDamage (caster : Unit) (spellType : string)
    (rng : Rng.DeterministicRNG) (isCritical : bool) (spellLevel : Q)
  : option (SpellDamage * Rng.DeterministicRNG) :=
  spellData ← profileOf SPELL_DAMAGE (Str.toUpperCase spellType);
  let casterData := getHiddenData caster in
  let baseDice := (dice spellData + Qfloor (spellLevel / 2))%Z in
  let diceCount := if isCritical then (baseDice * 2)%Z else baseDice in
  '(diceDamage, diceRolls, rng') ←
    rollDamageDice (Z.to_nat diceCount) (sides spellData) rng;
  let abilityDamage :=
    abilityDamageOf (D20.attAbilities casterData) (modifier spellData) in
  let focusBonus :=
    fold_left (fun bonus item =>
                 if (String.eqb (itemType item) "weapon"
                     && (Str.includes (itemName item) "staff"
                         || Str.includes (itemName item) "tome"))%bool
                 then bonus + Obj.propOr (statModifiers item) "MAG" 0
                 else bonus)
              (equipment caster) 0 in
  let levelBonus := Js.floor (spellLevel * 1.5) in
  let totalDamage :=
    inject_Z diceDamage + abilityDamage + focusBonus + levelBonus in
  Some ({| sType := profileType spellData;
           sDiceDamage := diceDamage;
           sDiceRolls := diceRolls;
           sAbilityDamage := abilityDamage;
           sFocusBonus := focusBonus;
           sLevelBonus := levelBonus;
           sSpellLevel := spellLevel;
           sTotalDamage := Qmax 1 totalDamage;
           sIsCritical := isCritical |}, rng').

(** The situational options bag of [calculateFinalDamage]. *)
Record DamageOptions : Type := mkDamageOptions {
  backstab : bool;
  flanking : bool;
  heightAdvantage : Q;
  distance : option Q
}.

(** [table[damageType] || table.all || d] *)
Definition byTypeOrAll (table : Obj.t) (damageType : string) (d : Q) : Q :=
  Obj.propOr table damageType (Obj.propOr table "all" d).

Definition applyStatusDamageModifiers (attacker defender : Unit) (damage : Q)
    (damageType : string) : Q :=
  let afterAttacker :=
    fold_left
      (fun modifiedDamage effect =>
         let d1 :=
           match damageBonus (effects effect) with
           | Some table =>
               Js.add modifiedDamage
                      (Js.mul (byTypeOrAll table damageType 0) (intensity effect))
           | None => modifiedDamage
           end in
         match damageMultiplier (effects effect) with
         | Some table => Js.floor (Js.mul d1 (byTypeOrAll table damageType 1))
         | None => d1
         end)
      (statusEffects attacker) damage in
  let afterDefender :=
    fold_left
      (fun modifiedDamage effect =>
         let d1 :=
           match damageVulnerability (effects effect) with
           | Some table =>
               Js.floor (Js.mul modifiedDamage
                                (Js.add 1 (Obj.propOr table damageType 0)))
           | None => modifiedDamage
           end in
         match damageReduction (effects effect) with
         | Some table => Qmax 1 (Js.sub d1 (byTypeOrAll table damageType 0))
         | None => d1
         end)
      (statusEffects defender) afterAttacker in
  Qmax 1 afterDefender.

Definition getClassDamageBonus (attacker defender : Unit)
    (options : DamageOptions) : Q :=
  let multiplier := 1 in
  if String.eqb (unitClass attacker) "ROGUE" then
    let m1 := if backstab options then Js.mul multiplier 1.5 else multiplier in
    if existsb (fun e => String.eqb (effectType e) "debuff") (statusEffects defender)
    then Js.mul m1 (Js.double 1.2) else m1
  else if String.eqb (unitClass attacker) "ARCHER" then
    match distance options with
    | Some d => if Js.gtb d 3 then Js.mul multiplier (Js.double 1.3) else multiplier
    | None => multiplier
    end
  else if String.eqb (unitClass attacker) "SWORDSMAN" then
    match distance options with
    | Some d => if Qle_bool d 1 then Js.mul multiplier (Js.double 1.2) else multiplier
    | None => multiplier
    end
  else if String.eqb (unitClass attacker) "MAGE" then
    if Js.ltb (Visible.sRES (getCurrentStats defender)) 20
    then Js.mul multiplier 1.25 else multiplier
  else multiplier.

Definition applySituationalModifiers (attacker defender : Unit) (damage : Q)
    (options : DamageOptions) : Q :=
  let d1 := if backstab options then Js.floor (Js.mul damage 1.5) else damage in
  let d2 := if (flanking options && negb (backstab options))%bool
            then Js.floor (Js.mul d1 1.25) else d1 in
  let d3 := if Js.gtb (heightAdvantage options) 0
            then Js.floor
                   (Js.mul d2 (Js.add 1 (Js.mul (heightAdvantage options)
                                                (Js.double 0.1))))
            else d2 in
  let classBonus := getClassDamageBonus attacker defender options in
  let d4 := Js.floor (Js.mul d3 classBonus) in
  Qmax 1 d4.

Record FinalDamage : Type := mkFinalDamage {
  beforeMitigation : Q;
  afterMitigation : Q;
  mitigationDetail : MitigationResult;
  finalType : string;
  totalDamageReduced : Q;
  finalIsCritical : bool
}.

(** calculateFinalDamage, on the [totalDamage], [type] and [isCritical]
    fields of the base damage result. *)
Definition calculateFinalDamage (attacker defender : Unit)
    (totalDamage : Q) (damageType : string) (isCritical : bool)
    (options : DamageOptions) : FinalDamage :=
  let damage0 := applyStatusDamageModifiers attacker defender totalDamage damageType in
  let damage := applySituationalModifiers attacker defender damage0 options in
  let mitigationResult :=
    if negb (String.eqb damageType "true") then
      calculateMitigation defender damageType damage
    else
      {| originalDamage := damage; baseMitigation := None;
         resistancePercent := None; finalDamage := damage;
         damageReduced := None |} in
  {| beforeMitigation := damage;
     afterMitigation := finalDamage mitigationResult;
     mitigationDetail := mitigationResult;
     finalType := damageType;
     totalDamageReduced := Js.sub damage (finalDamage mitigationResult);
     finalIsCritical := isCritical |}.
End Damage.

(* ===================================================================== *)
(** * Sample data used by the scenarios *)
(* ===================================================================== *)

Module Sample.
Import Units.
Local Open Scope Q_scope.

Definition average : D20.AbilityScores := D20.mkAbilities 10 10 10 10 10 10.

(** A level-1 human swordsman with all abilities at 10 and no equipment. *)
Definition recruit (name : string) : Unit :=
  build (mkConfig name name "SWORDSMAN" "HUMAN_KINGDOM" 1 false average []
                  None "").

(** The same recruit created at a given board position. *)
Definition recruitAt (name : string) (pos : Z * Z) : Unit :=
  build (mkConfig name name "SWORDSMAN" "HUMAN_KINGDOM" 1 false average []
                  (Some pos) "").

(** The same unit after a blow that takes it out of the fight. *)
Definition fallen (name : string) : Unit :=
  snd (takeDamage (recruit name) 1000 "true").

(** A level-5 mage with INT 16 carrying an oak staff (+3 MAG). *)
Definition mage : Unit :=
  build (mkConfig "mage" "Mage" "MAGE" "HUMAN_KINGDOM" 5 false
                  (D20.mkAbilities 10 10 10 16 10 10)
                  [ mkEquipment "staff1" "oak staff" "weapon" 10
                      [("MAG"%string, 3)] [] [] ]
                  None "").


Definition rng12345 : Rng.DeterministicRNG := Rng.create (Rng.Finite 12345).

(** The "slow" debuff: costs of all actions go up by one. *)
Definition slow : StatusEffect := mkStatus "slow" "debuff" 2 1 noEffects.

(** A debuff under another name that carries an explicit flat +1 cost
    modifier for every action type. *)
Definition hindered : StatusEffect :=
  mkStatus "hindered" "debuff" 2 1
    (mkEffects [] 0 None None None None None
       (Some [("ALL"%string, mkCostModifier "flat" 1)]) None).

(** The unit after [applyStatusEffect] on an empty effect list. *)
Definition withEffects (u : Unit) (l : list StatusEffect) : Unit :=
  {| unitId := unitId u; unitName := unitName u; unitClass := unitClass u;
     faction := faction u; level := level u; isLeader := isLeader u;
     hiddenAbilities := hiddenAbilities u;
     equipment := equipment u; baseStats := Units.baseStats u;
     currentHP := currentHP u; currentMP := currentMP u;
     currentAP := currentAP u; statusEffects := l;
     isIncapacitated := isIncapacitated u; position := position u;
     facing := facing u; hasActedThisTurn := hasActedThisTurn u |}.
End Sample.

(* ===================================================================== *)
(** * The action point system (ActionPointSystem, Action) *)
(* ===================================================================== *)

Module AP.
Import Units.
Local Open Scope Q_scope.

(** ACTION_POINTS.COSTS *)
Definition COSTS : Obj.t :=
  [ ("MOVE", 1); ("BASIC_ATTACK", 1); ("WAIT", 0); ("END_TURN", 0);
    ("DASH", 2); ("BARRAGE", 2); ("INSPIRE", 2); ("CONTROL", 2);
    ("TELEPORT", 2); ("TERRAIN_SHAPE", 2); ("FINISHER", 1); ("GUARD", 1);
    ("MARK", 1); ("CLEANSE", 1); ("HEAL", 1); ("DISENGAGE", 1);
    ("SCOUT_EYE", 1) ]%string.

Record Action : Type := mkAction {
  actionType : string;
  actionUnitId : string;
  abilityId : option string;
  baseCost : Q;
  modifiedCost : Q
}.

(** [new Action(config)]; a zero cost in the configuration counts as
    absent, as does an empty ability id. *)
Definition newAction (type unitId : string) (ability : option string)
    (configBaseCost configModifiedCost : Q) : Action :=
  let base := Js.orElse configBaseCost (Obj.propOr COSTS type 1) in
  {| actionType := type;
     actionUnitId := unitId;
     abilityId := match ability with
                  | Some "" => None
                  | other => other
                  end%string;
     baseCost := base;
     modifiedCost := Js.orElse configModifiedCost base |}.

(** A standing per-unit modifier registered with [addAPModifier]. *)
Record APModifier : Type := mkAPModifier {
  modType : string;
  modActionType : string;
  modValue : Q;
  modOperation : string
}.

(** A debug log entry (its timestamp and payload are left out). *)
Record LogEntry : Type := mkLog {
  logType : string;
  logUnitId : string
}.

Record ActionPointSystem : Type := mkSystem {
  enableAPBanking : bool;
  enableAPOverflow : bool;
  maxBankedAP : Q;
  logActions : bool;
  actionLog : list LogEntry;
  apModifiers : gmap string (list APModifier)
}.

(** [new ActionPointSystem()] with the default configuration. *)
Definition newSystem : ActionPointSystem :=
  mkSystem false false 2 false [] ∅.

Definition log (sys : ActionPointSystem) (type unitId : string)
  : ActionPointSystem :=
  if logActions sys then
    mkSystem (enableAPBanking sys) (enableAPOverflow sys) (maxBankedAP sys)
             (logActions sys) (actionLog sys ++ [mkLog type unitId])
             (apModifiers sys)
  else sys.

(** [table[actionType] || table.ALL] *)
Fixpoint costModifierFor (table : list (string * CostModifier))
    (key : string) : option CostModifier :=
  match table with
  | [] => None
  | (k, m) :: rest => if String.eqb k key then Some m else costModifierFor rest key
  end.

Definition applicableCostModifier (table : list (string * CostModifier))
    (actionType : string) : option CostModifier :=
  match costModifierFor table actionType with
  | Some m => Some m
  | None => costModifierFor table "ALL"
  end.

Definition applyStatusEffectCostModifiers (unit : Unit) (action : Action)
    (baseCost : Q) : Q :=
  fold_left
    (fun cost effect =>
       let cost1 :=
         match apCostModifier (effects effect) with
         | Some table =>
             match applicableCostModifier table (actionType action) with
             | Some modifier =>
                 if String.eqb (cmType modifier) "flat" then
                   cost + cmValue modifier * intensity effect
                 else if String.eqb (cmType modifier) "percentage" then
                   Js.ceil (cost * (1 + cmValue modifier * intensity effect))
                 else cost
             | None => cost
             end
         | None => cost
         end in
       let name := Str.toLowerCase (effectName effect) in
       if Str.oneOf name ["haste"; "quickened"]%string then Qmax 0 (cost1 - 1)
       else if Str.oneOf name ["slow"; "exhausted"]%string then cost1 + 1
       else if String.eqb name "encumbered" then
         if String.eqb (actionType action) "MOVE" then cost1 + 1 else cost1
       else if String.eqb name "focused" then
         if String.eqb (actionType action) "ABILITY" then Qmax 0 (cost1 - 1)
         else cost1
       else cost1)
    (statusEffects unit) baseCost.

Definition appliesTo (effectActionType actionType : string) : bool :=
  (String.eqb effectActionType actionType || String.eqb effectActionType "ALL")%bool.

Definition applyEquipmentCostModifiers (unit : Unit) (action : Action)
    (baseCost : Q) : Q :=
  fold_left
    (fun cost item =>
       let cost1 :=
         fold_left
           (fun c effect =>
              let c1 :=
                if (String.eqb (spType effect) "ap_cost_reduction"
                    && appliesTo (spActionType effect) (actionType action))%bool
                then Qmax 0 (c - Js.orElse (spValue effect) 1) else c in
              if (String.eqb (spType effect) "ap_cost_increase"
                  && appliesTo (spActionType effect) (actionType action))%bool
              then c1 + Js.orElse (spValue effect) 1 else c1)
           (specialEffects item) cost in
       if (String.eqb (itemType item) "armor"
           && Str.includes (Str.toLowerCase (itemName item)) "heavy"
           && String.eqb (actionType action) "MOVE")%bool
       then cost1 + 1 else cost1)
    (equipment unit) baseCost.

Definition applyAbilityCostModifiers (unit : Unit) (action : Action)
    (baseCost : Q) : Q :=
  let cost := baseCost in
  if String.eqb (unitClass unit) "ARCHER" then
    if (String.eqb (actionType action) "ATTACK"
        && negb (hasActedThisTurn unit))%bool
    then Qmax 1 (cost - 1) else cost
  else if String.eqb (unitClass unit) "ROGUE" then
    match abilityId action with
    | Some ability =>
        if Str.includes (Str.toLowerCase ability) "stealth"
        then Qmax 1 (cost - 1) else cost
    | None => cost
    end
  else if String.eqb (unitClass unit) "MAGE" then
    if String.eqb (actionType action) "ABILITY" then
      let intMod := Js.floor (Visible.sINT (getCurrentStats unit) / 10) in
      Qmax 1 (cost - intMod)
    else cost
  else cost.

(** The cost computation proper of [calculateActionCost]. *)
Definition actionCost (sys : ActionPointSystem) (unit : Unit) (action : Action) : Q :=
  let modifiers := default [] (apModifiers sys !! unitId unit) in
  let cost0 :=
    fold_left
      (fun cost modifier =>
         if appliesTo (modActionType modifier) (actionType action) then
           if String.eqb (modType modifier) "flat" then cost + modValue modifier
           else if String.eqb (modType modifier) "percentage" then
             Js.ceil (cost * (1 + modValue modifier))
           else cost
         else cost)
      modifiers (baseCost action) in
  let cost1 := applyStatusEffectCostModifiers unit action cost0 in
  let cost2 := applyEquipmentCostModifiers unit action cost1 in
  let cost3 := match abilityId action with
               | Some _ => applyAbilityCostModifiers unit action cost2
               | None => cost2
               end in
  Qmax 0 cost3.

(** The objects an operation of the system can reach: the system itself,
    the unit and the action.  Every operation returns their final state. *)
Definition Reach : Type := (ActionPointSystem * Unit * Action)%type.

Definition calculateActionCost (sys : ActionPointSystem) (unit : Unit)
    (action : Action) : Q * Reach :=
  let cost := actionCost sys unit action in
  (cost, (log sys "calculate_cost" (unitId unit), unit, action)).

Record AffordCheck : Type := mkAfford {
  canAfford : bool;
  cost : Q;
  available : Q;
  remaining : Q;
  deficit : Q
}.

Definition canAffordAction (sys : ActionPointSystem) (unit : Unit)
    (action : Action) : AffordCheck * Reach :=
  let '(cost, (sys1, unit1, action1)) := calculateActionCost sys unit action in
  let available := currentAP unit1 in
  let canAfford := Js.geb available cost in
  let result :=
    {| canAfford := canAfford;
       cost := cost;
       available := available;
       remaining := if canAfford then available - cost else available;
       deficit := if canAfford then 0 else cost - available |} in
  (result, (log sys1 "afford_check" (unitId unit1), unit1, action1)).

Definition setModifiedCost (action : Action) (c : Q) : Action :=
  {| actionType := actionType action; actionUnitId := actionUnitId action;
     abilityId := abilityId action; baseCost := baseCost action;
     modifiedCost := c |}.

Definition spendAP (sys : ActionPointSystem) (unit : Unit) (action : Action)
  : bool * Reach :=
  let '(affordCheck, (sys1, unit1, action1)) := canAffordAction sys unit action in
  if negb (canAfford affordCheck) then
    (false, (log sys1 "spend_failed" (unitId unit1), unit1, action1))
  else
    let '(success, unit2) := Units.spendAP unit1 (cost affordCheck) in
    if success then
      (true, (log sys1 "spend_success" (unitId unit2), unit2,
              setModifiedCost action1 (cost affordCheck)))
    else (false, (sys1, unit2, action1)).
End AP.

(* ===================================================================== *)
(** * Combat state management (CombatState, TerrainTile) *)
(* ===================================================================== *)

Module Match.
Import Units.
Local Open Scope Q_scope.

(** A movement cost: a number or [Infinity]. *)
Inductive MoveCost : Type :=
| Cost (q : Q)
| Infinity.

Record TerrainTile : Type := mkTile {
  tileX : Z;
  tileY : Z;
  tileType : string;
  tileHeight : Q;
  moveCost : MoveCost;
  evasionBonus : Q;
  coverValue : Q;
  blockingLOS : bool;
  destructible : bool;
  tileHP : option Q
}.

(** [new TerrainTile(config)]: falsy configuration entries fall back to the
    PLAINS values. *)
Definition newTerrainTile (x y : Z) (type : string) (height : Q)
    (cost : MoveCost) (evasion cover : Q) (blocking destr : bool)
    (hp : option Q) : TerrainTile :=
  {| tileX := x; tileY := y;
     tileType := if String.eqb type "" then "PLAINS"%string else type;
     tileHeight := height;
     moveCost := match cost with
                 | Cost q => Cost (Js.orElse q 1)
                 | Infinity => Infinity
                 end;
     evasionBonus := evasion;
     coverValue := cover;
     blockingLOS := blocking;
     destructible := destr;
     tileHP := match hp with
               | Some q => if Qeq_bool q 0 then None else Some q
               | None => None
               end |}.

(** [currentHP > 0], false for a missing value. *)
Definition hpPositive (hp : option Q) : bool :=
  match hp with
  | Some q => Js.gtb q 0
  | None => false
  end.

Definition providesCover (t : TerrainTile) : bool :=
  (Js.gtb (coverValue t) 0 && (negb (destructible t) || hpPositive (tileHP t)))%bool.

Definition blocksLOS (t : TerrainTile) : bool :=
  (blockingLOS t && (negb (destructible t) || hpPositive (tileHP t)))%bool.

Definition getMoveCost (t : TerrainTile) (unitType : string) : MoveCost :=
  if String.eqb unitType "flying" then Cost 1
  else if (String.eqb unitType "amphibious" && String.eqb (tileType t) "WATER")%bool
  then Cost 1
  else moveCost t.

(** The match state.  Position keys ["x,y"] are kept as coordinate pairs. *)
Record CombatState : Type := mkState {
  phase : string;
  turn : Z;
  mapWidth : Z;
  mapHeight : Z;
  units : gmap string Unit;
  deployedUnits : gset string;
  incapacitatedUnits : gset string;
  terrain : gmap (Z * Z) TerrainTile;
  unitPositions : gmap (Z * Z) string
}.

Definition getUnit (s : CombatState) (unitId : string) : option Unit :=
  units s !! unitId.

Definition getUnitAtPosition (s : CombatState) (x y : Z) : option Unit :=
  match unitPositions s !! (x, y) with
  | Some unitId => if String.eqb unitId "" then None else getUnit s unitId
  | None => None
  end.

Definition getTerrainAt (s : CombatState) (x y : Z) : option TerrainTile :=
  terrain s !! (x, y).

Definition setPosition (u : Unit) (p : Z * Z) : Unit :=
  {| unitId := unitId u; unitName := unitName u; unitClass := unitClass u;
     faction := faction u; level := level u; isLeader := isLeader u;
     hiddenAbilities := hiddenAbilities u;
     equipment := equipment u; baseStats := baseStats u;
     currentHP := currentHP u; currentMP := currentMP u;
     currentAP := currentAP u; statusEffects := statusEffects u;
     isIncapacitated := isIncapacitated u; position := p;
     facing := facing u; hasActedThisTurn := hasActedThisTurn u |}.

Definition outOfBounds (s : CombatState) (x y : Z) : bool :=
  ((x <? 0) || (x >=? mapWidth s) || (y <? 0) || (y >=? mapHeight s))%Z%bool.

(** CombatState.moveUnit *)
Definition moveUnit (s : CombatState) (unitId : string) (x y : Z)
  : bool * CombatState :=
  match getUnit s unitId with
  | None => (false, s)
  | Some unit =>
      if outOfBounds s x y then (false, s)
      else
        match unitPositions s !! (x, y) with
        | Some _ => (false, s)
        | None =>
            let positions := delete (position unit) (unitPositions s) in
            (true,
             {| phase := phase s; turn := turn s;
                mapWidth := mapWidth s; mapHeight := mapHeight s;
                units := <[unitId := setPosition unit (x, y)]> (units s);
                deployedUnits := deployedUnits s;
                incapacitatedUnits := incapacitatedUnits s;
                terrain := terrain s;
                unitPositions := <[(x, y) := unitId]> positions |})
        end
  end.

Definition markDeployed (s : CombatState) (unitId : string) : CombatState :=
  {| phase := phase s; turn := turn s;
     mapWidth := mapWidth s; mapHeight := mapHeight s;
     units := units s;
     deployedUnits := {[unitId]} ∪ deployedUnits s;
     incapacitatedUnits := incapacitatedUnits s;
     terrain := terrain s;
     unitPositions := unitPositions s |}.

(** CombatState.deployUnit *)
Definition deployUnit (s : CombatState) (unitId : string) (x y : Z)
  : bool * CombatState :=
  if negb (String.eqb (phase s) "DEPLOYMENT") then (false, s)
  else
    match getUnit s unitId with
    | None => (false, s)
    | Some _ =>
        if bool_decide (unitId ∈ deployedUnits s) then (false, s)
        else
          let '(moved, s1) := moveUnit s unitId x y in
          if moved then (true, markDeployed s1 unitId) else (false, s1)
    end.

(** CombatState.isPositionPassable *)
Definition isPositionPassable (s : CombatState) (x y : Z) (unitType : string)
  : bool :=
  if outOfBounds s x y then false
  else
    match getUnitAtPosition s x y with
    | Some _ => false
    | None =>
        match getTerrainAt s x y with
        | Some tile =>
            match getMoveCost tile unitType with
            | Cost _ => true
            | Infinity => false
            end
        | None => true
        end
    end.

(** CombatState.addUnit *)
Definition addUnit (s : CombatState) (unit : Unit) : bool * CombatState :=
  match units s !! unitId unit with
  | Some _ => (false, s)
  | None =>
      (true,
       {| phase := phase s; turn := turn s;
          mapWidth := mapWidth s; mapHeight := mapHeight s;
          units := <[unitId unit := unit]> (units s);
          deployedUnits := deployedUnits s;
          incapacitatedUnits := incapacitatedUnits s;
          terrain := terrain s;
          unitPositions :=
            match unitPositions s !! position unit with
            | Some _ => unitPositions s
            | None => <[position unit := unitId unit]> (unitPositions s)
            end |})
  end.

(** An 18 x 18 match in its deployment phase with one lake tile at (1, 1)
    and one unit waiting at the default position. *)
Definition lake : TerrainTile :=
  newTerrainTile 1 1 "WATER" 0 Infinity 0 0 false false None.

Definition emptyMatch : CombatState :=
  {| phase := "DEPLOYMENT"; turn := 1; mapWidth := 18; mapHeight := 18;
     units := ∅; deployedUnits := ∅; incapacitatedUnits := ∅;
     terrain := {[ (1, 1)%Z := lake ]}; unitPositions := ∅ |}.

Definition lakeside : CombatState := snd (addUnit emptyMatch (Sample.recruit "u1")).
End Match.

(* ===================================================================== *)
(** * systems/InitiativeSystem.js *)
(* ===================================================================== *)

Module Initiative.
Import Units.
Local Open Scope Q_scope.

Record Modifier : Type := mkModifier {
  source : string;
  value : Q;
  kind : string
}.

Record InitiativeEntry : Type := mkEntry {
  entryUnitId : string;
  entryUnitName : string;
  playerId : string;
  baseInitiative : Q;
  initiativeRoll : Q;
  totalInitiative : Q;
  tiebreaker : Q;
  modifiers : list Modifier;
  hasActed : bool;
  entryIncapacitated : bool;
  turnIndex : Z
}.

(** InitiativeEntry.recalculateTotal *)
Definition recalculateTotal (e : InitiativeEntry) : InitiativeEntry :=
  let modifierTotal := fold_left (fun t m => t + value m) (modifiers e) 0 in
  {| entryUnitId := entryUnitId e; entryUnitName := entryUnitName e;
     playerId := playerId e; baseInitiative := baseInitiative e;
     initiativeRoll := initiativeRoll e;
     totalInitiative := baseInitiative e + initiativeRoll e + modifierTotal;
     tiebreaker := tiebreaker e; modifiers := modifiers e;
     hasActed := hasActed e; entryIncapacitated := entryIncapacitated e;
     turnIndex := turnIndex e |}.

(** InitiativeEntry.addModifier *)
Definition addModifier (e : InitiativeEntry) (m : Modifier) : InitiativeEntry :=
  recalculateTotal
    {| entryUnitId := entryUnitId e; entryUnitName := entryUnitName e;
       playerId := playerId e; baseInitiative := baseInitiative e;
       initiativeRoll := initiativeRoll e;
       totalInitiative := totalInitiative e;
       tiebreaker := tiebreaker e;
       modifiers := modifiers e ++
                    [ {| source := source m;
                         value := Js.orElse (value m) 0;
                         kind := if String.eqb (kind m) "" then "misc"%string
                                 else kind m |} ];
       hasActed := hasActed e; entryIncapacitated := entryIncapacitated e;
       turnIndex := turnIndex e |}.

Definition applyStatusEffectModifiers (unit : Unit) (entry : InitiativeEntry)
  : InitiativeEntry :=
  fold_left
    (fun e effect =>
       let e1 :=
         if Qeq_bool (initiativeBonus (effects effect)) 0 then e
         else addModifier e
                {| source := ("status_" ++ effectName effect)%string;
                   value := initiativeBonus (effects effect) * intensity effect;
                   kind := "status" |} in
       let name := Str.toLowerCase (effectName effect) in
       if Str.oneOf name ["haste"; "quickened"]%string then
         addModifier e1 {| source := effectName effect; value := 10; kind := "status" |}
       else if Str.oneOf name ["slow"; "sluggish"]%string then
         addModifier e1 {| source := effectName effect; value := -10; kind := "status" |}
       else if Str.oneOf name ["paralyzed"; "stunned"]%string then
         addModifier e1 {| source := effectName effect; value := -20; kind := "status" |}
       else e1)
    (statusEffects unit) entry.

Definition applyEquipmentModifiers (unit : Unit) (entry : InitiativeEntry)
  : InitiativeEntry :=
  fold_left
    (fun e item =>
       let e1 :=
         match Obj.prop (statModifiers item) "AGL" with
         | Some agl =>
             if Qeq_bool agl 0 then e
             else addModifier e
                    {| source := ("equipment_" ++ itemName item)%string;
                       value := agl; kind := "equipment" |}
         | None => e
         end in
       fold_left
         (fun e2 effect =>
            if String.eqb (spType effect) "initiative" then
              addModifier e2
                {| source := ("equipment_" ++ itemName item ++ "_" ++ spName effect)%string;
                   value := Js.orElse (spValue effect) 0;
                   kind := "equipment" |}
            else e2)
         (specialEffects item) e1)
    (equipment unit) entry.

(** calculateUnitInitiative(unit, rng, { playerId, bonuses }) *)
Definition calculateUnitInitiative (unit : Unit) (rng : Rng.DeterministicRNG)
    (player : string) (bonuses : list Modifier)
  : option (InitiativeEntry * Rng.DeterministicRNG) :=
  let unitData := getHiddenData unit in
  let stats := getCurrentStats unit in
  let baseInitiative := Visible.sAGL stats in
  let dexModifier := D20.getModifier (D20.attAbilities unitData) D20.DEX in
  '(roll, rng') ← Rng.rollD20 rng;
  let initiativeRoll := inject_Z roll in
  let tiebreaker := Visible.sLCK stats + D20.calculateModifier (Visible.sLCK stats) in
  let entry :=
    {| entryUnitId := unitId unit;
       entryUnitName := if String.eqb (unitName unit) "" then "Unknown"%string
                        else unitName unit;
       playerId := if String.eqb player "" then "unknown"%string else player;
       baseInitiative := baseInitiative + dexModifier;
       initiativeRoll := initiativeRoll;
       totalInitiative := baseInitiative + dexModifier + initiativeRoll;
       tiebreaker := tiebreaker;
       modifiers := [];
       hasActed := false;
       entryIncapacitated := isIncapacitated unit;
       turnIndex := 0 |} in
  let e1 := applyStatusEffectModifiers unit entry in
  let e2 := applyEquipmentModifiers unit e1 in
  let e3 := fold_left addModifier bonuses e2 in
  Some (e3, rng').

(** The callbacks of the options bag. *)
Record Options : Type := mkOptions {
  getPlayerForUnit : option (string -> string);
  getInitiativeModifiers : option (string -> list Modifier)
}.

(** The loop that computes one entry per unit, in list order. *)
Fixpoint collectEntries (units : list Unit) (rng : Rng.DeterministicRNG)
    (options : Options)
  : option (list InitiativeEntry * Rng.DeterministicRNG) :=
  match units with
  | [] => Some ([], rng)
  | unit :: rest =>
      let player := match getPlayerForUnit options with
                    | Some f => f (unitId unit)
                    | None => "unknown"%string
                    end in
      let bonuses := match getInitiativeModifiers options with
                     | Some f => f (unitId unit)
                     | None => []
                     end in
      '(entry, rng1) ← calculateUnitInitiative unit rng player bonuses;
      '(entries, rng2) ← collectEntries rest rng1 options;
      Some (entry :: entries, rng2)
  end.

Section Sorting.

(** [String.prototype.localeCompare], reduced to the sign of its result. *)
Variable localeCompare : string -> string -> comparison.

(** The comparator handed to [entries.sort]: [Lt] when it is negative
    ([a] goes first), [Gt] when it is positive ([b] goes first). *)
Definition compareEntries (a b : InitiativeEntry) : comparison :=
  if negb (Qeq_bool (totalInitiative a) (totalInitiative b)) then
    Qcompare (totalInitiative b) (totalInitiative a)
  else if negb (Qeq_bool (tiebreaker a) (tiebreaker b)) then
    Qcompare (tiebreaker b) (tiebreaker a)
  else localeCompare (entryUnitId a) (entryUnitId b).

(** [Array.prototype.sort] with a consistent comparator returns the stable
    sorted arrangement; stable insertion computes it. *)
Fixpoint insertEntry (x : InitiativeEntry) (l : list InitiativeEntry)
  : list InitiativeEntry :=
  match l with
  | [] => [x]
  | y :: rest =>
      match compareEntries x y with
      | Gt => y :: insertEntry x rest
      | _ => x :: y :: rest
      end
  end.

Definition sortEntries (l : list InitiativeEntry) : list InitiativeEntry :=
  fold_right insertEntry [] l.

Definition setTurnIndex (e : InitiativeEntry) (index : Z) : InitiativeEntry :=
  {| entryUnitId := entryUnitId e; entryUnitName := entryUnitName e;
     playerId := playerId e; baseInitiative := baseInitiative e;
     initiativeRoll := initiativeRoll e; totalInitiative := totalInitiative e;
     tiebreaker := tiebreaker e; modifiers := modifiers e;
     hasActed := hasActed e; entryIncapacitated := entryIncapacitated e;
     turnIndex := index |}.

(** [entries.forEach((entry, index) => entry.turnIndex = index)] *)
Fixpoint assignTurnIndices (l : list InitiativeEntry) (from : Z)
  : list InitiativeEntry :=
  match l with
  | [] => []
  | e :: rest => setTurnIndex e from :: assignTurnIndices rest (from + 1)
  end.

(** calculateInitiativeOrder; [None] stands for a thrown error. *)
Definition calculateInitiativeOrder (units : list Unit)
    (rng : Rng.DeterministicRNG) (options : Options)
  : option (list InitiativeEntry * Rng.DeterministicRNG) :=
  match units with
  | [] => None
  | _ :: _ =>
      '(entries, rng') ← collectEntries units rng options;
      Some (assignTurnIndices (sortEntries entries) 0, rng')
  end.

(** [a] is placed strictly ahead of [b]: higher total initiative, or equal
    totals and higher tiebreaker, or both equal and the smaller unit id. *)
Definition ahead (a b : InitiativeEntry) : Prop :=
  totalInitiative b < totalInitiative a \/
  (totalInitiative a == totalInitiative b /\
   (tiebreaker b < tiebreaker a \/
    (tiebreaker a == tiebreaker b /\
     localeCompare (entryUnitId a) (entryUnitId b) = Lt))).

End Sorting.

(** The entry of unit [u] built from d20 roll [roll]: identity, tiebreaker,
    base value and roll as computed, total consistent with the modifiers. *)
Definition wellFormed (u : Unit) (roll : Z) (e : InitiativeEntry) : Prop :=
  entryUnitId e = unitId u /\
  tiebreaker e =
    Visible.sLCK (getCurrentStats u)
    + D20.calculateModifier (Visible.sLCK (getCurrentStats u)) /\
  baseInitiative e =
    Visible.sAGL (getCurrentStats u) + D20.getModifier (hiddenAbilities u) D20.DEX /\
  initiativeRoll e = inject_Z roll /\
  entryIncapacitated e = isIncapacitated u /\
  totalInitiative e ==
    baseInitiative e + initiativeRoll e
    + fold_left (fun t m => t + value m) (modifiers e) 0.


(** ** Canonically equivalent ids

    [localeCompare] returns 0 for strings that are canonically equivalent
    in Unicode.  The sample ids are two spellings of the letter e with an
    acute accent, written in UTF-8: the precomposed letter U+00E9 (bytes
    195, 169), and the letter e followed by the combining accent U+0301
    (bytes 101, 204, 129). *)

Definition byte (n : nat) : ascii := ascii_of_nat n.

Definition precomposed : string := String (byte 195) (String (byte 169) "").

Definition decomposed : string :=
  String "e" (String (byte 204) (String (byte 129) "")).

(** Canonical composition, as far as the two spellings need it: an e
    followed by the combining acute accent becomes the precomposed letter. *)
Fixpoint compose (s : string) : string :=
  match s with
  | EmptyString => EmptyString
  | String c rest =>
      match rest with
      | String c1 (String c2 rest') =>
          if (Ascii.eqb c "e" && Ascii.eqb c1 (byte 204)
              && Ascii.eqb c2 (byte 129))%bool
          then String (byte 195) (String (byte 169) (compose rest'))
          else String c (compose rest)
      | _ => String c (compose rest)
      end
  end.

(** An id comparison that is 0 on canonically equivalent spellings and
    compares code units otherwise. *)
Definition canonicalCompare (a b : string) : comparison :=
  String.compare (compose a) (compose b).
End Initiative.

(* ===================================================================== *)
(** * The hit calculator (SituationalModifiers, HitCalculator) *)
(* ===================================================================== *)

Module Hit.
Import Units Match.
Local Open Scope Q_scope.

Definition RANGED_ATTACK_BONUS : Q := 0.1.

(** [x % m] on numbers: the remainder takes the sign of the dividend. *)
Definition rem (x m : Q) : Q :=
  let q := x / m in
  let t := if Qle_bool 0 q then Qfloor q else Qceiling q in
  x - m * inject_Z t.

Record StatusNote : Type := mkNote {
  noteSource : string;
  noteEffect : string;
  noteType : string
}.

Record Modifiers : Type := mkModifiers {
  attackerAdvantage : bool;
  attackerDisadvantage : bool;
  defenderAdvantage : bool;
  defenderDisadvantage : bool;
  coverBonus : Q;
  heightBonus : Q;
  flanking : bool;
  backstab : bool;
  statusNotes : list StatusNote
}.

Definition noModifiers : Modifiers :=
  mkModifiers false false false false 0 0 false false [].

Definition withAdvantage (m : Modifiers) : Modifiers :=
  mkModifiers true (attackerDisadvantage m) (defenderAdvantage m)
              (defenderDisadvantage m) (coverBonus m) (heightBonus m)
              (flanking m) (backstab m) (statusNotes m).

Definition withDisadvantage (m : Modifiers) : Modifiers :=
  mkModifiers (attackerAdvantage m) true (defenderAdvantage m)
              (defenderDisadvantage m) (coverBonus m) (heightBonus m)
              (flanking m) (backstab m) (statusNotes m).

Definition withHeightBonus (m : Modifiers) (h : Q) : Modifiers :=
  mkModifiers (attackerAdvantage m) (attackerDisadvantage m) (defenderAdvantage m)
              (defenderDisadvantage m) (coverBonus m) h
              (flanking m) (backstab m) (statusNotes m).

Definition withCoverBonus (m : Modifiers) (c : Q) : Modifiers :=
  mkModifiers (attackerAdvantage m) (attackerDisadvantage m) (defenderAdvantage m)
              (defenderDisadvantage m) c (heightBonus m)
              (flanking m) (backstab m) (statusNotes m).

Definition withFlanking (m : Modifiers) : Modifiers :=
  mkModifiers (attackerAdvantage m) (attackerDisadvantage m) (defenderAdvantage m)
              (defenderDisadvantage m) (coverBonus m) (heightBonus m)
              true (backstab m) (statusNotes m).

Definition withBackstab (m : Modifiers) : Modifiers :=
  mkModifiers (attackerAdvantage m) (attackerDisadvantage m) (defenderAdvantage m)
              (defenderDisadvantage m) (coverBonus m) (heightBonus m)
              (flanking m) true (statusNotes m).

Definition withNote (m : Modifiers) (n : StatusNote) : Modifiers :=
  mkModifiers (attackerAdvantage m) (attackerDisadvantage m) (defenderAdvantage m)
              (defenderDisadvantage m) (coverBonus m) (heightBonus m)
              (flanking m) (backstab m) (statusNotes m ++ [n]).

Definition terrainOf (s : CombatState) (u : Unit) : option TerrainTile :=
  getTerrainAt s (fst (position u)) (snd (position u)).

(** Chebyshev distance between two positions. *)
Definition calculateDistance (pos1 pos2 : Z * Z) : Z :=
  Z.max (Z.abs (fst pos1 - fst pos2)) (Z.abs (snd pos1 - snd pos2)).

Definition isRangedAttack (attacker defender : Unit) : bool :=
  if (calculateDistance (position attacker) (position defender) >? 1)%Z then true
  else Str.oneOf (unitClass attacker) ["ARCHER"; "MAGE"]%string.

Definition calculatePositionalModifiers (attacker defender : Unit)
    (s : CombatState) (m : Modifiers) : Modifiers :=
  match terrainOf s attacker, terrainOf s defender with
  | Some attackerTerrain, Some defenderTerrain =>
      let heightDiff := tileHeight attackerTerrain - tileHeight defenderTerrain in
      if Js.gtb heightDiff 0 then
        withHeightBonus (withAdvantage m) (heightDiff * RANGED_ATTACK_BONUS)
      else if Js.ltb heightDiff 0 then withDisadvantage m
      else m
  | _, _ => m
  end.

Definition calculateTerrainModifiers (attacker defender : Unit)
    (s : CombatState) (m : Modifiers) : Modifiers :=
  match terrainOf s defender with
  | Some defenderTerrain =>
      let m1 :=
        if providesCover defenderTerrain then
          let m0 := withCoverBonus m (coverValue defenderTerrain) in
          if Js.geb (coverValue defenderTerrain) 0.5 then withDisadvantage m0
          else m0
        else m in
      if (String.eqb (tileType defenderTerrain) "FOREST"
          && isRangedAttack attacker defender)%bool
      then withDisadvantage m1 else m1
  | None => m
  end.

Definition attackerStep (m : Modifiers) (effect : StatusEffect) : Modifiers :=
  let name := Str.toLowerCase (effectName effect) in
  let m1 :=
    if Str.oneOf name ["blessed"; "inspired"]%string then withAdvantage m
    else if Str.oneOf name ["cursed"; "weakened"; "blinded"]%string
    then withDisadvantage m
    else m in
  withNote m1 (mkNote "attacker" (effectName effect) (effectType effect)).

Definition defenderStep (m : Modifiers) (effect : StatusEffect) : Modifiers :=
  let name := Str.toLowerCase (effectName effect) in
  let m1 :=
    if Str.oneOf name ["marked"; "exposed"]%string then withAdvantage m
    else if Str.oneOf name ["dodging"; "shielded"]%string then withDisadvantage m
    else if Str.oneOf name ["stunned"; "paralyzed"]%string then withAdvantage m
    else m in
  withNote m1 (mkNote "defender" (effectName effect) (effectType effect)).

Definition calculateStatusModifiers (attacker defender : Unit) (m : Modifiers)
  : Modifiers :=
  fold_left defenderStep (statusEffects defender)
            (fold_left attackerStep (statusEffects attacker) m).

Definition facingAdjustment (defenderFacing : string) : Q :=
  if String.eqb defenderFacing "north" then 0
  else if String.eqb defenderFacing "east" then 90
  else if String.eqb defenderFacing "south" then 180
  else if String.eqb defenderFacing "west" then 270
  else 0.

(** ** The sources of advantage and disadvantage, read off the inputs *)

Definition grantsAdvantageToAttacker (effect : StatusEffect) : bool :=
  Str.oneOf (Str.toLowerCase (effectName effect)) ["blessed"; "inspired"]%string.

Definition hindersAttacker (effect : StatusEffect) : bool :=
  let name := Str.toLowerCase (effectName effect) in
  (negb (Str.oneOf name ["blessed"; "inspired"]%string)
   && Str.oneOf name ["cursed"; "weakened"; "blinded"]%string)%bool.

Definition exposesDefender (effect : StatusEffect) : bool :=
  let name := Str.toLowerCase (effectName effect) in
  (Str.oneOf name ["marked"; "exposed"]%string
   || (negb (Str.oneOf name ["dodging"; "shielded"]%string)
       && Str.oneOf name ["stunned"; "paralyzed"]%string))%bool.

Definition protectsDefender (effect : StatusEffect) : bool :=
  let name := Str.toLowerCase (effectName effect) in
  (negb (Str.oneOf name ["marked"; "exposed"]%string)
   && Str.oneOf name ["dodging"; "shielded"]%string)%bool.

Definition heightDifference (attacker defender : Unit) (s : CombatState)
  : option Q :=
  match terrainOf s attacker, terrainOf s defender with
  | Some a, Some d => Some (tileHeight a - tileHeight d)
  | _, _ => None
  end.

Definition disadvantageSource (attacker defender : Unit) (s : CombatState) : bool :=
  (match heightDifference attacker defender s with
   | Some d => negb (Js.gtb d 0) && Js.ltb d 0
   | None => false
   end
   || match terrainOf s defender with
      | Some t =>
          (providesCover t && Js.geb (coverValue t) 0.5)
          || (String.eqb (tileType t) "FOREST" && isRangedAttack attacker defender)
      | None => false
      end
   || existsb hindersAttacker (statusEffects attacker)
   || existsb protectsDefender (statusEffects defender))%bool.

Section Geometry.

(** [Math.atan2(dy, dx) * 180 / Math.PI], supplied by the platform. *)
Variable atan2Degrees : Z -> Z -> Q.

Definition calculateAttackAngle (attackerPos defenderPos : Z * Z)
    (defenderFacing : string) : Q :=
  let dx := (fst attackerPos - fst defenderPos)%Z in
  let dy := (snd attackerPos - snd defenderPos)%Z in
  let angle0 := atan2Degrees dy dx in
  let angle1 := if Js.ltb angle0 0 then angle0 + 360 else angle0 in
  rem (angle1 + facingAdjustment defenderFacing) 360.

Definition calculateFacingModifiers (attacker defender : Unit) (m : Modifiers)
  : Modifiers :=
  let angle := calculateAttackAngle (position attacker) (position defender)
                                    (facing defender) in
  let m1 := if (Js.geb angle 135 && Qle_bool angle 225)%bool
            then withAdvantage (withBackstab m) else m in
  if ((Js.geb angle 45 && Qle_bool angle 135)
      || (Js.geb angle 225 && Qle_bool angle 315))%bool
  then withFlanking m1 else m1.

(** SituationalModifiers.calculate *)
Definition calculate (attacker defender : Unit) (s : CombatState) : Modifiers :=
  let m1 := calculatePositionalModifiers attacker defender s noModifiers in
  let m2 := calculateTerrainModifiers attacker defender s m1 in
  let m3 := calculateStatusModifiers attacker defender m2 in
  calculateFacingModifiers attacker defender m3.

Inductive RollType : Type := Normal | Advantage | Disadvantage.

(** The roll type both [calculateHitChance] and [resolveAttack] derive from
    the two flags. *)
Definition rollTypeOf (situational : Modifiers) : RollType :=
  if (attackerAdvantage situational && negb (attackerDisadvantage situational))%bool
  then Advantage
  else if (attackerDisadvantage situational && negb (attackerAdvantage situational))%bool
  then Disadvantage
  else Normal.

Record HitProbabilities : Type := mkProbabilities {
  normal : Q;
  effective : Q;
  probRequiredRoll : Q
}.

Definition calculateHitProbabilities (attackBonus defenseValue : Q)
    (rollType : RollType) : HitProbabilities :=
  let requiredRoll := Qmax 1 (defenseValue - attackBonus) in
  let maxRoll := inject_Z D20.D20_MAX in
  let normalChance := Qmax 0 ((maxRoll - requiredRoll + 1) / maxRoll) in
  let effectiveChance :=
    match rollType with
    | Advantage =>
        let failChance := 1 - normalChance in
        1 - failChance * failChance
    | Disadvantage => normalChance * normalChance
    | Normal => normalChance
    end in
  {| normal := normalChance; effective := effectiveChance;
     probRequiredRoll := requiredRoll |}.

Record CriticalChances : Type := mkCritical {
  chance : Q;
  criticalNormalChance : Q;
  criticalMinThreat : Q
}.

Definition calculateCriticalChances (attackerData : D20.Attacker)
    (rollType : RollType) : CriticalChances :=
  let threatRange :=
    D20.calculateThreatRange (D20.attAbilities attackerData)
                             (D20.attVisibleStats attackerData)
                             (D20.attEquipment attackerData) in
  let critRolls := inject_Z D20.D20_MAX - D20.minThreat threatRange + 1 in
  let normalCritChance := critRolls / inject_Z D20.D20_MAX in
  let effectiveCritChance :=
    match rollType with
    | Advantage =>
        let nonCritChance := 1 - normalCritChance in
        1 - nonCritChance * nonCritChance
    | Disadvantage => normalCritChance * normalCritChance
    | Normal => normalCritChance
    end in
  {| chance := effectiveCritChance;
     criticalNormalChance := normalCritChance;
     criticalMinThreat := D20.minThreat threatRange |}.

(** The options bag of an attack. *)
Record AttackOptions : Type := mkAttackOptions {
  optIsRanged : bool;
  optIsSpell : bool;
  optPrimaryAbility : option D20.Ability
}.

Record HitChance : Type := mkHitChance {
  baseHitChance : Q;
  effectiveHitChance : Q;
  criticalChance : Q;
  rollType : RollType;
  hcAttackBonus : Q;
  hcDefenseValue : Q;
  requiredRoll : Q;
  situationalModifiers : Modifiers
}.

(** HitCalculator.calculateHitChance *)
Definition calculateHitChance (attacker defender : Unit) (s : CombatState)
    (options : AttackOptions) : HitChance :=
  let attackerData := getHiddenData attacker in
  let defenderData := getHiddenData defender in
  let situational := calculate attacker defender s in
  let rollType := rollTypeOf situational in
  let isRanged := (optIsRanged options || isRangedAttack attacker defender)%bool in
  let isSpell := (optIsSpell options
                  || String.eqb (unitClass attacker) "MAGE"
                  || String.eqb (unitClass attacker) "CLERIC")%bool in
  let '(attackBonus, defenseValue) :=
    if isSpell then
      (D20.calculateSpellAttack (D20.attAbilities attackerData)
         (D20.attLevel attackerData)
         (match optPrimaryAbility options with
          | Some a => a
          | None => D20.INT
          end)
         (D20.attEquipment attackerData),
       D20.calculateMagicalDV (D20.attAbilities defenderData)
         (D20.attEquipment defenderData)
         (D20.mkSituational 0 0 (coverBonus situational * 0.5) 0))
    else
      (D20.calculatePhysicalAttack (D20.attAbilities attackerData)
         (D20.attLevel attackerData) isRanged (D20.attEquipment attackerData),
       D20.calculatePhysicalDV (D20.attAbilities defenderData)
         (D20.attEquipment defenderData)
         (D20.mkSituational (coverBonus situational * 5)
                            (heightBonus situational * -2) 0 0)) in
  let hitChances := calculateHitProbabilities attackBonus defenseValue rollType in
  let criticalInfo := calculateCriticalChances attackerData rollType in
  {| baseHitChance := normal hitChances;
     effectiveHitChance := effective hitChances;
     criticalChance := chance criticalInfo;
     rollType := rollType;
     hcAttackBonus := attackBonus;
     hcDefenseValue := defenseValue;
     requiredRoll := Qmax 1 (defenseValue - attackBonus);
     situationalModifiers := situational |}.

(** An advantage source present in the inputs. *)
Definition advantageSource (attacker defender : Unit) (s : CombatState) : bool :=
  let angle := calculateAttackAngle (position attacker) (position defender)
                                    (facing defender) in
  (match heightDifference attacker defender s with
   | Some d => Js.gtb d 0
   | None => false
   end
   || existsb grantsAdvantageToAttacker (statusEffects attacker)
   || existsb exposesDefender (statusEffects defender)
   || (Js.geb angle 135 && Qle_bool angle 225))%bool.

End Geometry.

(** [Math.atan2(dy, dx) * 180 / Math.PI] on the eight compass directions
    (the directions the sample scenarios use); zero elsewhere. *)
Definition compassAtan2 (dy dx : Z) : Q :=
  match (dy ?= 0)%Z, (dx ?= 0)%Z with
  | Eq, Gt => 0
  | Gt, Eq => 90
  | Eq, Lt => 180
  | Lt, Eq => -90
  | Gt, Gt => if (dy =? dx)%Z then 45 else 0
  | Gt, Lt => if (dy =? - dx)%Z then 135 else 0
  | Lt, Lt => if (dy =? dx)%Z then -135 else 0
  | Lt, Gt => if (dy =? - dx)%Z then -45 else 0
  | Eq, Eq => 0
  end.

(** Two matches on an 18 x 18 board: the defender at (0, 0) stands on ruins
    with cover value 0.6, once intact and once destroyed. *)
Definition ruins : TerrainTile :=
  newTerrainTile 0 0 "RUINS" 0 (Cost 2) 0.05 0.6 false false None.

Definition rubble : TerrainTile :=
  newTerrainTile 0 0 "RUINS" 0 (Cost 2) 0.05 0.6 false true None.

Definition board (tile : TerrainTile) : CombatState :=
  {| phase := "COMBAT"; turn := 1; mapWidth := 18; mapHeight := 18;
     units := ∅; deployedUnits := ∅; incapacitatedUnits := ∅;
     terrain := {[ (0, 0)%Z := tile ]}; unitPositions := ∅ |}.

Definition attackerEast : Unit := Sample.recruitAt "att" (1, 0)%Z.
Definition defenderAtOrigin : Unit := Sample.recruit "def".
End Hit.

(* ===================================================================== *)
(** * core/DeterministicRNG.js: dice, checks, choices and shuffles *)
(* ===================================================================== *)

Module Dice.
Import Rng.
Local Open Scope Z_scope.

(** The loop [for (i < count) total += this.randInt(1, sides)]. *)
Fixpoint rollLoop (n : nat) (sides total : Z) (r : DeterministicRNG)
  : option (Z * DeterministicRNG) :=
  match n with
  | O => Some (total, r)
  | S k =>
      '(v, r1) ← randInt 1 sides r;
      rollLoop k sides (total + v) r1
  end.

(** [roll(count, sides)] on integer arguments; [None] stands for the
    thrown parameter error. *)
Definition roll (count sides : Z) (r : DeterministicRNG)
  : option (Z * DeterministicRNG) :=
  if ((count <? 1) || (sides <? 1))%bool then None
  else rollLoop (Z.to_nat count) sides 0 r.

Definition rollWithAdvantage (r : DeterministicRNG)
  : option (D20.AttackRoll * DeterministicRNG) :=
  '(roll1, r1) ← rollD20 r;
  '(roll2, r2) ← rollD20 r1;
  Some (D20.mkRoll (Z.max roll1 roll2) [roll1; roll2] true false, r2).

Definition rollWithDisadvantage (r : DeterministicRNG)
  : option (D20.AttackRoll * DeterministicRNG) :=
  '(roll1, r1) ← rollD20 r;
  '(roll2, r2) ← rollD20 r1;
  Some (D20.mkRoll (Z.min roll1 roll2) [roll1; roll2] false true, r2).

(** [rollD20WithCondition(type)]: any type other than ['advantage'] and
    ['disadvantage'] is a normal roll. *)
Definition rollD20WithCondition (type : string) (r : DeterministicRNG)
  : option (D20.AttackRoll * DeterministicRNG) :=
  if String.eqb type "advantage" then rollWithAdvantage r
  else if String.eqb type "disadvantage" then rollWithDisadvantage r
  else
    '(result, r1) ← rollD20 r;
    Some (D20.mkRoll result [result] false false, r1).

(** [percentileCheck(targetPercent)]; [None] stands for the thrown error. *)
Definition percentileCheck (targetPercent : Q) (r : DeterministicRNG)
  : option (bool * DeterministicRNG) :=
  if (Js.ltb targetPercent 0 || Js.gtb targetPercent 100)%bool then None
  else
    let '(v, r1) := random r in
    Some (Js.ltb (v * 100)%Q targetPercent, r1).

(** [choice(array)]; [None] stands for the thrown error. *)
Definition choice {A : Type} (array : list A) (r : DeterministicRNG)
  : option (A * DeterministicRNG) :=
  match array with
  | [] => None
  | _ :: _ =>
      '(index, r1) ← randInt 0 (Z.of_nat (length array) - 1) r;
      x ← array !! Z.to_nat index;
      Some (x, r1)
  end.

(** [[array[i], array[j]] = [array[j], array[i]]] *)
Definition swap {A : Type} (array : list A) (i j : nat) : list A :=
  match array !! i, array !! j with
  | Some ai, Some aj => <[j := ai]> (<[i := aj]> array)
  | _, _ => array
  end.

(** The loop [for (i = length - 1; i > 0; i--)] of [shuffle]. *)
Fixpoint shuffleLoop {A : Type} (i : nat) (array : list A) (r : DeterministicRNG)
  : option (list A * DeterministicRNG) :=
  match i with
  | O => Some (array, r)
  | S k =>
      '(j, r1) ← randInt 0 (Z.of_nat i) r;
      shuffleLoop k (swap array i (Z.to_nat j)) r1
  end.

(** [shuffle(array)]: Fisher-Yates from the last index down. *)
Definition shuffle {A : Type} (array : list A) (r : DeterministicRNG)
  : option (list A * DeterministicRNG) :=
  shuffleLoop (length array - 1) array r.

(** ** Derived seeds *)

Definition two31 : Z := 2147483648.

(** The value of a number after a bitwise operator: wrapped into the signed
    32-bit range. *)
Definition toInt32 (z : Z) : Z := (z + two31) mod two32 - two31.

(** [charCodeAt] over the characters of a string. *)
Fixpoint charCodes (s : string) : list Z :=
  match s with
  | EmptyString => []
  | String c rest => Z.of_nat (nat_of_ascii c) :: charCodes rest
  end.

(** One round of the string hash:
    [hash = ((hash << 5) - hash) + char; hash = hash & hash]. *)
Definition hashStep (hash char : Z) : Z :=
  toInt32 (toInt32 (hash * 32) - hash + char).

Definition hashCodes (codes : list Z) : Z := fold_left hashStep codes 0.

Definition hashString (s : string) : Z := hashCodes (charCodes s).

(** [Math.abs(x + h)] for a seed value [x] and an integer [h]. *)
Definition absPlus (x : JsNumber) (h : Z) : JsNumber :=
  match x with
  | Finite q => Finite (Qabs (q + inject_Z h))
  | NaN => NaN
  | PosInfinity | NegInfinity => PosInfinity
  end.

(** [deriveSeed(purpose)] *)
Definition deriveSeed (r : DeterministicRNG) (purpose : string) : JsNumber :=
  absPlus (originalSeed r) (hashString purpose).

(** [createSubsystemRNG(system)] *)
Definition createSubsystemRNG (r : DeterministicRNG) (system : string)
  : DeterministicRNG :=
  create (deriveSeed r system).

(** [fork(newSeed)] and the factory functions. *)
Definition fork (_ : DeterministicRNG) (newSeed : JsNumber) : DeterministicRNG :=
  create newSeed.

Definition createRNG (seed : JsNumber) : DeterministicRNG := create seed.

Definition createStringRNG (seedString : string) : DeterministicRNG :=
  create (Finite (inject_Z (Z.abs (hashString seedString)))).

(** The polynomial [c0 * 31^(n-1) + ... + c(n-1)] over the character codes. *)
Definition polynomial (codes : list Z) : Z :=
  fold_left (fun h c => 31 * h + c) codes 0.
End Dice.

(* ===================================================================== *)
(** * hidden/D20Engine.js: ability management and saving throws *)
(* ===================================================================== *)

Module Saves.
Import D20.
Local Open Scope Q_scope.

(** The score property selected by [this[ability.toUpperCase()]]. *)
Definition abilityNamed (name : string) : option Ability :=
  let upper := Str.toUpperCase name in
  if String.eqb upper "STR" then Some STR
  else if String.eqb upper "DEX" then Some DEX
  else if String.eqb upper "CON" then Some CON
  else if String.eqb upper "INT" then Some INT
  else if String.eqb upper "WIS" then Some WIS
  else if String.eqb upper "CHA" then Some CHA
  else None.

(** [getModifier(ability)] on a name; [None] stands for the thrown error. *)
Definition getModifierNamed (a : AbilityScores) (name : string) : option Q :=
  ability ← abilityNamed name;
  Some (getModifier a ability).

Definition withScore (a : AbilityScores) (ability : Ability) (v : Q)
  : AbilityScores :=
  match ability with
  | STR => mkAbilities v (scoreDEX a) (scoreCON a) (scoreINT a) (scoreWIS a) (scoreCHA a)
  | DEX => mkAbilities (scoreSTR a) v (scoreCON a) (scoreINT a) (scoreWIS a) (scoreCHA a)
  | CON => mkAbilities (scoreSTR a) (scoreDEX a) v (scoreINT a) (scoreWIS a) (scoreCHA a)
  | INT => mkAbilities (scoreSTR a) (scoreDEX a) (scoreCON a) v (scoreWIS a) (scoreCHA a)
  | WIS => mkAbilities (scoreSTR a) (scoreDEX a) (scoreCON a) (scoreINT a) v (scoreCHA a)
  | CHA => mkAbilities (scoreSTR a) (scoreDEX a) (scoreCON a) (scoreINT a) (scoreWIS a) v
  end.

(** [setAbility(ability, score)]; [None] stands for the thrown error. *)
Definition setAbility (a : AbilityScores) (name : string) (v : Q)
  : option AbilityScores :=
  ability ← abilityNamed name;
  Some (withScore a ability (validateAbilityScore v)).

(** [getModifiedScore(ability, modifier)]; an unknown name yields no
    number. *)
Definition getModifiedScore (a : AbilityScores) (name : string) (modifier : Q)
  : option Q :=
  ability ← abilityNamed name;
  Some (validateAbilityScore (score a ability + modifier)).

(** [toObject()] and [clone()] *)
Definition toObject (a : AbilityScores) : AbilityScores := a.

Definition clone (a : AbilityScores) : AbilityScores :=
  newAbilityScores (toObject a).

(** ** SaveSystem *)






Definition calculateSaveDC (abilities : AbilityScores) (level : Q)
    (primaryAbility : Ability) : Q :=
  let proficiency := calculateProficiency level in
  let abilityMod := getModifier abilities primaryAbility in
  BASE_SAVE_DC + proficiency + abilityMod.

(** [equipment.criticalMultiplier || COMBAT.CRITICAL.DAMAGE_MULTIPLIER] *)
Definition getCriticalMultiplier (equipment : Obj.t) : Q :=
  Obj.propOr equipment "criticalMultiplier" 2.



End Saves.

(* ===================================================================== *)
(** * The unit data model: healing, equipment wear and status effect upkeep *)
(* ===================================================================== *)

Module Life.
Import Units.
Local Open Scope Q_scope.

Record Healing : Type := mkHealing {
  healing : Q;
  actualHealing : Q;
  overheal : Q;
  healedHP : option Q
}.

(** Unit.heal(amount) *)
Definition heal (u : Unit) (amount : Q) : Healing * Unit :=
  if (isIncapacitated u && Qle_bool amount 0)%bool then
    ({| healing := 0; actualHealing := 0; overheal := 0; healedHP := None |}, u)
  else
    let maxHP := Visible.sHP (getCurrentStats u) in
    let actualHealing := Qmin amount (maxHP - currentHP u) in
    let overheal := amount - actualHealing in
    let hp := Qmin maxHP (currentHP u + actualHealing) in
    let u' := setHP u hp (if Js.gtb hp 0 then false else isIncapacitated u)
                    (currentAP u) in
    ({| healing := amount; actualHealing := actualHealing;
        overheal := overheal; healedHP := Some hp |}, u').

(** Equipment.reduceDurability(amount) *)
Definition reduceDurability (item : Equipment) (amount : Q) : Equipment :=
  {| itemId := itemId item; itemName := itemName item;
     itemType := itemType item;
     durability := Qmax 0 (durability item - amount);
     statModifiers := statModifiers item;
     abilityModifiers := abilityModifiers item;
     specialEffects := specialEffects item |}.

(** [map.get(itemId)] and [map.delete(itemId)] on the equipment map. *)
Fixpoint findItem (items : list Equipment) (id : string) : option Equipment :=
  match items with
  | [] => None
  | item :: rest => if String.eqb (itemId item) id then Some item else findItem rest id
  end.

Fixpoint deleteItem (items : list Equipment) (id : string) : list Equipment :=
  match items with
  | [] => []
  | item :: rest =>
      if String.eqb (itemId item) id then rest else item :: deleteItem rest id
  end.

(** Unit.unequipItem(itemId) *)
Definition unequipItem (u : Unit) (id : string) : option Equipment * Unit :=
  match findItem (equipment u) id with
  | Some item =>
      let u1 := withEquipment u (deleteItem (equipment u) id) (baseStats u) in
      (Some item, withEquipment u1 (equipment u1) (deriveVisibleStats u1))
  | None => (None, u)
  end.

(** A call of one of the unit's own state-changing methods, and the effect
    of a sequence of such calls. *)
Inductive Call : Type :=
| TakeDamage (amount : Q) (type : string)
| Heal (amount : Q)
| SpendAP (cost : Q)
| RestoreAP.

Definition perform (u : Unit) (call : Call) : Unit :=
  match call with
  | TakeDamage amount type => snd (takeDamage u amount type)
  | Heal amount => snd (heal u amount)
  | SpendAP cost => snd (spendAP u cost)
  | RestoreAP => restoreAP u
  end.

Definition performAll (u : Unit) (calls : list Call) : Unit :=
  fold_left perform calls u.

(** Healing amounts and AP costs that are not negative. *)
Definition sensible (call : Call) : Prop :=
  match call with
  | Heal amount => 0 <= amount
  | SpendAP cost => 0 <= cost
  | _ => True
  end.

(** The bookkeeping a unit keeps between its hit points, its action points
    and its incapacitation flag. *)
Definition consistent (u : Unit) : Prop :=
  0 <= currentHP u /\
  currentHP u <= Visible.sHP (getCurrentStats u) /\
  (isIncapacitated u = true <-> currentHP u <= 0) /\
  0 <= currentAP u /\ currentAP u <= MAX_PER_TURN /\
  (isIncapacitated u = true -> currentAP u == 0).
End Life.

Module Status.
Import Units.
Local Open Scope Q_scope.

(** A status effect with the fields that govern stacking and upkeep. *)
Record Tracked : Type := mkTracked {
  effect : StatusEffect;
  maxStacks : Q;
  stackType : string;
  triggersOn : string
}.

Definition withDuration (e : StatusEffect) (d : Q) : StatusEffect :=
  mkStatus (effectName e) (effectType e) d (intensity e) (effects e).

Definition withIntensity (e : StatusEffect) (i : Q) : StatusEffect :=
  mkStatus (effectName e) (effectType e) (duration e) i (effects e).

(** StatusEffect.advance *)
Definition advance (t : Tracked) : Tracked :=
  mkTracked (withDuration (effect t) (Qmax 0 (duration (effect t) - 1)))
            (maxStacks t) (stackType t) (triggersOn t).

(** StatusEffect.clone: a new effect built from this one's fields, with the
    constructor's defaults for falsy entries. *)
Definition clone (t : Tracked) : Tracked :=
  let e := effect t in
  mkTracked
    (mkStatus (effectName e) (effectType e)
              (Js.orElse (duration e) 1) (Js.orElse (intensity e) 1) (effects e))
    (Js.orElse (maxStacks t) 1)
    (orString (stackType t) "none")
    (orString (triggersOn t) "start_turn").

(** [incoming.stackWith(existing)]: the verdict and the existing effect
    after the call. *)
Definition stackWith (incoming existing : Tracked) : bool * Tracked :=
  if negb (String.eqb (effectName (effect existing)) (effectName (effect incoming)))
  then (false, existing)
  else if String.eqb (stackType incoming) "extend" then
    (true,
     mkTracked (withDuration (effect existing)
                  (Qmax (duration (effect existing)) (duration (effect incoming))))
               (maxStacks existing) (stackType existing) (triggersOn existing))
  else if String.eqb (stackType incoming) "intensity" then
    if Js.ltb (intensity (effect existing)) (maxStacks existing) then
      (true,
       mkTracked (withIntensity (effect existing)
                    (Qmin (maxStacks existing)
                          (intensity (effect existing) + intensity (effect incoming))))
                 (maxStacks existing) (stackType existing) (triggersOn existing))
    else (false, existing)
  else (false, existing).

(** [statusEffects.findIndex(e => e.name === name)] together with the
    entry found there. *)
Fixpoint findExisting (l : list Tracked) (name : string) : option (nat * Tracked) :=
  match l with
  | [] => None
  | t :: rest =>
      if String.eqb (effectName (effect t)) name then Some (O, t)
      else (fun '(i, found) => (S i, found)) <$> findExisting rest name
  end.

Definition LIMIT : nat := 20.

(** The names of the active effects, in order. *)
Definition names (l : list Tracked) : list string :=
  map (fun t => effectName (effect t)) l.

(** Unit.applyStatusEffect, on the unit's [statusEffects] array. *)
Definition applyStatusEffect (l : list Tracked) (incoming : Tracked)
  : bool * list Tracked :=
  match findExisting l (effectName (effect incoming)) with
  | Some (existingIndex, existing) =>
      let '(stacked, existing') := stackWith incoming existing in
      if stacked then (true, <[existingIndex := existing']> l)
      else (true, <[existingIndex := clone incoming]> l)
  | None =>
      if Nat.ltb (length l) LIMIT then (true, l ++ [clone incoming])
      else (false, l)
  end.

Record Processed : Type := mkProcessed {
  processedName : string;
  processedType : string;
  processedModifiers : list (Visible.StatName * Q);
  processedIntensity : Q
}.

(** The first loop of [processStatusEffects]: report and advance the effects
    that trigger on [phase]. *)
Fixpoint trigger (l : list Tracked) (phase : string)
  : list Processed * list Tracked :=
  match l with
  | [] => ([], [])
  | t :: rest =>
      let '(results, rest') := trigger rest phase in
      if String.eqb (triggersOn t) phase then
        (mkProcessed (effectName (effect t)) (effectType (effect t))
                     (getModifiers (effect t)) (intensity (effect t)) :: results,
         advance t :: rest')
      else (results, t :: rest')
  end.

(** What the first loop does to a single effect. *)
Definition upkeep (phase : string) (t : Tracked) : Tracked :=
  if String.eqb (triggersOn t) phase then advance t else t.

(** Unit.processStatusEffects(phase), on the unit's [statusEffects] array. *)
Definition processStatusEffects (l : list Tracked) (phase : string)
  : list Processed * list Tracked :=
  let '(results, advanced) := trigger l phase in
  (results, List.filter (fun t => negb (hasExpired (effect t))) advanced).
End Status.

(* ===================================================================== *)
(** * Combat state management: removal, terrain edits and validation *)
(* ===================================================================== *)

Module Field.
Import Units Match Initiative.
Local Open Scope Z_scope.

(** CombatState.setTerrainAt *)
Definition setTerrainAt (s : CombatState) (tile : TerrainTile) : CombatState :=
  {| phase := phase s; turn := turn s;
     mapWidth := mapWidth s; mapHeight := mapHeight s;
     units := units s;
     deployedUnits := deployedUnits s;
     incapacitatedUnits := incapacitatedUnits s;
     terrain := <[(tileX tile, tileY tile) := tile]> (terrain s);
     unitPositions := unitPositions s |}.

(** CombatState.removeUnit.  The state's initiative order, which the method
    filters, is passed along with the state. *)
Definition removeUnit (s : CombatState) (order : list InitiativeEntry)
    (unitId : string) : option Unit * (CombatState * list InitiativeEntry) :=
  match units s !! unitId with
  | None => (None, (s, order))
  | Some unit =>
      (Some unit,
       ({| phase := phase s; turn := turn s;
           mapWidth := mapWidth s; mapHeight := mapHeight s;
           units := delete unitId (units s);
           deployedUnits := deployedUnits s ∖ {[unitId]};
           incapacitatedUnits := incapacitatedUnits s ∖ {[unitId]};
           terrain := terrain s;
           unitPositions :=
             match unitPositions s !! position unit with
             | Some holder =>
                 if String.eqb holder unitId
                 then delete (position unit) (unitPositions s)
                 else unitPositions s
             | None => unitPositions s
             end |},
        List.filter (fun entry => negb (String.eqb (entryUnitId entry) unitId)) order))
  end.

Definition PHASES : list string :=
  ["DEPLOYMENT"; "COMBAT"; "RESOLUTION"; "COMPLETED"]%string.

(** The check made for one entry [[posKey, unitId]] of the position index. *)
Definition positionRecorded (s : CombatState) (entry : (Z * Z) * string) : bool :=
  match getUnit s (snd entry) with
  | Some unit =>
      (fst (position unit) =? fst (fst entry)) && (snd (position unit) =? snd (fst entry))
  | None => false
  end.

Definition entryKnown (s : CombatState) (entry : InitiativeEntry) : bool :=
  match getUnit s (entryUnitId entry) with
  | Some _ => true
  | None => false
  end.

(** CombatState.validateState *)
Definition validateState (s : CombatState) (order : list InitiativeEntry) : bool :=
  if Nat.eqb (size (units s)) 0 then false
  else if turn s <? 1 then false
  else if negb (Str.oneOf (phase s) PHASES) then false
  else if negb (forallb (positionRecorded s) (map_to_list (unitPositions s))) then false
  else if negb (forallb (entryKnown s) order) then false
  else true.
End Field.

(* ===================================================================== *)
(** * systems/InitiativeSystem.js: walking and maintaining the order *)
(* ===================================================================== *)

Module Turns.
Import Units Initiative.
Local Open Scope Q_scope.

(** [!entry.hasActed && !entry.isIncapacitated] *)
Definition eligible (entry : InitiativeEntry) : bool :=
  (negb (hasActed entry) && negb (entryIncapacitated entry))%bool.

Record NextActive : Type := mkNext {
  nextEntry : option InitiativeEntry;
  nextIndex : Z;
  endOfRound : bool
}.

(** [initiativeOrder[index]] for an integer index. *)
Definition entryAt (order : list InitiativeEntry) (index : Z)
  : option InitiativeEntry :=
  if (index <? 0)%Z then None else order !! Z.to_nat index.

(** The [while (attempts < length)] loop; [remaining] counts the attempts
    that are left. *)
Fixpoint search (order : list InitiativeEntry) (remaining : nat) (index : Z)
  : NextActive :=
  match remaining with
  | O => mkNext None (-1) true
  | S k =>
      let found :=
        match entryAt order index with
        | Some entry => if eligible entry then Some entry else None
        | None => None
        end in
      match found with
      | Some entry => mkNext (Some entry) index false
      | None =>
          let index' := Z.rem (index + 1) (Z.of_nat (length order)) in
          if (index' =? 0)%Z then mkNext None 0 true
          else search order k index'
      end
  end.

(** getNextActiveUnit(initiativeOrder, currentIndex) *)
Definition getNextActiveUnit (order : list InitiativeEntry) (currentIndex : Z)
  : NextActive :=
  match order with
  | [] => mkNext None (-1) true
  | _ :: _ => search order (length order) currentIndex
  end.

(** The insertion test of [addUnitToInitiative]: the new entry has the
    higher total, or the same total and the higher tiebreaker. *)
Definition beats (entry other : InitiativeEntry) : bool :=
  (Js.gtb (totalInitiative entry) (totalInitiative other)
   || (Qeq_bool (totalInitiative entry) (totalInitiative other)
       && Js.gtb (tiebreaker entry) (tiebreaker other)))%bool.

Fixpoint insertIndex (entry : InitiativeEntry) (order : list InitiativeEntry) : nat :=
  match order with
  | [] => O
  | other :: rest => if beats entry other then O else S (insertIndex entry rest)
  end.

(** addUnitToInitiative(initiativeOrder, unit, rng, { playerId, bonuses }) *)
Definition addUnitToInitiative (order : list InitiativeEntry) (unit : Unit)
    (rng : Rng.DeterministicRNG) (player : string) (bonuses : list Modifier)
  : option (list InitiativeEntry * Rng.DeterministicRNG) :=
  '(entry, rng') ← calculateUnitInitiative unit rng player bonuses;
  let index := insertIndex entry order in
  Some (assignTurnIndices (take index order ++ entry :: drop index order) 0, rng').

(** [initiativeOrder.findIndex(entry => entry.unitId === unitId)] *)
Fixpoint findIndex (order : list InitiativeEntry) (unitId : string) : option nat :=
  match order with
  | [] => None
  | entry :: rest =>
      if String.eqb (entryUnitId entry) unitId then Some O
      else S <$> findIndex rest unitId
  end.

Record Removal : Type := mkRemoval {
  remainingOrder : list InitiativeEntry;
  removedIndex : Z;
  currentIndexAdjustment : Z
}.

(** removeUnitFromInitiative(initiativeOrder, unitId) *)
Definition removeUnitFromInitiative (order : list InitiativeEntry)
    (unitId : string) : Removal :=
  match findIndex order unitId with
  | None => mkRemoval order (-1) 0
  | Some index =>
      mkRemoval (assignTurnIndices (take index order ++ drop (S index) order) 0)
                (Z.of_nat index)
                (if (Z.of_nat index <? Z.of_nat (length order))%Z then -1 else 0)%Z
  end.

(** The adjacency test of [validateInitiativeOrder]: [next] should have
    come before [current]. *)
Definition outranked (current next : InitiativeEntry) : bool :=
  (Js.ltb (totalInitiative current) (totalInitiative next)
   || (Qeq_bool (totalInitiative current) (totalInitiative next)
       && Js.ltb (tiebreaker current) (tiebreaker next)))%bool.

Fixpoint noDuplicateIds (order : list InitiativeEntry) (seen : list string) : bool :=
  match order with
  | [] => true
  | entry :: rest =>
      if Str.oneOf (entryUnitId entry) seen then false
      else noDuplicateIds rest (entryUnitId entry :: seen)
  end.

Fixpoint indicesSequential (order : list InitiativeEntry) (i : Z) : bool :=
  match order with
  | [] => true
  | entry :: rest =>
      if negb (turnIndex entry =? i)%Z then false
      else indicesSequential rest (i + 1)%Z
  end.

Fixpoint properlySorted (order : list InitiativeEntry) : bool :=
  match order with
  | current :: (next :: _) as rest =>
      if outranked current next then false else properlySorted rest
  | _ => true
  end.

(** validateInitiativeOrder(initiativeOrder) *)
Definition validateInitiativeOrder (order : list InitiativeEntry) : bool :=
  if negb (noDuplicateIds order []) then false
  else if negb (indicesSequential order 0) then false
  else if negb (properlySorted order) then false
  else true.

(** InitiativeEntry.clone: a new entry from this one's fields, with the
    constructor's default for a missing name. *)
Definition clone (e : InitiativeEntry) : InitiativeEntry :=
  {| entryUnitId := entryUnitId e;
     entryUnitName := orString (entryUnitName e) "Unknown";
     playerId := playerId e; baseInitiative := baseInitiative e;
     initiativeRoll := initiativeRoll e; totalInitiative := totalInitiative e;
     tiebreaker := tiebreaker e; modifiers := modifiers e;
     hasActed := hasActed e; entryIncapacitated := entryIncapacitated e;
     turnIndex := turnIndex e |}.

Section Resorting.

Variable localeCompare : string -> string -> comparison.

(** resortInitiativeOrder(initiativeOrder) *)
Definition resortInitiativeOrder (order : list InitiativeEntry)
  : list InitiativeEntry :=
  assignTurnIndices (sortEntries localeCompare order) 0.


End Resorting.

(** [current] is placed no later than [next] deserves: a higher total, or
    the same total and a tiebreaker at least as high. *)
Definition ranksAtLeast (current next : InitiativeEntry) : Prop :=
  totalInitiative next < totalInitiative current \/
  (totalInitiative current == totalInitiative next /\
   tiebreaker next <= tiebreaker current).

(** An order the validator accepts: distinct unit ids, turn indices that
    count up from zero, and every entry ranked at least as high as all the
    entries after it. *)
Definition wellOrdered (order : list InitiativeEntry) : Prop :=
  List.NoDup (map entryUnitId order) /\
  (forall i e, order !! i = Some e -> turnIndex e = Z.of_nat i) /\
  StronglySorted ranksAtLeast order.
End Turns.

(* ===================================================================== *)
(** * systems/DamageCalculator.js: resolving an attack (HitCalculator) *)
(* ===================================================================== *)

Module Attack.
Import Units Match Hit.
Local Open Scope Q_scope.

(** The roll type as the string handed to [rollD20WithCondition]. *)
Definition rollTypeName (t : RollType) : string :=
  match t with
  | Advantage => "advantage"
  | Disadvantage => "disadvantage"
  | Normal => "normal"
  end.

(** The resolution with the context [resolveAttack] adds to it. *)
Record AttackOutcome : Type := mkOutcome {
  resolution : D20.AttackResolution;
  outcomeModifiers : Modifiers;
  outcomeRollType : RollType;
  attackType : string;
  distance : Z
}.

(** The options bag of [resolveAttack]; a primary ability that is not given
    is the empty string. *)
Record ResolveOptions : Type := mkResolveOptions {
  isRanged : bool;
  isSpell : bool;
  primaryAbility : string
}.

(** [options.primaryAbility || 'INT'] *)
Definition primaryAbilityName (options : ResolveOptions) : string :=
  orString (primaryAbility options) "INT".


Section Geometry.

Variable atan2Degrees : Z -> Z -> Q.

(** HitCalculator.resolveAttack.  The generator is returned as the call
    leaves it; [None] stands for a thrown error: on the spell path
    [AbilityScores.getModifier] throws for a primary ability that is not
    one of the six, after the roll has been drawn. *)
Definition resolveAttack (attacker defender : Unit) (s : CombatState)
    (rng : Rng.DeterministicRNG) (options : ResolveOptions)
  : option AttackOutcome * Rng.DeterministicRNG :=
  let attackerData := getHiddenData attacker in
  let defenderData := getHiddenData defender in
  let situational := calculate atan2Degrees attacker defender s in
  let rollType := rollTypeOf situational in
  match Dice.rollD20WithCondition (rollTypeName rollType) rng with
  | None => (None, rng)
  | Some (attackRoll, rng') =>
      let spell := (isSpell options
                    || String.eqb (unitClass attacker) "MAGE"
                    || String.eqb (unitClass attacker) "CLERIC")%bool in
      let result :=
        if spell then
          ability ← Saves.abilityNamed (primaryAbilityName options);
          Some (D20.resolveSpellAttack
                  attackerData
                  (D20.mkDefender (D20.attAbilities defenderData)
                     (D20.attEquipment defenderData)
                     (D20.mkSituational 0 0 (coverBonus situational * 0.5) 0))
                  attackRoll ability)
        else
          Some (D20.resolvePhysicalAttack
                  attackerData
                  (D20.mkDefender (D20.attAbilities defenderData)
                     (D20.attEquipment defenderData)
                     (D20.mkSituational (coverBonus situational * 5)
                                        (heightBonus situational * -2) 0 0))
                  attackRoll
                  (isRanged options || isRangedAttack attacker defender)%bool) in
      (result' ← result;
       Some {| resolution := result';
               outcomeModifiers := situational;
               outcomeRollType := rollType;
               attackType := if spell then "spell" else "physical";
               distance := calculateDistance (position attacker)
                                             (position defender) |},
       rng')
  end.

End Geometry.

(** The twenty faces of the d20. *)
Definition d20Faces : list Z := map Z.of_nat (seq 1 20).

(** The faces with which an attack of bonus [attackBonus] reaches
    [defenseValue]: the hit test of the engine's resolution. *)
Definition hittingFaces (attackBonus defenseValue : Q) : list Z :=
  List.filter (fun face => Js.geb (inject_Z face + attackBonus) defenseValue)
              d20Faces.
End Attack.

(* ===================================================================== *)
(** * Properties *)
(* ===================================================================== *)

Module JsFacts.
Import Js.
Local Open Scope Q_scope.

Lemma orElse_zero (x : Q) : orElse x 0 == x.
Proof.
  unfold orElse. destruct (Qeq_bool x 0) eqn:E; [|reflexivity].
  apply Qeq_bool_iff in E. symmetry. exact E.
Qed.

Lemma geb_true (a b : Q) : geb a b = true <-> b <= a.
Proof. unfold geb. apply Qle_bool_iff. Qed.

Lemma gtb_true (a b : Q) : gtb a b = true <-> b < a.
Proof.
  unfold gtb. rewrite negb_true_iff.
  destruct (Qle_bool a b) eqn:E.
  - apply Qle_bool_iff in E. split; [discriminate | intros H; lra].
  - split; [intros _ | reflexivity].
    apply Qnot_le_lt. intros H. apply Qle_bool_iff in H. congruence.
Qed.

Lemma ltb_true (a b : Q) : ltb a b = true <-> a < b.
Proof. apply (gtb_true b a). Qed.

Lemma max_ge_l (a b : Q) : a <= Qmax a b.
Proof. apply Q.le_max_l. Qed.

Lemma max_ge_r (a b : Q) : b <= Qmax a b.
Proof. apply Q.le_max_r. Qed.

Lemma floor_le (x : Q) : floor x <= x.
Proof. apply Qfloor_le. Qed.

Lemma floor_int (z : Z) : Qfloor (inject_Z z) = z.
Proof. apply Qfloor_Z. Qed.
End JsFacts.

Module RngFacts.
Import Rng.
Local Open Scope Z_scope.

Lemma toUint32_range (z : Z) : 0 <= toUint32 z < two32.
Proof. unfold toUint32, two32. apply Z.mod_pos_bound. lia. Qed.

Lemma normalizeSeed_range (seed : JsNumber) : 0 <= normalizeSeed seed < two32.
Proof.
  destruct seed; simpl; try (unfold two32; lia). apply toUint32_range.
Qed.

(** On a 32-bit state the multiply-add stays below 2^53, so the double
    arithmetic of the source is the exact integer arithmetic used here. *)
Lemma nextRaw_no_rounding (s : Z) :
  0 <= s < two32 -> 0 <= 1664525 * s + 1013904223 < 2 ^ 53.
Proof. unfold two32. intros H. split; [lia|]. change (2 ^ 53) with 9007199254740992. lia. Qed.

Lemma nthRaw_range (s : Z) (k : nat) : 0 <= s < two32 -> 0 <= nthRaw s k < two32.
Proof.
  intros Hs. destruct k as [|k]; [exact Hs|].
  unfold nthRaw. simpl. apply toUint32_range.
Qed.

Lemma nthRaw_shift (s : Z) (k : nat) : nthRaw (lcg s) k = nthRaw s (S k).
Proof.
  unfold nthRaw. induction k as [|k IH]; [reflexivity|].
  simpl in *. now rewrite IH.
Qed.

Lemma reset_same_seed (seed : JsNumber) (st cc : Z) :
  reset (mkRNG seed st cc) = create seed.
Proof. reflexivity. Qed.

Lemma randoms_closed_form (n : nat) :
  forall r,
    fst (randoms n r) =
    map (fun k => (inject_Z (nthRaw (state r) (S k)) / inject_Z two32)%Q) (seq 0 n).
Proof.
  induction n as [|n IH]; intros r; [reflexivity|].
  cbn [randoms]. unfold random, nextRaw.
  destruct (randoms n _) as [vs r2] eqn:E.
  cbn [fst]. pose proof (IH {| originalSeed := originalSeed r;
                             state := toUint32 (1664525 * state r + 1013904223);
                             callCount := callCount r + 1 |}) as H.
  rewrite E in H. cbn [fst state] in H. rewrite H.
  cbn [seq map]. f_equal.
  rewrite <- seq_shift, map_map.
  apply map_ext. intros k. fold (lcg (state r)). now rewrite nthRaw_shift.
Qed.

Lemma randoms_state (n : nat) :
  forall r, snd (randoms n r) =
            {| originalSeed := originalSeed r;
               state := nthRaw (state r) n;
               callCount := callCount r + Z.of_nat n |}.
Proof.
  induction n as [|n IH]; intros r.
  - destruct r; cbn. f_equal. lia.
  - cbn [randoms]. unfold random, nextRaw.
    destruct (randoms n _) as [vs r2] eqn:E. cbn [snd].
    pose proof (IH {| originalSeed := originalSeed r;
                      state := toUint32 (1664525 * state r + 1013904223);
                      callCount := callCount r + 1 |}) as H.
    rewrite E in H. cbn [snd originalSeed state callCount] in H. rewrite H.
    fold (lcg (state r)). rewrite nthRaw_shift. f_equal. lia.
Qed.

Lemma rollD20s_closed_form (n : nat) :
  forall r,
    rollD20s n r =
    Some (map (fun k => 1 + nthRaw (state r) (S k) mod 20) (seq 0 n),
          {| originalSeed := originalSeed r;
             state := nthRaw (state r) n;
             callCount := callCount r + Z.of_nat n |}).
Proof.
  induction n as [|n IH]; intros r.
  - destruct r; cbn. do 3 f_equal. lia.
  - cbn [rollD20s]. unfold rollD20, randInt, nextRaw.
    change (1 >? 20) with false. cbv iota.
    rewrite IH. cbn [originalSeed state callCount seq map].
    fold (lcg (state r)). rewrite nthRaw_shift.
    do 2 f_equal.
    + f_equal. rewrite <- seq_shift, map_map.
      apply map_ext. intros k. now rewrite nthRaw_shift.
    + f_equal. lia.
Qed.

Lemma random_unit_interval (r : DeterministicRNG) :
  (0 <= fst (random r) < 1)%Q.
Proof.
  unfold random, nextRaw. cbn [fst].
  pose proof (toUint32_range (1664525 * state r + 1013904223)) as [H0 H1].
  set (v := toUint32 _) in *.
  assert (Hpos : (0 < inject_Z two32)%Q) by (unfold two32; reflexivity).
  split.
  - apply Qle_shift_div_l; [exact Hpos|]. rewrite Qmult_0_l.
    change 0%Q with (inject_Z 0). rewrite <- Zle_Qle. exact H0.
  - apply Qlt_shift_div_r; [exact Hpos|]. rewrite Qmult_1_l.
    rewrite <- Zlt_Qlt. exact H1.
Qed.

Lemma randoms_unit_interval (n : nat) :
  forall r, Forall (fun v => (0 <= v < 1)%Q) (fst (randoms n r)).
Proof.
  induction n as [|n IH]; intros r; [constructor|].
  cbn [randoms]. pose proof (random_unit_interval r) as Hv.
  destruct (random r) as [v r1]. specialize (IH r1).
  destruct (randoms n r1) as [vs r2]. cbn [fst] in *.
  constructor; assumption.
Qed.

Lemma sequencesEqual_refl (l : list Q) : sequencesEqual l l = true.
Proof.
  induction l as [|x l IH]; [reflexivity|]. cbn.
  assert (Qeq_bool x x = true) as -> by (apply Qeq_bool_iff; reflexivity).
  exact IH.
Qed.
Lemma validateReproducibility_spec (n : nat) (r : DeterministicRNG) :
  validateReproducibility n r = (true, r).
Proof.
  unfold validateReproducibility.
  destruct (randoms n (reset r)) as [s1 r1] eqn:E1.
  assert (Hr1 : reset r1 = reset r).
  { pose proof (randoms_state n (reset r)) as H. rewrite E1 in H. cbn [snd] in H.
    subst r1. reflexivity. }
  rewrite Hr1, E1. f_equal.
  - apply sequencesEqual_refl.
  - destruct r as [sd st cc]. unfold setState, getState. cbn. f_equal.
    destruct (cc =? 0) eqn:Ecc; [apply Z.eqb_eq in Ecc; lia | reflexivity].
Qed.

(** Scenario of the specification: seed 12345, two initiative rolls from a
    freshly reset source, twice. *)
Example reset_12345_two_rolls :
  fst <$> rollD20s 2 (reset (create (Finite 12345))) = Some [9; 8] /\
  fst <$> rollD20s 2 (reset (snd (randoms 5 (create (Finite 12345))))) = Some [9; 8].
Proof. split; vm_compute; reflexivity. Qed.

(** C1. For every seed, two generation runs that each call [reset] and then
    draw the same number of values through [random] (or [rollD20]) produce
    identical sequences, whatever the generator did before: the k-th draw
    is a function of the normalized seed and the call index alone, every
    [random] value lies in [0,1), and the built-in self-check succeeds and
    restores the cursor. *)
Theorem C1_reset_then_draw_is_reproducible :
  forall (seed : JsNumber) (st1 cc1 st2 cc2 : Z) (n : nat),
    let run1 := reset (mkRNG seed st1 cc1) in
    let run2 := reset (mkRNG seed st2 cc2) in
    randoms n run1 = randoms n run2 /\
    rollD20s n run1 = rollD20s n run2 /\
    fst (randoms n run1) =
      map (fun k => (inject_Z (nthRaw (normalizeSeed seed) (S k)) / inject_Z two32)%Q)
          (seq 0 n) /\
    fst <$> rollD20s n run1 =
      Some (map (fun k => 1 + nthRaw (normalizeSeed seed) (S k) mod 20) (seq 0 n)) /\
    Forall (fun v => (0 <= v < 1)%Q) (fst (randoms n run1)) /\
    validateReproducibility n (mkRNG seed st1 cc1) = (true, mkRNG seed st1 cc1).
Proof.
  intros seed st1 cc1 st2 cc2 n run1 run2.
  split; [reflexivity|]. split; [reflexivity|].
  split; [subst run1; rewrite randoms_closed_form; reflexivity|].
  split; [subst run1; rewrite rollD20s_closed_form; reflexivity|].
  split; [apply randoms_unit_interval | apply validateReproducibility_spec].
Qed.

(** The stream depends on the seed only through its normalization. *)
Lemma create_normalized (s1 s2 : JsNumber) :
  normalizeSeed s1 = normalizeSeed s2 -> state (create s1) = state (create s2).
Proof. intros H. exact H. Qed.

Lemma normalizeSeed_integer_negate (z : Z) :
  normalizeSeed (negate (Finite (inject_Z z))) = normalizeSeed (Finite (inject_Z z)).
Proof.
  cbn [negate normalizeSeed].
  assert (H : (- inject_Z z == inject_Z (- z))%Q) by (rewrite inject_Z_opp; reflexivity).
  rewrite (Qfloor_comp _ _ H), !Qfloor_Z, Z.abs_opp. reflexivity.
Qed.

(** C10, as stated, fails on fractional seeds: [Math.floor] rounds 1/2 down
    to 0 and -1/2 down to -1, so the two generators start from states 0 and
    1 and already differ on the first draw. *)
Lemma C10_counterexample :
  let s := Finite (1 # 2) in
  normalizeSeed s = 0 /\
  normalizeSeed (negate s) = 1 /\
  fst (randoms 1 (create s)) = [(1013904223 # 4294967296)%Q] /\
  fst (randoms 1 (create (negate s))) = [(1015568748 # 4294967296)%Q] /\
  fst <$> rollD20s 1 (create s) <> fst <$> rollD20s 1 (create (negate s)).
Proof.
  cbv zeta. repeat split; try (vm_compute; reflexivity).
  vm_compute. intros H. discriminate H.
Qed.

(** C10 (amended). Two generators whose seeds have the same normalization
    [Math.abs(Math.floor(seed)) >>> 0] produce identical draw sequences; this
    is the case for every integer seed and its negation (and for NaN and the
    infinities), so distinct seeds can collapse to one stream. *)
Theorem C10_equal_normalization_same_stream :
  forall (n : nat),
    (forall s1 s2 : JsNumber,
        normalizeSeed s1 = normalizeSeed s2 ->
        fst (randoms n (create s1)) = fst (randoms n (create s2)) /\
        fst <$> rollD20s n (create s1) = fst <$> rollD20s n (create s2)) /\
    (forall z : Z,
        fst (randoms n (create (Finite (inject_Z z)))) =
        fst (randoms n (create (negate (Finite (inject_Z z))))) /\
        fst <$> rollD20s n (create (Finite (inject_Z z))) =
        fst <$> rollD20s n (create (negate (Finite (inject_Z z))))) /\
    (forall s : JsNumber,
        match s with Finite _ => True | _ => normalizeSeed (negate s) = normalizeSeed s end).
Proof.
  intros n.
  assert (Hgen : forall s1 s2 : JsNumber,
             normalizeSeed s1 = normalizeSeed s2 ->
             fst (randoms n (create s1)) = fst (randoms n (create s2)) /\
             fst <$> rollD20s n (create s1) = fst <$> rollD20s n (create s2)).
  { intros s1 s2 H. rewrite !randoms_closed_form, !rollD20s_closed_form.
    cbn [create state fmap option_fmap option_map fst]. rewrite H. split; reflexivity. }
  split; [exact Hgen|]. split.
  - intros z. apply Hgen. symmetry. apply normalizeSeed_integer_negate.
  - intros s. destruct s; [exact I | reflexivity..].
Qed.

Lemma C10_witness :
  fst (randoms 3 (create (Finite 7))) = fst (randoms 3 (create (Finite 4294967303))) /\
  fst <$> rollD20s 3 (create (Finite 7)) = fst <$> rollD20s 3 (create (Finite 4294967303)).
Proof.
  apply (proj1 (C10_equal_normalization_same_stream 3) (Finite 7) (Finite 4294967303)).
  vm_compute. reflexivity.
Defined.
End RngFacts.

Module D20Facts.
Import D20.
Local Open Scope Q_scope.

Lemma calculateModifier_monotone (a b : Q) :
  a <= b -> calculateModifier a <= calculateModifier b.
Proof.
  intros H. unfold calculateModifier, Js.floor, MODIFIER_OFFSET, MODIFIER_DIVISOR.
  rewrite <- Zle_Qle. apply Qfloor_resp_le.
  apply Qmult_le_compat_r; [lra | discriminate].
Qed.

Lemma calculateModifier_int (z : Z) :
  calculateModifier (inject_Z z) = inject_Z ((z - 10) / 2).
Proof.
  unfold calculateModifier, Js.floor, MODIFIER_OFFSET, MODIFIER_DIVISOR.
  f_equal.
  assert (H : (inject_Z z - 10) / 2 == (z - 10) # 2).
  { unfold Qdiv, Qminus, Qplus, Qopp, Qmult, Qinv, inject_Z, Qeq. cbn. lia. }
  rewrite (Qfloor_comp _ _ H). reflexivity.
Qed.

Lemma threat_minimum_bounds (abilities : AbilityScores)
    (visibleStats : Visible.Stats) (equipment : Obj.t) :
  18 <= minThreat (calculateThreatRange abilities visibleStats equipment) <= 20.
Proof.
  unfold calculateThreatRange, NATURAL_CRIT, MAX_THREAT_RANGE. cbn [minThreat].
  set (x := getModifier abilities INT + _ + _). clearbody x.
  split; Js.minmax_cases; lra.
Qed.

Example threat_range_samples :
  let smart := mkAbilities 10 10 10 18 10 10 in
  let plain := mkAbilities 10 10 10 10 10 10 in
  let lucky := Visible.mkStats 100 50 25 15 20 10 15 12 4 1 14 in
  let unset := Visible.mkStats 100 50 25 15 20 10 15 12 4 1 0 in
  Qeq_bool (minThreat (calculateThreatRange smart lucky [])) 18 = true /\
  Qeq_bool (minThreat (calculateThreatRange plain lucky [])) 18 = true /\
  Qeq_bool (minThreat (calculateThreatRange plain unset [])) 20 = true /\
  Qeq_bool (minThreat (calculateThreatRange plain unset [("criticalModifier"%string, 2)])) 19 = true.
Proof. vm_compute. repeat split. Qed.

(** C4. The threat range starts at 20 and extends downward by
    max(0, INT modifier + LCK modifier + equipment bonus), capped at two
    steps, so its minimum lies between 18 and 20 and no roll below 18 is a
    critical threat; a roll is a fumble exactly when it is a natural 1,
    whatever the bonuses.  (The LCK modifier is taken from the visible LCK
    stat, with 8 standing in for an unset stat.) *)
Theorem C4_threat_range_capped_and_fumble :
  forall (abilities : AbilityScores) (visibleStats : Visible.Stats)
         (equipment : Obj.t) (roll : Z),
    let intMod := getModifier abilities INT in
    let lckMod := calculateModifier (Js.orElse (Visible.sLCK visibleStats) 8) in
    let equipmentMod := Obj.propOr equipment "criticalModifier" 0 in
    let tr := calculateThreatRange abilities visibleStats equipment in
    maxThreat tr == 20 /\
    minThreat tr == 20 - Qmin (Qmax 0 (intMod + lckMod + equipmentMod)) 2 /\
    extension tr <= 2 /\
    18 <= minThreat tr /\ minThreat tr <= 20 /\
    (isCriticalHit roll tr = true -> (18 <= roll)%Z) /\
    (isFumble roll = true <-> roll = 1%Z).
Proof.
  intros abilities visibleStats equipment roll intMod lckMod equipmentMod tr.
  pose proof (threat_minimum_bounds abilities visibleStats equipment) as [Hlo Hhi].
  fold tr in Hlo, Hhi.
  split; [reflexivity|].
  split.
  { subst tr. unfold calculateThreatRange, NATURAL_CRIT, MAX_THREAT_RANGE.
    cbn [minThreat]. fold intMod lckMod equipmentMod.
    assert (E : 20 - 18 == 2) by lra. rewrite E. reflexivity. }
  split.
  { subst tr. unfold calculateThreatRange, NATURAL_CRIT, MAX_THREAT_RANGE.
    cbn [extension]. set (x := getModifier abilities INT + _ + _). clearbody x.
    Js.minmax_cases; lra. }
  split; [exact Hlo|]. split; [exact Hhi|]. split.
  - unfold isCriticalHit. intros H. apply JsFacts.geb_true in H.
    assert (Hr : inject_Z 18 <= inject_Z roll) by (change (inject_Z 18) with 18; lra).
    rewrite <- Zle_Qle in Hr. exact Hr.
  - unfold isFumble, NATURAL_FUMBLE. apply Z.eqb_eq.
Qed.

Lemma C4_witness :
  let tr := calculateThreatRange (mkAbilities 10 10 10 18 10 10)
              (Visible.mkStats 100 50 25 15 20 10 15 12 4 1 14) [] in
  isCriticalHit 19 tr = true /\ (18 <= 19)%Z /\ 18 <= minThreat tr.
Proof.
  cbv zeta.
  pose proof (C4_threat_range_capped_and_fumble
                (mkAbilities 10 10 10 18 10 10)
                (Visible.mkStats 100 50 25 15 20 10 15 12 4 1 14) [] 19) as H.
  cbv zeta in H. destruct H as (_ & _ & _ & Hlo & _ & Hcrit & _).
  assert (Hc : isCriticalHit 19
                 (calculateThreatRange (mkAbilities 10 10 10 18 10 10)
                    (Visible.mkStats 100 50 25 15 20 10 15 12 4 1 14) []) = true)
    by (vm_compute; reflexivity).
  split; [exact Hc|]. split; [exact (Hcrit Hc) | exact Hlo].
Defined.


End D20Facts.

Module UnitFacts.
Import Units.
Local Open Scope Q_scope.

(** The constructor accepts the sample recruit and derives the documented
    level-1 stat block from all-10 abilities. *)
Example recruit_is_constructed :
  newUnit (mkConfig "u1" "u1" "SWORDSMAN" "HUMAN_KINGDOM" 1 false Sample.average
                    [] None "") = Some (Sample.recruit "u1") /\
  forallb (fun '(n, v) => Qeq_bool (Visible.get (baseStats (Sample.recruit "u1")) n) v)
          [ (Visible.HP, 108); (Visible.MP, 52); (Visible.ATK, 27);
            (Visible.DEF, 15); (Visible.MAG, 22); (Visible.RES, 10);
            (Visible.AGL, 15); (Visible.INT, 12); (Visible.MOV, 4);
            (Visible.RNG, 1); (Visible.LCK, 8) ] = true /\
  Qeq_bool (currentAP (Sample.recruit "u1")) 3 = true /\
  position (Sample.recruit "u1") = (0, 0)%Z.
Proof. vm_compute. repeat split. Qed.

Example fallen_is_incapacitated :
  isIncapacitated (Sample.fallen "u1") = true /\
  Qeq_bool (currentHP (Sample.fallen "u1")) 0 = true /\
  Qeq_bool (currentAP (Sample.fallen "u1")) 0 = true.
Proof. vm_compute. repeat split. Qed.

Example invalid_class_is_rejected :
  newUnit (mkConfig "u1" "u1" "WIZARD" "HUMAN_KINGDOM" 1 false Sample.average
                    [] None "") = None.
Proof. vm_compute. reflexivity. Qed.

Lemma clampStat_in_range (n : Visible.StatName) (v : Q) :
  Visible.statMin n <= clampStat n v <= Visible.statMax n.
Proof.
  unfold clampStat.
  assert (Visible.statMin n <= Visible.statMax n) by (destruct n; cbn; lra).
  split; Js.minmax_cases; lra.
Qed.

(** Every derived stat lies in its documented range. *)
Lemma deriveVisibleStats_in_range (u : Unit) (n : Visible.StatName) :
  Visible.statMin n <= Visible.get (deriveVisibleStats u) n <= Visible.statMax n.
Proof.
  unfold deriveVisibleStats. cbv zeta.
  destruct n; cbn [Visible.get Visible.sHP Visible.sMP Visible.sATK Visible.sDEF
                   Visible.sMAG Visible.sRES Visible.sAGL Visible.sINT
                   Visible.sMOV Visible.sRNG Visible.sLCK];
    apply clampStat_in_range.
Qed.
End UnitFacts.

Module DamageFacts.
Import Units Damage.
Local Open Scope Q_scope.

(** ** The dice loop *)








Example fireball_level_1 :
  (fun o => match o with
            | Some (r, _) => Some (length (sDiceRolls r), sLevelBonus r)
            | None => None
            end)
    (calculateSpellDamage Sample.mage "fireball" Sample.rng12345 true 1)
  = Some (12%nat, 1).
Proof. vm_compute. reflexivity. Qed.



End DamageFacts.

Module DoubleFacts.
Local Open Scope Q_scope.

(** Equal rationals round to the same double. *)
Lemma double_compat (x y : Q) : x == y -> Js.double x = Js.double y.
Proof.
  intros H. unfold Js.double. now rewrite (Qred_complete x y H).
Qed.

Lemma mul_compat (a b a' b' : Q) :
  a == a' -> b == b' -> Js.mul a b = Js.mul a' b'.
Proof. intros Ha Hb. apply double_compat. now rewrite Ha, Hb. Qed.

Lemma sub_compat (a b a' b' : Q) :
  a == a' -> b == b' -> Js.sub a b = Js.sub a' b'.
Proof. intros Ha Hb. apply double_compat. now rewrite Ha, Hb. Qed.


(** The rounding agrees with the binary64 arithmetic of the kernel on the
    numbers of the damage formulas: the nearest doubles of 0.02, 0.9 and
    1.2, the sum 0.1 + 0.2, the mitigation rate of DEF 15, what it leaves
    of 90 damage, and the rogue's combined bonus 1.5 * 1.2. *)
Example double_agrees_with_kernel_floats :
  Js.double 0.02 = Js.ofFloat (Js.literalFloat 2 100) /\
  Js.double 0.9 = Js.ofFloat (Js.literalFloat 9 10) /\
  Js.double 1.2 = Js.ofFloat (Js.literalFloat 12 10) /\
  Js.add (Js.double 0.1) (Js.double 0.2)
    = Js.ofFloat (PrimFloat.add (Js.literalFloat 1 10) (Js.literalFloat 2 10)) /\
  Js.mul 15 (Js.double 0.02)
    = Js.ofFloat (PrimFloat.mul (Js.toFloat 15) (Js.literalFloat 2 100)) /\
  Js.mul 90 (Js.sub 1 (Js.mul 15 (Js.double 0.02)))
    = Js.ofFloat
        (PrimFloat.mul (Js.toFloat 90)
           (PrimFloat.sub (Js.toFloat 1)
              (PrimFloat.mul (Js.toFloat 15) (Js.literalFloat 2 100)))) /\
  Js.mul 1.5 (Js.double 1.2)
    = Js.ofFloat (PrimFloat.mul (Js.literalFloat 3 2) (Js.literalFloat 12 10)) /\
  Js.floor (Js.mul 90 (Js.sub 1 (Js.mul 15 (Js.double 0.02)))) = 62 /\
  Js.floor (Js.mul 15 (Js.mul 1.5 (Js.double 1.2))) = 26.
Proof. vm_compute. repeat split. Qed.

(** It agrees as well on negative numbers, on thirds, on differences of
    either sign, on a tie between two neighbouring doubles (2^53 + 1 goes
    to the even 2^53) and on numbers so small that the least exponent
    applies: 3 * 2^-1075 lies halfway between 2^-1074 and 2^-1073 and goes
    to the latter, and 2^-1075 goes to 0. *)
Example double_agrees_on_other_numbers :
  Js.double (1 # 3) = Js.ofFloat (Js.literalFloat 1 3) /\
  Js.double (- (1 # 3)) = Js.ofFloat (Js.literalFloat (-1) 3) /\
  Js.sub (Js.double 0.3) (Js.double 0.1)
    = Js.ofFloat (PrimFloat.sub (Js.literalFloat 3 10) (Js.literalFloat 1 10)) /\
  Js.sub (Js.double 0.1) (Js.double 0.3)
    = Js.ofFloat (PrimFloat.sub (Js.literalFloat 1 10) (Js.literalFloat 3 10)) /\
  Js.mul (Js.double (-0.7)) (Js.double 1e15)
    = Js.ofFloat (PrimFloat.mul (Js.literalFloat (-7) 10)
                                (Js.toFloat 1000000000000000)) /\
  Js.double 9007199254740993 = 9007199254740992 /\
  Js.double 9007199254740993 = Js.ofFloat (Js.toFloat 9007199254740993) /\
  Js.mul (3 * 2 ^ (-600)) (2 ^ (-475))
    = Js.ofFloat (PrimFloat.mul
                    (PrimFloat.mul (Js.toFloat 3) (Js.powerFloat (-600)))
                    (Js.powerFloat (-475))) /\
  Js.mul (3 * 2 ^ (-600)) (2 ^ (-475)) == 2 ^ (-1073) /\
  Js.mul (2 ^ (-600)) (2 ^ (-475)) == 0 /\
  Js.ofFloat (PrimFloat.mul (Js.powerFloat (-600)) (Js.powerFloat (-475))) == 0.
Proof. vm_compute. repeat split. Qed.

(** ** The rounding is to the nearest double *)

Lemma two_nonzero : ~ 2 == 0.
Proof. discriminate. Qed.

Lemma power_pos (z : Z) : 0 < 2 ^ z.
Proof. apply Qpower_0_lt. reflexivity. Qed.

Lemma power_succ (z : Z) : 2 ^ (z + 1) == 2 ^ z * 2.
Proof. rewrite Qpower_plus by exact two_nonzero. reflexivity. Qed.

Lemma power_whole (n : Z) : (0 <= n)%Z -> inject_Z (2 ^ n) == 2 ^ n.
Proof. intros H. now rewrite Zpower_Qpower. Qed.

(** [ilog2] is the binary logarithm, rounded down. *)
Lemma ilog2_spec (x : Q) :
  0 < x -> 2 ^ Js.ilog2 x <= x < 2 ^ (Js.ilog2 x + 1).
Proof.
  intros Hx. destruct x as [n d]. unfold Js.ilog2. cbn [Qnum Qden].
  assert (Hn : (0 < n)%Z).
  { unfold Qlt in Hx. cbn in Hx. lia. }
  set (ln := Z.log2 n). set (ld := Z.log2 (Z.pos d)).
  assert (Hln : (2 ^ ln <= n < 2 ^ (ln + 1))%Z).
  { pose proof (Z.log2_spec n Hn) as H. fold ln in H.
    replace (Z.succ ln) with (ln + 1)%Z in H by lia. exact H. }
  assert (Hld : (2 ^ ld <= Z.pos d < 2 ^ (ld + 1))%Z).
  { pose proof (Z.log2_spec (Z.pos d) eq_refl) as H. fold ld in H.
    replace (Z.succ ld) with (ld + 1)%Z in H by lia. exact H. }
  assert (Hln0 : (0 <= ln)%Z) by apply Z.log2_nonneg.
  assert (Hld0 : (0 <= ld)%Z) by apply Z.log2_nonneg.
  (* the bounds in Q *)
  assert (Qn : 2 ^ ln <= inject_Z n /\ inject_Z n < 2 ^ ln * 2).
  { rewrite <- power_succ, <- !power_whole by lia.
    rewrite <- Zle_Qle, <- Zlt_Qlt. exact Hln. }
  assert (Qd : 2 ^ ld <= inject_Z (Z.pos d) /\ inject_Z (Z.pos d) < 2 ^ ld * 2).
  { rewrite <- power_succ, <- !power_whole by lia.
    rewrite <- Zle_Qle, <- Zlt_Qlt. exact Hld. }
  assert (Hx' : n # d == inject_Z n / inject_Z (Z.pos d)) by apply Qmake_Qdiv.
  assert (Hd0 : 0 < inject_Z (Z.pos d)) by reflexivity.
  assert (Hk : 2 ^ (ln - ld) * 2 ^ ld == 2 ^ ln).
  { rewrite <- Qpower_plus by exact two_nonzero. now replace (ln - ld + ld)%Z with ln by lia. }
  pose proof (power_pos (ln - ld)) as Pk. pose proof (power_pos ld) as Pd.
  pose proof (power_pos ln) as Pn.
  assert (Hup : n # d < 2 ^ (ln - ld) * 2).
  { rewrite Hx'. apply Qlt_shift_div_r; [exact Hd0|].
    destruct Qn as [_ Qn]. destruct Qd as [Qd _].
    apply Qlt_le_trans with (2 ^ ln * 2); [exact Qn|].
    rewrite <- Hk.
    assert (2 ^ (ln - ld) * 2 ^ ld * 2 == 2 ^ (ln - ld) * 2 * 2 ^ ld) as -> by ring.
    apply Qmult_le_l; [lra | exact Qd]. }
  assert (Hlow : 2 ^ (ln - ld) < (n # d) * 2).
  { rewrite Hx'.
    assert (inject_Z n / inject_Z (Z.pos d) * 2 == inject_Z n * 2 / inject_Z (Z.pos d)) as ->
      by (field; lra).
    apply Qlt_shift_div_l; [exact Hd0|].
    destruct Qn as [Qn _]. destruct Qd as [_ Qd].
    apply Qlt_le_trans with (2 ^ (ln - ld) * (2 ^ ld * 2)).
    - apply Qmult_lt_l; [exact Pk | exact Qd].
    - assert (2 ^ (ln - ld) * (2 ^ ld * 2) == 2 ^ ln * 2) as -> by (rewrite <- Hk; ring).
      lra. }
  destruct (Qle_bool (2 ^ (ln - ld)) (n # d)) eqn:E.
  - apply Qle_bool_iff in E. split; [exact E|]. now rewrite power_succ.
  - assert (Hlt : n # d < 2 ^ (ln - ld)).
    { apply Qnot_le_lt. intros H. apply Qle_bool_iff in H. congruence. }
    replace (ln - ld - 1 + 1)%Z with (ln - ld)%Z by lia.
    split; [|exact Hlt].
    assert (Hh : 2 ^ (ln - ld) == 2 ^ (ln - ld - 1) * 2).
    { rewrite <- power_succ. now replace (ln - ld - 1 + 1)%Z with (ln - ld)%Z by lia. }
    rewrite Hh in Hlow. lra.
Qed.

(** [nearestEven] is within a half of its argument, and even in a tie. *)
Lemma nearestEven_spec (x : Q) :
  Qabs (inject_Z (Js.nearestEven x) - x) <= 1 # 2 /\
  (Qabs (inject_Z (Js.nearestEven x) - x) == 1 # 2 ->
   Z.even (Js.nearestEven x) = true).
Proof.
  unfold Js.nearestEven.
  pose proof (Qfloor_le x) as Hlo. pose proof (Qlt_floor x) as Hhi.
  set (f := Qfloor x) in *.
  assert (Hf1 : inject_Z (f + 1) == inject_Z f + 1).
  { rewrite inject_Z_plus. reflexivity. }
  rewrite Hf1 in Hhi.
  destruct (Qcompare (x - inject_Z f) (1 # 2)) eqn:E.
  - apply Qeq_alt in E.
    destruct (Z.even f) eqn:Ev.
    + split; [|intros _; exact Ev].
      apply Qabs_Qle_condition. split; lra.
    + split.
      * rewrite Hf1. apply Qabs_Qle_condition. split; lra.
      * intros _. rewrite Z.even_add, Ev. reflexivity.
  - apply Qlt_alt in E. split.
    + apply Qabs_Qle_condition. split; lra.
    + intros H. exfalso.
      assert (Hneg : inject_Z f - x <= 0) by lra.
      rewrite (Qabs_neg _ Hneg) in H. lra.
  - apply Qgt_alt in E. split.
    + rewrite Hf1. apply Qabs_Qle_condition. split; lra.
    + intros H. exfalso. rewrite Hf1 in H.
      assert (Hpos : 0 <= inject_Z f + 1 - x) by lra.
      rewrite (Qabs_pos _ Hpos) in H. lra.
Qed.

(** [double x] is the double nearest to [x]: a whole number [n] times a
    power of two [2^e], where the exponent [e] is the least one, -1074, or
    else makes [x / 2^e] a number of exactly 53 bits, and [n] is the whole
    number nearest to [x / 2^e], the even one in a tie. *)
Theorem double_is_nearest (x : Q) :
  ~ x == 0 ->
  exists e n : Z,
    Js.double x == inject_Z n * 2 ^ e /\
    (-1074 <= e)%Z /\
    Qabs x < 2 ^ (e + 53) /\
    (e = (-1074)%Z \/ 2 ^ (e + 52) <= Qabs x) /\
    Qabs (inject_Z n - x / 2 ^ e) <= 1 # 2 /\
    (Qabs (inject_Z n - x / 2 ^ e) == 1 # 2 -> Z.even n = true) /\
    Qabs (Js.double x - x) <= 2 ^ e * (1 # 2).
Proof.
  intros Hx.
  pose proof (Qred_correct x) as Hr.
  set (r := Qred x) in *.
  set (L := Js.ilog2 (Qabs r)).
  set (e := Z.max (-1074) (L - 52)).
  set (n := Js.nearestEven (r / 2 ^ e)).
  exists e, n.
  assert (Ha : 0 < Qabs r).
  { rewrite Hr. destruct (Qlt_le_dec 0 (Qabs x)) as [H|H]; [exact H|].
    exfalso. apply Hx.
    pose proof (Qabs_nonneg x) as H0.
    assert (Hz : Qabs x == 0) by lra.
    apply Qabs_Qle_condition in H. lra. }
  destruct (ilog2_spec (Qabs r) Ha) as [Hlo Hhi]. fold L in Hlo, Hhi.
  rewrite Hr in Hlo, Hhi.
  pose proof (power_pos e) as Pe.
  assert (Hdouble : Js.double x == inject_Z n * 2 ^ e).
  { unfold Js.double. fold r.
    destruct (Qeq_bool r 0) eqn:E.
    - apply Qeq_bool_iff in E. exfalso. apply Hx. now rewrite <- Hr.
    - fold L. fold e. fold n. apply Qred_correct. }
  destruct (nearestEven_spec (r / 2 ^ e)) as [Hnear Htie]. fold n in Hnear, Htie.
  rewrite Hr in Hnear, Htie.
  split; [exact Hdouble|].
  split; [unfold e; lia|].
  split.
  { apply Qlt_le_trans with (2 ^ (L + 1)); [exact Hhi|].
    apply Qpower_le_compat_l; [unfold e; lia | lra]. }
  split.
  { destruct (Z.eq_dec e (-1074)) as [He|He]; [now left|right].
    assert (e = (L - 52)%Z) as -> by (unfold e in *; lia).
    now replace (L - 52 + 52)%Z with L by lia. }
  split; [exact Hnear|]. split; [exact Htie|].
  rewrite Hdouble.
  assert (Heq : inject_Z n * 2 ^ e - x == (inject_Z n - x / 2 ^ e) * 2 ^ e).
  { field. lra. }
  rewrite Heq, Qabs_Qmult, (Qabs_pos (2 ^ e)) by lra.
  rewrite (Qmult_comm (2 ^ e)).
  apply Qmult_le_compat_r; [exact Hnear | lra].
Qed.

(** Whole numbers of at most 53 bits are doubles. *)
Lemma whole_is_double (z : Z) :
  (Z.abs z < 2 ^ 53)%Z -> Js.isDouble (inject_Z z).
Proof.
  intros Hz. unfold Js.isDouble.
  destruct (Z.eq_dec z 0) as [->|Hnz]; [reflexivity|].
  assert (Hx : ~ inject_Z z == 0).
  { intros H. apply Hnz. unfold Qeq in H. cbn in H. lia. }
  destruct (double_is_nearest (inject_Z z) Hx)
    as (e & n & Hd & He & Hup & Hnorm & Hnear & _ & _).
  rewrite Hd.
  assert (Habs : Qabs (inject_Z z) == inject_Z (Z.abs z)).
  { unfold Qabs, inject_Z. reflexivity. }
  assert (He0 : (e <= 0)%Z).
  { destruct Hnorm as [->|Hnorm]; [lia|].
    rewrite Habs in Hnorm.
    assert (Hlt : 2 ^ (e + 52) < 2 ^ 53).
    { apply Qle_lt_trans with (inject_Z (Z.abs z)); [exact Hnorm|].
      rewrite <- (power_whole 53) by lia. now rewrite <- Zlt_Qlt. }
    apply Qpower_lt_compat_l_inv in Hlt; [lia | lra]. }
  (* x / 2^e is the whole number z * 2^(-e) *)
  assert (Hw : inject_Z z / 2 ^ e == inject_Z (z * 2 ^ (- e))).
  { rewrite inject_Z_mult, (power_whole (- e)) by lia.
    rewrite Qpower_opp. field. pose proof (power_pos e). lra. }
  rewrite Hw in Hnear.
  assert (Hn : n = (z * 2 ^ (- e))%Z).
  { assert (H : Qabs (inject_Z (n - z * 2 ^ (- e))) <= 1 # 2).
    { unfold Zminus. rewrite inject_Z_plus, inject_Z_opp. exact Hnear. }
    assert (Habs' : Qabs (inject_Z (n - z * 2 ^ (- e)))
                    == inject_Z (Z.abs (n - z * 2 ^ (- e)))) by reflexivity.
    rewrite Habs' in H.
    assert (H1 : inject_Z (Z.abs (n - z * 2 ^ (- e))) < inject_Z 1)
      by (change (inject_Z 1) with 1; lra).
    rewrite <- Zlt_Qlt in H1. lia. }
  rewrite Hn, <- Hw. field. pose proof (power_pos e). lra.
Qed.

Lemma abs_whole (z : Z) : Qabs (inject_Z z) == inject_Z (Z.abs z).
Proof. reflexivity. Qed.

(** A whole number of at most 53 bits times a power of two that is not below
    the least one is a double. *)
Lemma representable (n e : Z) :
  (Z.abs n < 2 ^ 53)%Z -> (-1074 <= e)%Z ->
  Js.isDouble (inject_Z n * 2 ^ e).
Proof.
  intros Hn He. unfold Js.isDouble.
  pose proof (power_pos e) as Pe.
  destruct (Z.eq_dec n 0) as [->|Hnz].
  { rewrite (double_compat _ 0) by ring. vm_compute. reflexivity. }
  set (x := inject_Z n * 2 ^ e).
  assert (Habs : Qabs x == inject_Z (Z.abs n) * 2 ^ e).
  { unfold x. rewrite Qabs_Qmult, abs_whole, (Qabs_pos (2 ^ e)) by lra.
    reflexivity. }
  assert (Hx : ~ x == 0).
  { intros H. assert (H0 : Qabs x == 0) by (rewrite H; reflexivity).
    rewrite Habs in H0.
    assert (H1 : inject_Z 1 <= inject_Z (Z.abs n)) by (rewrite <- Zle_Qle; lia).
    change (inject_Z 1) with 1 in H1. nra. }
  destruct (double_is_nearest x Hx)
    as (e' & m & Hd & He' & Hup & Hnorm & Hnear & _ & _).
  pose proof (power_pos e') as Pe'.
  rewrite Hd.
  assert (Hlt : Qabs x < 2 ^ (e + 53)).
  { rewrite Habs, Qpower_plus by exact two_nonzero.
    rewrite (Qmult_comm (2 ^ e)).
    apply Qmult_lt_compat_r; [exact Pe|].
    rewrite <- (power_whole 53) by lia. now rewrite <- Zlt_Qlt. }
  assert (Hee : (e' <= e)%Z).
  { destruct Hnorm as [->|Hnorm]; [lia|].
    assert (H : 2 ^ (e' + 52) < 2 ^ (e + 53)) by lra.
    apply Qpower_lt_compat_l_inv in H; [lia | lra]. }
  assert (Hw : x / 2 ^ e' == inject_Z (n * 2 ^ (e - e'))).
  { unfold x. rewrite inject_Z_mult, (power_whole (e - e')) by lia.
    unfold Zminus. rewrite Qpower_plus, Qpower_opp by exact two_nonzero.
    field. lra. }
  rewrite Hw in Hnear.
  assert (Hm : m = (n * 2 ^ (e - e'))%Z).
  { assert (H : Qabs (inject_Z (m - n * 2 ^ (e - e'))) <= 1 # 2).
    { unfold Zminus at 1. rewrite inject_Z_plus, inject_Z_opp. exact Hnear. }
    rewrite abs_whole in H.
    assert (H1 : inject_Z (Z.abs (m - n * 2 ^ (e - e'))) < inject_Z 1)
      by (change (inject_Z 1) with 1; lra).
    rewrite <- Zlt_Qlt in H1. lia. }
  rewrite Hm, <- Hw. field. lra.
Qed.

(** Taking a whole number from a larger double below 2^53 is exact. *)
Lemma sub_whole_exact (x : Q) (k : Z) :
  Js.isDouble x -> x < 2 ^ 53 -> 0 <= inject_Z k <= x ->
  Js.sub x (inject_Z k) == x - inject_Z k.
Proof.
  intros Hdx Hx [Hk0 Hkx]. unfold Js.sub.
  destruct (Qeq_dec x 0) as [Hz|Hnz].
  { rewrite (double_compat _ 0) by lra.
    assert (Js.double 0 = 0) as -> by (vm_compute; reflexivity). lra. }
  destruct (double_is_nearest x Hnz)
    as (e & n & Hd & He & Hup & Hnorm & _).
  unfold Js.isDouble in Hdx. rewrite Hdx in Hd.
  pose proof (power_pos e) as Pe.
  assert (Hxpos : 0 < x) by lra.
  assert (Hax : Qabs x == x) by (apply Qabs_pos; lra).
  rewrite Hax in Hup, Hnorm.
  assert (He0 : (e <= 0)%Z).
  { destruct Hnorm as [->|Hnorm]; [lia|].
    assert (H : 2 ^ (e + 52) < 2 ^ 53) by lra.
    apply Qpower_lt_compat_l_inv in H; [lia | lra]. }
  assert (Hk : inject_Z k == inject_Z (k * 2 ^ (- e)) * 2 ^ e).
  { rewrite inject_Z_mult, (power_whole (- e)) by lia.
    rewrite Qpower_opp. field. lra. }
  assert (Hdiff : x - inject_Z k == inject_Z (n - k * 2 ^ (- e)) * 2 ^ e).
  { unfold Zminus. rewrite inject_Z_plus, inject_Z_opp.
    rewrite Hk at 1. rewrite Hd. ring. }
  assert (Hrep : Js.isDouble (inject_Z (n - k * 2 ^ (- e)) * 2 ^ e)).
  { apply representable; [|exact He].
    assert (H : Qabs (inject_Z (n - k * 2 ^ (- e))) < 2 ^ 53).
    { apply Qmult_lt_r with (2 ^ e); [exact Pe|].
      rewrite <- (Qabs_pos (2 ^ e)) at 1 by lra.
      rewrite <- Qabs_Qmult, <- Hdiff.
      rewrite Qabs_pos by lra.
      rewrite (Qmult_comm (2 ^ 53)), <- Qpower_plus by exact two_nonzero.
      lra. }
    rewrite abs_whole, <- (power_whole 53) in H by lia.
    now rewrite <- Zlt_Qlt in H. }
  rewrite (double_compat _ _ Hdiff). rewrite Hdiff. exact Hrep.
Qed.
End DoubleFacts.

Module MitigationFacts.
Import Units Damage.
Local Open Scope Q_scope.







(** The hit points left, written exactly in [takeDamage], are those of the
    double subtraction whenever the hit points are a double below 2^53. *)
Lemma takeDamage_remaining_is_double_difference
  (u : Unit) (amount : Q) (type : string) :
  isIncapacitated u = false ->
  Js.isDouble (currentHP u) -> 0 <= currentHP u < 2 ^ 53 ->
  let hurt := takeDamage u amount type in
  currentHP (snd hurt)
  == Qmax 0 (Js.sub (currentHP u) (actualDamage (fst hurt))).
Proof.
  intros Hact Hdbl [Hhp0 Hhp] hurt. subst hurt. unfold takeDamage.
  rewrite Hact.
  set (dealt := Qmax 1 (Js.floor _)).
  cbn [fst snd actualDamage].
  assert (Hcur : forall hp incap ap, currentHP (setHP u hp incap ap) = hp)
    by reflexivity.
  assert (Hgoal : Js.sub (currentHP u) (Qmin (currentHP u) dealt)
                  == currentHP u - Qmin (currentHP u) dealt).
  { destruct (Q.min_spec (currentHP u) dealt) as [[Hlt Hmin]|[Hle Hmin]].
    - unfold Js.sub.
      rewrite (DoubleFacts.double_compat _ 0) by (rewrite Hmin; ring).
      assert (Js.double 0 = 0) as -> by (vm_compute; reflexivity).
      rewrite Hmin. ring.
    - assert (Hwhole : exists k : Z, dealt == inject_Z k).
      { unfold dealt, Js.floor.
        match goal with |- context [Qfloor ?a] => set (f := Qfloor a) end.
        exists (Z.max 1 f).
        destruct (Q.max_spec 1 (inject_Z f)) as [[H1 ->]|[H1 ->]].
        - change 1 with (inject_Z 1) in H1. rewrite <- Zlt_Qlt in H1.
          now rewrite Z.max_r by lia.
        - change 1 with (inject_Z 1) in H1. rewrite <- Zle_Qle in H1.
          now rewrite Z.max_l by lia. }
      destruct Hwhole as [k Hk].
      assert (H1 : 1 <= dealt) by apply Q.le_max_l.
      unfold Js.sub.
      rewrite (DoubleFacts.double_compat _ (currentHP u - inject_Z k))
        by (rewrite Hmin, Hk; reflexivity).
      rewrite Hmin, Hk.
      apply DoubleFacts.sub_whole_exact; [exact Hdbl | exact Hhp |].
      rewrite <- Hk. split; lra. }
  destruct (Qle_bool _ 0); rewrite Hcur; rewrite Hgoal; reflexivity.
Qed.


(** A recruit has DEF 15, a recruit behind a tower shield DEF 45 (the
    cap).  20 physical damage leaves 14; 90 leaves 62, where the exact
    product 90 * 0.7 is 63; at the cap 100 leaves 9, where the exact
    product is 10.  True damage is dealt in full, and an incapacitated
    unit takes none. *)
Example takeDamage_samples :
  let shield := mkEquipment "shield1" "tower shield" "armor" 10
                  [("DEF"%string, 30)] [] [] in
  let guarded :=
    build (mkConfig "g" "g" "SWORDSMAN" "HUMAN_KINGDOM" 1 false Sample.average
                    [shield] None "") in
  let dealt u amount type := actualDamage (fst (takeDamage u amount type)) in
  Visible.sDEF (getCurrentStats (Sample.recruit "a")) == 15 /\
  Visible.sDEF (getCurrentStats guarded) == 45 /\
  dealt (Sample.recruit "a") 20 "physical"%string == 14 /\
  dealt (Sample.recruit "a") 90 "physical"%string == 62 /\
  dealt guarded 100 "physical"%string == 9 /\
  dealt (Sample.recruit "a") 20 "true"%string == 20 /\
  dealt (Sample.fallen "a") 20 "physical"%string == 0.
Proof. vm_compute. repeat split. Qed.

(** DEF or RES 29 mitigates 28 of 50 and 57 of 100 (exact products 29 and
    58).  A backstabbing rogue's bonus against a debuffed target is the
    double 1.5 * 1.2, just below 1.8, which turns 15 into 26.  From a base
    damage of 15 such a backstab makes 22, then 39, of which DEF 15 leaves
    28; from 30, two levels higher up, it makes 45, 54 and 97, of which 68
    are left. *)
Example mitigation_samples :
  let rogue :=
    build (mkConfig "r" "r" "ROGUE" "HUMAN_KINGDOM" 1 false Sample.average
                    [] None "") in
  let target := Sample.withEffects (Sample.recruit "t") [Sample.slow] in
  let backstab := mkDamageOptions true false 0 None in
  let fromAbove := mkDamageOptions true false 2 None in
  let final total options :=
    calculateFinalDamage rogue target total "slashing" false options in
  calculatePhysicalMitigation 29 50 == 28 /\
  calculateMagicalMitigation 29 100 == 57 /\
  getClassDamageBonus rogue target backstab = Js.double 1.7999999999999998 /\
  getClassDamageBonus rogue target backstab < 1.8 /\
  Js.floor (Js.mul 15 (getClassDamageBonus rogue target backstab)) == 26 /\
  beforeMitigation (final 15 backstab) == 39 /\
  afterMitigation (final 15 backstab) == 28 /\
  beforeMitigation (final 30 fromAbove) == 97 /\
  afterMitigation (final 30 fromAbove) == 68.
Proof. vm_compute. repeat split. Qed.



End MitigationFacts.

Module APFacts.
Import Units AP.
Local Open Scope Q_scope.

Lemma log_keeps_configuration (sys : ActionPointSystem) (type unitId : string) :
  apModifiers (log sys type unitId) = apModifiers sys /\
  logActions (log sys type unitId) = logActions sys /\
  enableAPBanking (log sys type unitId) = enableAPBanking sys /\
  enableAPOverflow (log sys type unitId) = enableAPOverflow sys /\
  maxBankedAP (log sys type unitId) = maxBankedAP sys.
Proof. unfold log. destruct (logActions sys) eqn:E; cbn; rewrite ?E; auto. Qed.

Lemma log_silent (sys : ActionPointSystem) (type unitId : string) :
  logActions sys = false -> log sys type unitId = sys.
Proof. intros H. unfold log. now rewrite H. Qed.

Lemma actionCost_log (sys : ActionPointSystem) (type unitId : string)
    (unit : Unit) (action : Action) :
  actionCost (log sys type unitId) unit action = actionCost sys unit action.
Proof.
  unfold actionCost.
  destruct (log_keeps_configuration sys type unitId) as [-> _]. reflexivity.
Qed.

Lemma actionCost_nonneg (sys : ActionPointSystem) (unit : Unit) (action : Action) :
  0 <= actionCost sys unit action.
Proof. unfold actionCost. apply Q.le_max_l. Qed.

Lemma canAffordAction_spec (sys : ActionPointSystem) (unit : Unit) (action : Action) :
  exists sys',
    canAffordAction sys unit action =
    ({| canAfford := Js.geb (currentAP unit) (actionCost sys unit action);
        cost := actionCost sys unit action;
        available := currentAP unit;
        remaining := if Js.geb (currentAP unit) (actionCost sys unit action)
                     then currentAP unit - actionCost sys unit action
                     else currentAP unit;
        deficit := if Js.geb (currentAP unit) (actionCost sys unit action)
                   then 0 else actionCost sys unit action - currentAP unit |},
     (sys', unit, action)) /\
    apModifiers sys' = apModifiers sys /\
    (logActions sys = false -> sys' = sys).
Proof.
  unfold canAffordAction, calculateActionCost. eexists. split; [reflexivity|].
  split.
  - destruct (log_keeps_configuration (log sys "calculate_cost" (unitId unit))
                "afford_check" (unitId unit)) as [-> _].
    now destruct (log_keeps_configuration sys "calculate_cost" (unitId unit)) as [-> _].
  - intros H. rewrite (log_silent sys _ _ H). apply log_silent. exact H.
Qed.

(** The scenario: a unit at its 3 AP pool carrying "slow", a base-cost-1
    move, and the system with its default configuration. *)
Example slow_move_costs_two :
  let unit := Sample.withEffects (Sample.recruit "u1") [Sample.slow] in
  let move := newAction "MOVE" "u1" None 0 0 in
  Qeq_bool (baseCost move) 1 = true /\
  Qeq_bool (actionCost newSystem unit move) 2 = true.
Proof. vm_compute. split; reflexivity. Qed.

(** C7, as stated, fails in its scenario: after the slowed unit has paid 2
    of its 3 AP for the first move, the second base-cost-1 move still costs
    2 under the same debuff, and with 1 AP left the affordability check
    returns false (deficit 1).  The same holds when the +1 comes from an
    explicit flat cost modifier of a debuff or from a standing unit
    modifier. *)
Lemma C7_counterexample :
  let unit := Sample.withEffects (Sample.recruit "u1") [Sample.slow] in
  let unit' := Sample.withEffects (Sample.recruit "u1") [Sample.hindered] in
  let move := newAction "MOVE" "u1" None 0 0 in
  let second := newAction "MOVE" "u1" None 0 0 in
  let standing :=
    mkSystem false false 2 false []
      {[ "u1"%string := [mkAPModifier "flat" "ALL" 1 "flat"] ]} in
  (let '(ok, (sys1, unit1, _)) := spendAP newSystem unit move in
   let check := fst (canAffordAction sys1 unit1 second) in
   ok = true /\ Qeq_bool (currentAP unit1) 1 = true /\
   Qeq_bool (cost check) 2 = true /\ canAfford check = false /\
   Qeq_bool (deficit check) 1 = true) /\
  (let '(ok, (sys1, unit1, _)) := spendAP newSystem unit' move in
   let check := fst (canAffordAction sys1 unit1 second) in
   ok = true /\ Qeq_bool (currentAP unit1) 1 = true /\ canAfford check = false) /\
  (let '(ok, (sys1, unit1, _)) := spendAP standing (Sample.recruit "u1") move in
   let check := fst (canAffordAction sys1 unit1 second) in
   ok = true /\ Qeq_bool (currentAP unit1) 1 = true /\ canAfford check = false).
Proof. vm_compute. repeat split; reflexivity. Qed.

(** C7 (amended). [canAffordAction] only reads the unit: unit and action
    come back unchanged (the system may append to its own log).  [spendAP]
    succeeds exactly when the check succeeds and the unit is not
    incapacitated; then the pool drops by the computed cost, the unit is
    marked as having acted and the action records the cost; otherwise it
    returns false with unit and action unchanged.  In the scenario (3 AP,
    "slow", base-cost-1 move) the spend deducts 2 AP and leaves 1, and the
    affordability check for a second base-cost-1 move, which again costs 2
    under the debuff, returns false. *)
Theorem C7_afford_is_pure_and_spend_is_guarded :
  forall (sys : ActionPointSystem) (unit : Unit) (action : Action),
    let check := fst (canAffordAction sys unit action) in
    let spent := spendAP sys unit action in
    let unit' := snd (fst (snd spent)) in
    let action' := snd (snd spent) in
    snd (fst (snd (canAffordAction sys unit action))) = unit /\
    snd (snd (canAffordAction sys unit action)) = action /\
    apModifiers (fst (fst (snd (canAffordAction sys unit action)))) = apModifiers sys /\
    (canAfford check = true <-> cost check <= currentAP unit) /\
    (fst spent = true <->
       canAfford check = true /\ isIncapacitated unit = false) /\
    (fst spent = true ->
       currentAP unit' == currentAP unit - cost check /\
       0 <= currentAP unit' /\
       hasActedThisTurn unit' = true /\
       modifiedCost action' = cost check /\
       currentHP unit' = currentHP unit /\
       statusEffects unit' = statusEffects unit) /\
    (fst spent = false -> unit' = unit /\ action' = action) /\
    (let slowed := Sample.withEffects (Sample.recruit "u1") [Sample.slow] in
     let move := newAction "MOVE" "u1" None 0 0 in
     let '(ok, (sys1, unit1, move1)) := spendAP newSystem slowed move in
     let again := fst (canAffordAction sys1 unit1 (newAction "MOVE" "u1" None 0 0)) in
     ok = true /\ currentAP slowed == 3 /\ modifiedCost move1 == 2 /\
     currentAP unit1 == 1 /\ hasActedThisTurn unit1 = true /\
     cost again == 2 /\ canAfford again = false).
Proof.
  intros sys unit action check spent unit' action'.
  destruct (canAffordAction_spec sys unit action) as (sys1 & Hc & Hmods & _).
  subst check spent unit' action'. unfold spendAP. rewrite Hc.
  cbn [fst snd canAfford cost].
  set (c := actionCost sys unit action).
  pose proof (actionCost_nonneg sys unit action) as Hc0. fold c in Hc0.
  split; [reflexivity|]. split; [reflexivity|]. split; [exact Hmods|].
  split; [apply JsFacts.geb_true|].
  unfold Units.spendAP.
  destruct (Js.geb (currentAP unit) c) eqn:Eaff; cbn [negb andb].
  - destruct (isIncapacitated unit) eqn:Einc; cbn [negb fst snd].
    + split; [split; [discriminate | intros [_ H]; discriminate]|].
      split; [discriminate|]. split; [auto|].
      vm_compute. repeat split; congruence.
    + apply JsFacts.geb_true in Eaff.
      split; [split; auto|].
      split.
      { intros _. cbn [setAP currentAP hasActedThisTurn setModifiedCost modifiedCost
                         currentHP statusEffects].
        assert (Hmax : Qmax 0 (currentAP unit - c) == currentAP unit - c)
          by (apply Q.max_r; lra).
        repeat split; try reflexivity; [exact Hmax | apply Q.le_max_l]. }
      split; [discriminate|].
      vm_compute. repeat split; congruence.
  - cbn [fst snd].
    split; [split; [discriminate | intros [H _]; discriminate]|].
    split; [discriminate|]. split; [auto|].
    vm_compute. repeat split; congruence.
Qed.

Lemma C7_witness :
  let unit := Sample.recruit "u1" in
  let move := newAction "MOVE" "u1" None 0 0 in
  let unit' := snd (fst (snd (spendAP newSystem unit move))) in
  currentAP unit' == currentAP unit - 1 /\ hasActedThisTurn unit' = true.
Proof.
  cbv zeta.
  pose proof (C7_afford_is_pure_and_spend_is_guarded
                newSystem (Sample.recruit "u1")
                (newAction "MOVE" "u1" None 0 0)) as H.
  cbv zeta in H.
  destruct H as (_ & _ & _ & _ & _ & Hspend & _).
  destruct (Hspend eq_refl) as (Hap & _ & Hacted & _).
  split; [|exact Hacted].
  rewrite Hap. vm_compute. reflexivity.
Defined.
End APFacts.

Module MatchFacts.
Import Units Match.
Local Open Scope Z_scope.

Lemma outOfBounds_false (s : CombatState) (x y : Z) :
  outOfBounds s x y = false <->
  0 <= x < mapWidth s /\ 0 <= y < mapHeight s.
Proof.
  unfold outOfBounds. rewrite !orb_false_iff.
  rewrite !Z.ltb_ge, !Z.geb_leb, !Z.leb_gt. lia.
Qed.

Lemma moveUnit_failure_unchanged (s : CombatState) (unitId : string) (x y : Z) :
  fst (moveUnit s unitId x y) = false -> snd (moveUnit s unitId x y) = s.
Proof.
  unfold moveUnit. destruct (getUnit s unitId); [|reflexivity].
  destruct (outOfBounds s x y); [reflexivity|].
  destruct (unitPositions s !! (x, y)); [reflexivity | discriminate].
Qed.

Lemma moveUnit_success_iff (s : CombatState) (unitId : string) (x y : Z) :
  fst (moveUnit s unitId x y) = true <->
  is_Some (units s !! unitId) /\
  (0 <= x < mapWidth s /\ 0 <= y < mapHeight s) /\
  unitPositions s !! (x, y) = None.
Proof.
  unfold moveUnit, getUnit. rewrite <- outOfBounds_false.
  destruct (units s !! unitId) as [u|] eqn:Eu.
  - destruct (outOfBounds s x y).
    + split; [discriminate | intros (_ & H & _); discriminate].
    + destruct (unitPositions s !! (x, y)) eqn:Ep.
      * split; [discriminate | intros (_ & _ & H); discriminate].
      * split; [intros _; eauto | reflexivity].
  - split; [discriminate | intros ([u Hu] & _); discriminate].
Qed.

(** When [deployUnit] refuses, nothing in the match state changes. *)
Lemma deployUnit_failure_unchanged (s : CombatState) (unitId : string) (x y : Z) :
  fst (deployUnit s unitId x y) = false -> snd (deployUnit s unitId x y) = s.
Proof.
  unfold deployUnit.
  destruct (negb (String.eqb (phase s) "DEPLOYMENT")); [reflexivity|].
  destruct (getUnit s unitId); [|reflexivity].
  destruct (bool_decide (unitId ∈ deployedUnits s)); [reflexivity|].
  pose proof (moveUnit_failure_unchanged s unitId x y) as Hm.
  destruct (moveUnit s unitId x y) as [[|] s1]; cbn [fst snd] in *;
    [discriminate | intros _; apply Hm; reflexivity].
Qed.

(** The conditions under which [deployUnit] accepts: phase, existence, not
    yet deployed, bounds and occupancy; the terrain is not among them. *)
Lemma deployUnit_success_iff (s : CombatState) (unitId : string) (x y : Z) :
  fst (deployUnit s unitId x y) = true <->
  phase s = "DEPLOYMENT"%string /\
  is_Some (units s !! unitId) /\
  (unitId ∉ deployedUnits s) /\
  (0 <= x < mapWidth s /\ 0 <= y < mapHeight s) /\
  unitPositions s !! (x, y) = None.
Proof.
  unfold deployUnit.
  destruct (String.eqb (phase s) "DEPLOYMENT") eqn:Ephase; cbn [negb].
  - apply String.eqb_eq in Ephase.
    unfold getUnit at 1.
    destruct (units s !! unitId) as [u|] eqn:Eu.
    + destruct (bool_decide (unitId ∈ deployedUnits s)) eqn:Edep.
      * apply bool_decide_eq_true in Edep.
        split; [discriminate | intros (_ & _ & H & _); contradiction].
      * apply bool_decide_eq_false in Edep.
        pose proof (moveUnit_success_iff s unitId x y) as Hm.
        destruct (moveUnit s unitId x y) as [[|] s1]; cbn [fst snd] in *.
        -- split; [intros _ | reflexivity].
           destruct Hm as [Hm _]. destruct (Hm eq_refl) as (_ & Hb & Hp). eauto 6.
        -- split; [discriminate|]. intros (_ & Hu & _ & Hb & Hp).
           destruct Hm as [_ Hm]. apply Hm. rewrite Eu. auto.
    + split; [discriminate | intros (_ & [u Hu] & _); discriminate].
  - apply String.eqb_neq in Ephase.
    split; [discriminate | intros (H & _); contradiction].
Qed.

Lemma deployUnit_success_effect (s : CombatState) (unitId : string) (x y : Z) :
  fst (deployUnit s unitId x y) = true ->
  let s' := snd (deployUnit s unitId x y) in
  (unitId ∈ deployedUnits s') /\
  unitPositions s' !! (x, y) = Some unitId /\
  (position <$> units s' !! unitId) = Some (x, y) /\
  phase s' = phase s /\ terrain s' = terrain s.
Proof.
  unfold deployUnit.
  destruct (negb (String.eqb (phase s) "DEPLOYMENT")); [discriminate|].
  destruct (getUnit s unitId) as [u0|]; [|discriminate].
  destruct (bool_decide (unitId ∈ deployedUnits s)); [discriminate|].
  unfold moveUnit.
  destruct (getUnit s unitId) as [u|]; [|discriminate].
  destruct (outOfBounds s x y); [discriminate|].
  destruct (unitPositions s !! (x, y)); [discriminate|].
  cbn [fst snd markDeployed deployedUnits unitPositions units phase terrain].
  intros _. repeat split.
  - set_solver.
  - apply lookup_insert_eq.
  - rewrite lookup_insert_eq. reflexivity.
Qed.

(** C8: the failing input.  In the deployment phase, with unit "u1" not yet
    deployed and tile (1, 1) in bounds and unoccupied but an impassable
    WATER tile (move cost Infinity, rejected by [isPositionPassable]),
    [deployUnit] returns true, records the unit as deployed and places it on
    the lake. *)
Theorem C8_deployUnit_accepts_impassable_tile :
  phase lakeside = "DEPLOYMENT"%string /\
  terrain lakeside !! (1, 1) = Some lake /\
  getMoveCost lake "normal" = Infinity /\
  isPositionPassable lakeside 1 1 "normal" = false /\
  unitPositions lakeside !! (1, 1) = None /\
  fst (deployUnit lakeside "u1" 1 1) = true /\
  ("u1"%string ∈ deployedUnits (snd (deployUnit lakeside "u1" 1 1))) /\
  unitPositions (snd (deployUnit lakeside "u1" 1 1)) !! (1, 1) = Some "u1"%string.
Proof.
  assert (Hu : units lakeside !! "u1"%string = Some (Sample.recruit "u1")).
  { unfold lakeside, addUnit, emptyMatch. cbn [units Sample.recruit unitId].
    rewrite lookup_empty. cbn [snd units]. apply lookup_insert_eq. }
  assert (Hpos : unitPositions lakeside !! (1, 1) = None).
  { unfold lakeside, addUnit, emptyMatch. cbn [units Sample.recruit unitId position].
    rewrite lookup_empty. cbn [snd unitPositions]. rewrite lookup_empty.
    rewrite lookup_insert_ne by discriminate. apply lookup_empty. }
  assert (Hter : terrain lakeside !! (1, 1) = Some lake).
  { unfold lakeside, addUnit, emptyMatch. cbn [units Sample.recruit unitId].
    rewrite lookup_empty. cbn [snd terrain]. apply lookup_singleton_eq. }
  assert (Hdep : fst (deployUnit lakeside "u1" 1 1) = true).
  { apply deployUnit_success_iff. split; [reflexivity|].
    split; [rewrite Hu; eauto|]. split; [|split; [|exact Hpos]].
    - unfold lakeside, addUnit, emptyMatch. cbn [units Sample.recruit unitId].
      rewrite lookup_empty. cbn [snd deployedUnits]. set_solver.
    - unfold lakeside, addUnit, emptyMatch. cbn [units Sample.recruit unitId].
      rewrite lookup_empty. cbn. lia. }
  split; [reflexivity|]. split; [exact Hter|]. split; [reflexivity|].
  split.
  { unfold isPositionPassable, getUnitAtPosition, getTerrainAt.
    rewrite Hpos, Hter.
    assert (outOfBounds lakeside 1 1 = false) as -> by reflexivity.
    reflexivity. }
  split; [exact Hpos|]. split; [exact Hdep|].
  destruct (deployUnit_success_effect lakeside "u1" 1 1 Hdep) as (H1 & H2 & _).
  split; assumption.
Qed.
End MatchFacts.

Module InitiativeFacts.
Import Units Initiative.
Local Open Scope Q_scope.

(** ** The entry computed for one unit *)

Lemma addModifier_wellFormed (u : Unit) (roll : Z) (e : InitiativeEntry)
    (m : Modifier) :
  wellFormed u roll e -> wellFormed u roll (addModifier e m).
Proof.
  intros (Hid & Htb & Hb & Hr & Hi & _).
  unfold wellFormed, addModifier, recalculateTotal. cbn.
  repeat split; try assumption; try reflexivity.
Qed.

Lemma fold_addModifier_wellFormed (u : Unit) (roll : Z) (l : list Modifier) :
  forall e, wellFormed u roll e -> wellFormed u roll (fold_left addModifier l e).
Proof.
  induction l as [|m l IH]; intros e He; [exact He|].
  cbn. apply IH. now apply addModifier_wellFormed.
Qed.

Lemma applyStatusEffectModifiers_wellFormed (u v : Unit) (roll : Z)
    (e : InitiativeEntry) :
  wellFormed u roll e -> wellFormed u roll (applyStatusEffectModifiers v e).
Proof.
  unfold applyStatusEffectModifiers. generalize (statusEffects v) as l.
  intros l. revert e. induction l as [|x l IH]; intros e He; [exact He|].
  cbn [fold_left]. apply IH.
  set (e1 := if Qeq_bool _ 0 then e else _).
  assert (H1 : wellFormed u roll e1).
  { subst e1. destruct (Qeq_bool _ 0); [exact He|]. now apply addModifier_wellFormed. }
  clearbody e1.
  destruct (Str.oneOf _ _); [apply addModifier_wellFormed; exact H1|].
  destruct (Str.oneOf _ _); [apply addModifier_wellFormed; exact H1|].
  destruct (Str.oneOf _ _); [apply addModifier_wellFormed; exact H1|].
  exact H1.
Qed.

Lemma applyEquipmentModifiers_wellFormed (u v : Unit) (roll : Z)
    (e : InitiativeEntry) :
  wellFormed u roll e -> wellFormed u roll (applyEquipmentModifiers v e).
Proof.
  unfold applyEquipmentModifiers. generalize (equipment v) as l.
  intros l. revert e. induction l as [|x l IH]; intros e He; [exact He|].
  cbn [fold_left]. apply IH.
  set (e1 := match Obj.prop _ _ with Some _ => _ | None => _ end).
  assert (H1 : wellFormed u roll e1).
  { subst e1. destruct (Obj.prop _ _) as [agl|]; [|exact He].
    destruct (Qeq_bool agl 0); [exact He|]. now apply addModifier_wellFormed. }
  clearbody e1. clear He. revert e1 H1.
  induction (specialEffects x) as [|s ss IHs]; intros e1 H1; [exact H1|].
  cbn [fold_left]. apply IHs.
  destruct (String.eqb _ _); [now apply addModifier_wellFormed | exact H1].
Qed.

Lemma calculateUnitInitiative_spec (u : Unit) (rng : Rng.DeterministicRNG)
    (player : string) (bonuses : list Modifier) :
  exists e roll,
    calculateUnitInitiative u rng player bonuses = Some (e, snd (Rng.nextRaw rng)) /\
    roll = (1 + fst (Rng.nextRaw rng) mod 20)%Z /\
    (1 <= roll <= 20)%Z /\
    wellFormed u roll e.
Proof.
  unfold calculateUnitInitiative, Rng.rollD20, Rng.randInt.
  change (1 >? 20)%Z with false. cbv iota.
  destruct (Rng.nextRaw rng) as [v rng'] eqn:Eraw.
  cbn [mbind option_bind fst snd].
  eexists _, (1 + v mod (20 - 1 + 1))%Z. split; [reflexivity|].
  split; [reflexivity|].
  split; [pose proof (Z.mod_pos_bound v 20 eq_refl); change (20 - 1 + 1)%Z with 20%Z; lia|].
  apply fold_addModifier_wellFormed.
  apply applyEquipmentModifiers_wellFormed.
  apply applyStatusEffectModifiers_wellFormed.
  unfold wellFormed. cbn. repeat split; try reflexivity. lra.
Qed.

(** One well-formed entry per unit, in list order, one d20 draw each. *)
Lemma collectEntries_spec (options : Options) (units : list Unit) :
  forall rng, exists entries rng',
    collectEntries units rng options = Some (entries, rng') /\
    Forall2 (fun u e => exists roll, (1 <= roll <= 20)%Z /\ wellFormed u roll e)
            units entries /\
    Rng.callCount rng' = (Rng.callCount rng + Z.of_nat (length units))%Z.
Proof.
  induction units as [|u rest IH]; intros rng.
  - exists [], rng. cbn. repeat split; [constructor | lia].
  - cbn [collectEntries].
    destruct (calculateUnitInitiative_spec u rng
                (match getPlayerForUnit options with
                 | Some f => f (unitId u) | None => "unknown"%string end)
                (match getInitiativeModifiers options with
                 | Some f => f (unitId u) | None => [] end))
      as (e & roll & Heq & _ & Hroll & Hwf).
    rewrite Heq. cbn [mbind option_bind].
    destruct (IH (snd (Rng.nextRaw rng))) as (entries & rng' & Hrest & Hall & Hcc).
    rewrite Hrest. cbn [mbind option_bind].
    exists (e :: entries), rng'. split; [reflexivity|]. split.
    + constructor; [exists roll; auto | exact Hall].
    + rewrite Hcc. cbn [Rng.nextRaw snd Rng.callCount length]. lia.
Qed.

Lemma wellFormed_ids (units : list Unit) (entries : list InitiativeEntry) :
  Forall2 (fun u e => exists roll, (1 <= roll <= 20)%Z /\ wellFormed u roll e)
          units entries ->
  map entryUnitId entries = map unitId units.
Proof.
  induction 1 as [|u e us es (roll & _ & Hid & _) _ IH]; [reflexivity|].
  cbn. now rewrite Hid, IH.
Qed.

(** ** The comparator and the sort *)

Section Order.

Variable localeCompare : string -> string -> comparison.

(** The id comparison is a strict total order on strings. *)
Hypothesis localeCompare_eq :
  forall a b : string, localeCompare a b = Eq <-> a = b.
Hypothesis localeCompare_antisym :
  forall a b : string, localeCompare b a = CompOpp (localeCompare a b).
Hypothesis localeCompare_trans :
  forall a b c : string,
    localeCompare a b = Lt -> localeCompare b c = Lt -> localeCompare a c = Lt.

Local Abbreviation compareEntries := (Initiative.compareEntries localeCompare).
Local Abbreviation ahead := (Initiative.ahead localeCompare).
Local Abbreviation insertEntry := (Initiative.insertEntry localeCompare).
Local Abbreviation sortEntries := (Initiative.sortEntries localeCompare).

Lemma Qeq_bool_false (x y : Q) : Qeq_bool x y = false -> ~ x == y.
Proof. apply Qeq_bool_neq. Qed.

Lemma compareEntries_Lt (a b : InitiativeEntry) :
  compareEntries a b = Lt <-> ahead a b.
Proof using Type.
  unfold Initiative.compareEntries, Initiative.ahead.
  destruct (Qeq_bool (totalInitiative a) (totalInitiative b)) eqn:Et; cbn [negb].
  - apply Qeq_bool_iff in Et.
    destruct (Qeq_bool (tiebreaker a) (tiebreaker b)) eqn:Eb; cbn [negb].
    + apply Qeq_bool_iff in Eb. split.
      * intros H. right. split; [exact Et|]. right. split; [exact Eb | exact H].
      * intros [H | [_ [H | [_ H]]]]; [lra | lra | exact H].
    + apply Qeq_bool_false in Eb. rewrite <- Qlt_alt. split.
      * intros H. right. split; [exact Et|]. left. exact H.
      * intros [H | [_ [H | [H _]]]]; [lra | exact H | contradiction].
  - apply Qeq_bool_false in Et. rewrite <- Qlt_alt. split.
    + intros H. left. exact H.
    + intros [H | [H _]]; [exact H | contradiction].
Qed.

Lemma compareEntries_Gt (a b : InitiativeEntry) :
  compareEntries a b = Gt <-> ahead b a.
Proof using localeCompare_antisym.
  unfold Initiative.compareEntries, Initiative.ahead.
  destruct (Qeq_bool (totalInitiative a) (totalInitiative b)) eqn:Et; cbn [negb].
  - apply Qeq_bool_iff in Et.
    destruct (Qeq_bool (tiebreaker a) (tiebreaker b)) eqn:Eb; cbn [negb].
    + apply Qeq_bool_iff in Eb.
      assert (Hl : localeCompare (entryUnitId a) (entryUnitId b) = Gt <->
                   localeCompare (entryUnitId b) (entryUnitId a) = Lt).
      { rewrite (localeCompare_antisym (entryUnitId a) (entryUnitId b)).
        destruct (localeCompare (entryUnitId a) (entryUnitId b)); cbn;
          split; congruence. }
      rewrite Hl. split.
      * intros H. right. split; [lra|]. right. split; [lra | exact H].
      * intros [H | [_ [H | [_ H]]]]; [lra | lra | exact H].
    + apply Qeq_bool_false in Eb. rewrite <- Qgt_alt. split.
      * intros H. right. split; [lra|]. left. exact H.
      * intros [H | [_ [H | [H _]]]]; [lra | exact H | exfalso; apply Eb; lra].
  - apply Qeq_bool_false in Et. rewrite <- Qgt_alt. split.
    + intros H. left. exact H.
    + intros [H | [H _]]; [exact H | exfalso; apply Et; lra].
Qed.

Lemma compareEntries_Eq (a b : InitiativeEntry) :
  compareEntries a b = Eq -> entryUnitId a = entryUnitId b.
Proof using localeCompare_eq.
  unfold Initiative.compareEntries.
  destruct (Qeq_bool (totalInitiative a) (totalInitiative b)) eqn:Et; cbn [negb].
  - destruct (Qeq_bool (tiebreaker a) (tiebreaker b)) eqn:Eb; cbn [negb].
    + apply localeCompare_eq.
    + apply Qeq_bool_false in Eb. rewrite <- Qeq_alt. intros H. exfalso. apply Eb. lra.
  - apply Qeq_bool_false in Et. rewrite <- Qeq_alt. intros H. exfalso. apply Et. lra.
Qed.

Lemma ahead_trans (a b c : InitiativeEntry) :
  ahead a b -> ahead b c -> ahead a c.
Proof using localeCompare_trans.
  unfold Initiative.ahead.
  intros [H1 | [E1 [H1 | [F1 L1]]]] [H2 | [E2 [H2 | [F2 L2]]]];
    try (left; lra);
    try (right; split; [lra|]; left; lra).
  right. split; [lra|]. right. split; [lra|].
  eapply localeCompare_trans; eassumption.
Qed.

Lemma ahead_asym (a b : InitiativeEntry) : ahead a b -> ahead b a -> False.
Proof using localeCompare_antisym.
  unfold Initiative.ahead.
  intros [H1 | [E1 [H1 | [F1 L1]]]] [H2 | [E2 [H2 | [F2 L2]]]]; try lra.
  rewrite (localeCompare_antisym (entryUnitId a) (entryUnitId b)), L1 in L2.
  discriminate.
Qed.


(** Entries of different units never tie. *)
Lemma ahead_total (a b : InitiativeEntry) :
  entryUnitId a <> entryUnitId b -> ahead a b \/ ahead b a.
Proof using localeCompare_eq localeCompare_antisym.
  intros Hne. destruct (compareEntries a b) eqn:E.
  - exfalso. apply Hne. now apply compareEntries_Eq.
  - left. now apply compareEntries_Lt.
  - right. now apply compareEntries_Gt.
Qed.

Lemma insertEntry_perm (x : InitiativeEntry) (l : list InitiativeEntry) :
  Permutation (insertEntry x l) (x :: l).
Proof using Type.
  induction l as [|y l IH]; [reflexivity|]. cbn.
  destruct (compareEntries x y); try reflexivity.
  rewrite IH. apply perm_swap.
Qed.

Lemma sortEntries_perm (l : list InitiativeEntry) : Permutation (sortEntries l) l.
Proof using Type.
  induction l as [|x l IH]; [reflexivity|]. cbn.
  rewrite insertEntry_perm. now constructor.
Qed.

Lemma insertEntry_sorted (x : InitiativeEntry) (l : list InitiativeEntry) :
  StronglySorted ahead l ->
  Forall (fun y => entryUnitId x <> entryUnitId y) l ->
  StronglySorted ahead (insertEntry x l).
Proof using localeCompare_eq localeCompare_antisym localeCompare_trans.
  induction l as [|y l IH]; intros Hs Hne.
  - cbn. constructor; constructor.
  - apply StronglySorted_inv in Hs as [Hs Hy].
    apply Forall_cons_iff in Hne as [Hxy Hne]. cbn.
    destruct (compareEntries x y) eqn:E.
    + exfalso. apply Hxy. now apply compareEntries_Eq.
    + apply compareEntries_Lt in E. constructor; [constructor; assumption|].
      constructor; [exact E|].
      eapply Forall_impl; [exact Hy|]. intros z Hz. cbn in Hz.
      eapply ahead_trans; eassumption.
    + apply compareEntries_Gt in E. constructor; [apply IH; assumption|].
      eapply Permutation_Forall; [symmetry; apply insertEntry_perm|].
      constructor; assumption.
Qed.

Lemma sortEntries_sorted (l : list InitiativeEntry) :
  List.NoDup (map entryUnitId l) -> StronglySorted ahead (sortEntries l).
Proof using localeCompare_eq localeCompare_antisym localeCompare_trans.
  induction l as [|x l IH]; intros Hnd; [constructor|].
  cbn in Hnd. apply List.NoDup_cons_iff in Hnd as [Hx Hnd]. cbn.
  apply insertEntry_sorted; [apply IH; exact Hnd|].
  eapply Permutation_Forall; [symmetry; apply sortEntries_perm|].
  apply List.Forall_forall. intros y Hy Heq. apply Hx. rewrite Heq.
  apply in_map. exact Hy.
Qed.

(** ** Turn indices *)

Lemma assignTurnIndices_map (l : list InitiativeEntry) :
  forall k, map (fun e => setTurnIndex e 0) (assignTurnIndices l k)
            = map (fun e => setTurnIndex e 0) l.
Proof using Type.
  induction l as [|e l IH]; intros k; [reflexivity|]. cbn. now rewrite IH.
Qed.


Lemma assignTurnIndices_in (l : list InitiativeEntry) :
  forall k e, In e (assignTurnIndices l k) ->
              exists e0 i, In e0 l /\ e = setTurnIndex e0 i.
Proof using Type.
  induction l as [|x l IH]; intros k e He; [contradiction|].
  destruct He as [<- | He].
  - exists x, k. split; [now left | reflexivity].
  - destruct (IH _ _ He) as (e0 & i & Hin & Heq).
    exists e0, i. split; [now right | exact Heq].
Qed.


Lemma ahead_setTurnIndex (a b : InitiativeEntry) (i j : Z) :
  ahead (setTurnIndex a i) (setTurnIndex b j) <-> ahead a b.
Proof using Type. reflexivity. Qed.

Lemma assignTurnIndices_ahead (a : InitiativeEntry) (i : Z)
    (l : list InitiativeEntry) :
  forall k, Forall (ahead a) l ->
            Forall (ahead (setTurnIndex a i)) (assignTurnIndices l k).
Proof using Type.
  induction l as [|y l IH]; intros k Ha; [constructor|].
  apply Forall_cons_iff in Ha as [Hy Ha]. cbn. constructor.
  - apply ahead_setTurnIndex. exact Hy.
  - apply IH. exact Ha.
Qed.

Lemma assignTurnIndices_sorted (l : list InitiativeEntry) :
  forall k, StronglySorted ahead l -> StronglySorted ahead (assignTurnIndices l k).
Proof using Type.
  induction l as [|x l IH]; intros k Hs; [constructor|].
  apply StronglySorted_inv in Hs as [Hs Hx]. cbn.
  constructor; [apply IH; exact Hs|].
  apply assignTurnIndices_ahead. exact Hx.
Qed.

Lemma assignTurnIndices_ids (l : list InitiativeEntry) :
  forall k, map entryUnitId (assignTurnIndices l k) = map entryUnitId l.
Proof using Type.
  induction l as [|e l IH]; intros k; [reflexivity|]. cbn. now rewrite IH.
Qed.

(** A list sorted by a strict total order has only one sorted arrangement. *)
Lemma sorted_arrangement_unique (l1 : list InitiativeEntry) :
  forall l2,
    StronglySorted ahead l1 -> StronglySorted ahead l2 ->
    Permutation l1 l2 -> l1 = l2.
Proof using localeCompare_antisym.
  induction l1 as [|x l1 IH]; intros l2 H1 H2 Hp.
  - apply Permutation_nil in Hp. now subst.
  - destruct l2 as [|y l2]; [apply Permutation_sym, Permutation_nil in Hp; discriminate|].
    apply StronglySorted_inv in H1 as [H1 Hx].
    apply StronglySorted_inv in H2 as [H2 Hy].
    assert (Hxy : x = y).
    { assert (Hin : In x (y :: l2)) by (eapply Permutation_in; [exact Hp | now left]).
      destruct Hin as [Heq | Hin]; [now symmetry|].
      assert (Hin' : In y (x :: l1))
        by (eapply Permutation_in; [symmetry; exact Hp | now left]).
      destruct Hin' as [Heq | Hin']; [exact Heq|].
      rewrite List.Forall_forall in Hx, Hy.
      exfalso. exact (ahead_asym x y (Hx y Hin') (Hy x Hin)). }
    subst y. f_equal. apply IH; try assumption.
    eapply Permutation_cons_inv. exact Hp.
Qed.

End Order.

(** ** The laws hold for the code-unit order on strings *)

Lemma ascii_compare_trans (a b c : ascii) :
  Ascii.compare a b = Lt -> Ascii.compare b c = Lt -> Ascii.compare a c = Lt.
Proof.
  unfold Ascii.compare. rewrite !N.compare_lt_iff. lia.
Qed.

Lemma ascii_compare_eq (a b : ascii) : Ascii.compare a b = Eq -> a = b.
Proof.
  unfold Ascii.compare. intros H. apply N.compare_eq in H.
  rewrite <- (ascii_N_embedding a), <- (ascii_N_embedding b). now rewrite H.
Qed.

Lemma ascii_compare_refl (a : ascii) : Ascii.compare a a = Eq.
Proof. unfold Ascii.compare. apply N.compare_refl. Qed.

Lemma string_compare_refl (s : string) : String.compare s s = Eq.
Proof.
  induction s as [|c s IH]; [reflexivity|]. cbn. now rewrite ascii_compare_refl.
Qed.

Lemma string_compare_eq (a b : string) : String.compare a b = Eq <-> a = b.
Proof.
  split; [apply String.compare_eq_iff | intros ->; apply string_compare_refl].
Qed.

Lemma string_compare_trans (a : string) :
  forall b c,
    String.compare a b = Lt -> String.compare b c = Lt -> String.compare a c = Lt.
Proof.
  induction a as [|x a IH]; intros [|y b] [|z c]; cbn; try congruence.
  destruct (Ascii.compare x y) eqn:Exy; try discriminate.
  - apply ascii_compare_eq in Exy. subst y.
    destruct (Ascii.compare x z) eqn:Exz; try congruence. apply IH.
  - destruct (Ascii.compare y z) eqn:Eyz; try discriminate.
    + apply ascii_compare_eq in Eyz. subst z. now rewrite Exy.
    + now rewrite (ascii_compare_trans _ _ _ Exy Eyz).
Qed.

(** Two recruits roll 9 and 8: "bravo" (24) goes ahead of "alpha" (23); a
    +1 bonus for "alpha" ties the totals and the tiebreakers, and the id
    decides. *)
Example initiative_samples :
  let units := [Sample.recruit "bravo"; Sample.recruit "alpha"] in
  let bonus := mkOptions None
                 (Some (fun id => if String.eqb id "alpha"
                                  then [mkModifier "rally" 1 "misc"] else [])) in
  let summary o :=
    match o with
    | Some (order, _) =>
        map (fun e => (entryUnitId e, Qred (totalInitiative e),
                       Qred (tiebreaker e), turnIndex e)) order
    | None => []
    end in
  summary (calculateInitiativeOrder String.compare units Sample.rng12345
                                    (mkOptions None None))
    = [("bravo"%string, 24, 7, 0%Z); ("alpha"%string, 23, 7, 1%Z)] /\
  summary (calculateInitiativeOrder String.compare units Sample.rng12345 bonus)
    = [("alpha"%string, 24, 7, 0%Z); ("bravo"%string, 24, 7, 1%Z)] /\
  calculateInitiativeOrder String.compare [] Sample.rng12345 (mkOptions None None)
    = None.
Proof. vm_compute. repeat split. Qed.

Section Collation.

Variable localeCompare : string -> string -> comparison.

(** The id comparison is consistent: swapping the arguments swaps the sign,
    and "before" is transitive.  It may be 0 for different strings. *)
Hypothesis localeCompare_antisym :
  forall a b : string, localeCompare b a = CompOpp (localeCompare a b).
Hypothesis localeCompare_trans :
  forall a b c : string,
    localeCompare a b = Lt -> localeCompare b c = Lt -> localeCompare a c = Lt.

Local Abbreviation compareEntries := (Initiative.compareEntries localeCompare).
Local Abbreviation ahead := (Initiative.ahead localeCompare).
Local Abbreviation insertEntry := (Initiative.insertEntry localeCompare).
Local Abbreviation sortEntries := (Initiative.sortEntries localeCompare).






End Collation.

(** ** A comparison that is 0 on canonically equivalent ids *)



(** The two spellings are different ids that the comparison does not tell
    apart. *)
Example equivalent_spellings :
  precomposed <> decomposed /\
  String.eqb precomposed decomposed = false /\
  canonicalCompare precomposed decomposed = Eq /\
  canonicalCompare decomposed precomposed = Eq /\
  canonicalCompare "alpha" "bravo" = Lt.
Proof. repeat split; try reflexivity. discriminate. Qed.

(** With the bonus on the second unit of the list, the two spellings tie
    in either input order, and the entries come out in the order in which
    the units went in. *)
Example tied_entries_follow_input_order :
  let bonusFor (id : string) :=
    mkOptions None
      (Some (fun x => if String.eqb x id
                      then [mkModifier "rally" 1 "misc"] else [])) in
  let ids o :=
    match o with
    | Some (order, _) =>
        map (fun e => (entryUnitId e, Qred (totalInitiative e),
                       Qred (tiebreaker e))) order
    | None => []
    end in
  ids (calculateInitiativeOrder canonicalCompare
         [Sample.recruit precomposed; Sample.recruit decomposed]
         Sample.rng12345 (bonusFor decomposed))
    = [(precomposed, 24, 7); (decomposed, 24, 7)] /\
  ids (calculateInitiativeOrder canonicalCompare
         [Sample.recruit decomposed; Sample.recruit precomposed]
         Sample.rng12345 (bonusFor precomposed))
    = [(decomposed, 24, 7); (precomposed, 24, 7)].
Proof. vm_compute. repeat split. Qed.


End InitiativeFacts.

Module HitFacts.
Import Units Match Hit.
Local Open Scope Q_scope.

(** ** How each step of the situational layer moves the two flags *)

Lemma positional_flags (attacker defender : Unit) (s : CombatState) (m : Modifiers) :
  let m' := calculatePositionalModifiers attacker defender s m in
  attackerAdvantage m' =
    (attackerAdvantage m
     || match heightDifference attacker defender s with
        | Some d => Js.gtb d 0
        | None => false
        end)%bool /\
  attackerDisadvantage m' =
    (attackerDisadvantage m
     || match heightDifference attacker defender s with
        | Some d => negb (Js.gtb d 0) && Js.ltb d 0
        | None => false
        end)%bool /\
  coverBonus m' = coverBonus m.
Proof.
  unfold calculatePositionalModifiers, heightDifference.
  destruct (terrainOf s attacker) as [a|], (terrainOf s defender) as [d|]; cbn;
    rewrite ?orb_false_r; auto.
  destruct (Js.gtb (tileHeight a - tileHeight d) 0); cbn;
    rewrite ?orb_true_r, ?orb_false_r; auto.
  destruct (Js.ltb (tileHeight a - tileHeight d) 0); cbn;
    rewrite ?orb_true_r, ?orb_false_r; auto.
Qed.

Lemma terrain_flags (attacker defender : Unit) (s : CombatState) (m : Modifiers) :
  let m' := calculateTerrainModifiers attacker defender s m in
  attackerAdvantage m' = attackerAdvantage m /\
  attackerDisadvantage m' =
    (attackerDisadvantage m
     || match terrainOf s defender with
        | Some t =>
            (providesCover t && Js.geb (coverValue t) 0.5)
            || (String.eqb (tileType t) "FOREST" && isRangedAttack attacker defender)
        | None => false
        end)%bool /\
  coverBonus m' =
    match terrainOf s defender with
    | Some t => if providesCover t then coverValue t else coverBonus m
    | None => coverBonus m
    end.
Proof.
  unfold calculateTerrainModifiers.
  destruct (terrainOf s defender) as [t|]; cbn; rewrite ?orb_false_r; auto.
  destruct (providesCover t), (Js.geb (coverValue t) 0.5),
    (String.eqb (tileType t) "FOREST" && isRangedAttack attacker defender)%bool;
    cbn; rewrite ?orb_true_r, ?orb_false_r; auto.
Qed.

Lemma attackerStep_flags (m : Modifiers) (e : StatusEffect) :
  attackerAdvantage (attackerStep m e) =
    (attackerAdvantage m || grantsAdvantageToAttacker e)%bool /\
  attackerDisadvantage (attackerStep m e) =
    (attackerDisadvantage m || hindersAttacker e)%bool /\
  coverBonus (attackerStep m e) = coverBonus m.
Proof.
  unfold attackerStep, grantsAdvantageToAttacker, hindersAttacker. cbv zeta.
  set (name := Str.toLowerCase (effectName e)).
  set (b1 := Str.oneOf name ["blessed"; "inspired"]%string).
  set (b2 := Str.oneOf name ["cursed"; "weakened"; "blinded"]%string).
  destruct b1, b2; cbn; rewrite ?orb_true_r, ?orb_false_r; auto.
Qed.

Lemma defenderStep_flags (m : Modifiers) (e : StatusEffect) :
  attackerAdvantage (defenderStep m e) =
    (attackerAdvantage m || exposesDefender e)%bool /\
  attackerDisadvantage (defenderStep m e) =
    (attackerDisadvantage m || protectsDefender e)%bool /\
  coverBonus (defenderStep m e) = coverBonus m.
Proof.
  unfold defenderStep, exposesDefender, protectsDefender. cbv zeta.
  set (name := Str.toLowerCase (effectName e)).
  set (b1 := Str.oneOf name ["marked"; "exposed"]%string).
  set (b2 := Str.oneOf name ["dodging"; "shielded"]%string).
  set (b3 := Str.oneOf name ["stunned"; "paralyzed"]%string).
  destruct b1, b2, b3; cbn; rewrite ?orb_true_r, ?orb_false_r; auto.
Qed.

Lemma fold_step_flags (step : Modifiers -> StatusEffect -> Modifiers)
    (adv dis : StatusEffect -> bool) :
  (forall m e,
      attackerAdvantage (step m e) = (attackerAdvantage m || adv e)%bool /\
      attackerDisadvantage (step m e) = (attackerDisadvantage m || dis e)%bool /\
      coverBonus (step m e) = coverBonus m) ->
  forall l m,
    attackerAdvantage (fold_left step l m) =
      (attackerAdvantage m || existsb adv l)%bool /\
    attackerDisadvantage (fold_left step l m) =
      (attackerDisadvantage m || existsb dis l)%bool /\
    coverBonus (fold_left step l m) = coverBonus m.
Proof.
  intros Hstep l. induction l as [|e l IH]; intros m; cbn.
  - rewrite !orb_false_r. auto.
  - destruct (IH (step m e)) as (Ha & Hd & Hc).
    destruct (Hstep m e) as (Ha' & Hd' & Hc').
    rewrite Ha, Hd, Hc, Ha', Hd', Hc', !orb_assoc. auto.
Qed.

Lemma status_flags (attacker defender : Unit) (m : Modifiers) :
  let m' := calculateStatusModifiers attacker defender m in
  attackerAdvantage m' =
    (attackerAdvantage m
     || existsb grantsAdvantageToAttacker (statusEffects attacker)
     || existsb exposesDefender (statusEffects defender))%bool /\
  attackerDisadvantage m' =
    (attackerDisadvantage m
     || existsb hindersAttacker (statusEffects attacker)
     || existsb protectsDefender (statusEffects defender))%bool /\
  coverBonus m' = coverBonus m.
Proof.
  unfold calculateStatusModifiers.
  destruct (fold_step_flags defenderStep exposesDefender protectsDefender
              defenderStep_flags (statusEffects defender)
              (fold_left attackerStep (statusEffects attacker) m)) as (Ha & Hd & Hc).
  destruct (fold_step_flags attackerStep grantsAdvantageToAttacker hindersAttacker
              attackerStep_flags (statusEffects attacker) m) as (Ha' & Hd' & Hc').
  cbv zeta. rewrite Ha, Hd, Hc, Ha', Hd', Hc'. auto.
Qed.

Section Geometry.

Variable atan2Degrees : Z -> Z -> Q.

Lemma facing_flags (attacker defender : Unit) (m : Modifiers) :
  let angle := calculateAttackAngle atan2Degrees (position attacker)
                 (position defender) (facing defender) in
  let m' := calculateFacingModifiers atan2Degrees attacker defender m in
  attackerAdvantage m' =
    (attackerAdvantage m || (Js.geb angle 135 && Qle_bool angle 225))%bool /\
  attackerDisadvantage m' = attackerDisadvantage m /\
  coverBonus m' = coverBonus m.
Proof using Type.
  unfold calculateFacingModifiers. cbv zeta.
  destruct (Js.geb _ 135 && Qle_bool _ 225)%bool;
    destruct ((Js.geb _ 45 && Qle_bool _ 135) || (Js.geb _ 225 && Qle_bool _ 315))%bool;
    cbn; rewrite ?orb_true_r, ?orb_false_r; auto.
Qed.

(** The flags computed by [calculate] are the disjunction of the sources
    present in the inputs. *)
Lemma calculate_flags (attacker defender : Unit) (s : CombatState) :
  let m := calculate atan2Degrees attacker defender s in
  attackerAdvantage m = advantageSource atan2Degrees attacker defender s /\
  attackerDisadvantage m = disadvantageSource attacker defender s /\
  coverBonus m =
    match terrainOf s defender with
    | Some t => if providesCover t then coverValue t else 0
    | None => 0
    end.
Proof using Type.
  unfold calculate, advantageSource, disadvantageSource. cbv zeta.
  destruct (facing_flags attacker defender
              (calculateStatusModifiers attacker defender
                 (calculateTerrainModifiers attacker defender s
                    (calculatePositionalModifiers attacker defender s noModifiers))))
    as (Ha4 & Hd4 & Hc4).
  destruct (status_flags attacker defender
              (calculateTerrainModifiers attacker defender s
                 (calculatePositionalModifiers attacker defender s noModifiers)))
    as (Ha3 & Hd3 & Hc3).
  destruct (terrain_flags attacker defender s
              (calculatePositionalModifiers attacker defender s noModifiers))
    as (Ha2 & Hd2 & Hc2).
  destruct (positional_flags attacker defender s noModifiers) as (Ha1 & Hd1 & Hc1).
  cbv zeta in *.
  rewrite Ha4, Ha3, Ha2, Ha1, Hd4, Hd3, Hd2, Hd1, Hc4, Hc3, Hc2, Hc1.
  cbn [attackerAdvantage attackerDisadvantage coverBonus noModifiers orb].
  auto.
Qed.

Lemma calculateHitChance_fields (attacker defender : Unit) (s : CombatState)
    (options : AttackOptions) :
  let m := calculate atan2Degrees attacker defender s in
  let hc := calculateHitChance atan2Degrees attacker defender s options in
  situationalModifiers hc = m /\
  rollType hc = rollTypeOf m /\
  baseHitChance hc =
    Qmax 0 ((inject_Z 20 - Qmax 1 (hcDefenseValue hc - hcAttackBonus hc) + 1)
            / inject_Z 20) /\
  effectiveHitChance hc =
    match rollTypeOf m with
    | Advantage => 1 - (1 - baseHitChance hc) * (1 - baseHitChance hc)
    | Disadvantage => baseHitChance hc * baseHitChance hc
    | Normal => baseHitChance hc
    end.
Proof using Type.
  unfold calculateHitChance. cbv zeta.
  destruct (if (optIsSpell options || _ || _)%bool then _ else _) as [ab dv].
  cbn [situationalModifiers rollType baseHitChance effectiveHitChance
       hcDefenseValue hcAttackBonus].
  unfold calculateHitProbabilities. cbn [normal effective].
  destruct (rollTypeOf _); auto.
Qed.

(** C6 (amended). The flags reported by the situational layer are exactly
    the disjunctions of the advantage and disadvantage sources.  If the
    defender's tile provides cover (positive cover value, and not a
    destroyed destructible tile) with cover value >= 0.5, the layer reports
    attacker disadvantage, and with no advantage source present the roll
    type is disadvantage and the previewed effective hit chance is the
    square of the normal single-roll chance.  Whenever an advantage source
    and a disadvantage source are both present the roll type is normal: at
    most one of advantage and disadvantage is ever in force. *)
Theorem C6_cover_disadvantage_and_cancellation :
  forall (attacker defender : Unit) (s : CombatState) (options : AttackOptions),
    let m := calculate atan2Degrees attacker defender s in
    let hc := calculateHitChance atan2Degrees attacker defender s options in
    let adv := advantageSource atan2Degrees attacker defender s in
    let dis := disadvantageSource attacker defender s in
    attackerAdvantage m = adv /\
    attackerDisadvantage m = dis /\
    situationalModifiers hc = m /\
    (forall tile : TerrainTile,
        terrainOf s defender = Some tile ->
        providesCover tile = true ->
        0.5 <= coverValue tile ->
        attackerDisadvantage m = true /\
        coverBonus m = coverValue tile /\
        (adv = false ->
         rollType hc = Disadvantage /\
         effectiveHitChance hc = baseHitChance hc * baseHitChance hc)) /\
    (adv = true -> dis = true ->
     rollType hc = Normal /\ effectiveHitChance hc = baseHitChance hc) /\
    (rollType hc = Advantage <-> adv = true /\ dis = false) /\
    (rollType hc = Disadvantage <-> dis = true /\ adv = false) /\
    (rollType hc = Normal <-> adv = dis).
Proof using Type.
  intros attacker defender s options m hc adv dis.
  destruct (calculate_flags attacker defender s) as (Ha & Hd & Hc).
  destruct (calculateHitChance_fields attacker defender s options)
    as (Hm & Hrt & _ & Heff).
  fold m in Ha, Hd, Hc, Hm, Hrt, Heff. fold hc in Hm, Hrt, Heff.
  fold adv in Ha. fold dis in Hd.
  assert (Hroll : rollType hc =
                  if (adv && negb dis)%bool then Advantage
                  else if (dis && negb adv)%bool then Disadvantage else Normal).
  { rewrite Hrt. unfold rollTypeOf. now rewrite Ha, Hd. }
  split; [exact Ha|]. split; [exact Hd|]. split; [exact Hm|].
  split.
  { intros tile Ht Hcover Hval.
    assert (Hdis : dis = true).
    { subst dis. unfold disadvantageSource. rewrite Ht, Hcover.
      assert (Js.geb (coverValue tile) 0.5 = true) as ->
          by (apply JsFacts.geb_true; exact Hval).
      cbn. now rewrite orb_true_r. }
    split; [now rewrite Hd|]. split; [now rewrite Hc, Ht, Hcover|].
    intros Hadv. rewrite Heff, Hrt. unfold rollTypeOf.
    rewrite Ha, Hd, Hadv, Hdis. cbn. auto. }
  split.
  { intros Hadv Hdis. rewrite Heff, Hrt. unfold rollTypeOf.
    rewrite Ha, Hd, Hadv, Hdis. cbn. auto. }
  rewrite Hroll. destruct adv, dis; cbn; repeat split; intros; intuition congruence.
Qed.

End Geometry.

Example intact_ruins_preview :
  let hc := calculateHitChance compassAtan2 attackerEast defenderAtOrigin
              (board ruins) (mkAttackOptions false false None) in
  rollType hc = Disadvantage /\
  Qeq_bool (hcDefenseValue hc) 13 = true /\
  Qeq_bool (baseHitChance hc) 0.5 = true /\
  Qeq_bool (effectiveHitChance hc) 0.25 = true.
Proof. vm_compute. repeat split. Qed.

(** C6, as stated, fails on a destroyed destructible tile: its cover value
    is still 0.6, no advantage source is present, yet the tile no longer
    provides cover, so the layer reports no disadvantage and the preview
    shows the plain single-roll chance 13/20, not its square. *)
Lemma C6_counterexample :
  let s := board rubble in
  let m := calculate compassAtan2 attackerEast defenderAtOrigin s in
  let hc := calculateHitChance compassAtan2 attackerEast defenderAtOrigin s
              (mkAttackOptions false false None) in
  (coverValue <$> terrainOf s defenderAtOrigin) = Some 0.6 /\
  advantageSource compassAtan2 attackerEast defenderAtOrigin s = false /\
  attackerDisadvantage m = false /\
  rollType hc = Normal /\
  Qeq_bool (baseHitChance hc) (13 # 20) = true /\
  Qeq_bool (effectiveHitChance hc) (13 # 20) = true /\
  Qeq_bool (effectiveHitChance hc) (baseHitChance hc * baseHitChance hc) = false.
Proof. vm_compute. repeat split. Qed.

Lemma C6_witness :
  let s := board ruins in
  let m := calculate compassAtan2 attackerEast defenderAtOrigin s in
  let hc := calculateHitChance compassAtan2 attackerEast defenderAtOrigin s
              (mkAttackOptions false false None) in
  attackerDisadvantage m = true /\
  rollType hc = Disadvantage /\
  effectiveHitChance hc = baseHitChance hc * baseHitChance hc.
Proof.
  cbv zeta.
  pose proof (C6_cover_disadvantage_and_cancellation compassAtan2
                attackerEast defenderAtOrigin (board ruins)
                (mkAttackOptions false false None)) as H.
  cbv zeta in H. destruct H as (_ & _ & _ & Hcover & _).
  destruct (Hcover ruins) as (Hdis & _ & Hsq).
  - vm_compute. reflexivity.
  - vm_compute. reflexivity.
  - vm_compute. discriminate.
  - destruct Hsq as (Hrt & Heff); [vm_compute; reflexivity|].
    split; [exact Hdis|]. split; [exact Hrt | exact Heff].
Defined.
End HitFacts.

Module DiceFacts.
Import Rng Dice.
Local Open Scope Z_scope.

(** ** One bounded draw *)

Lemma randInt_spec (min max : Z) (r : DeterministicRNG) :
  min <= max ->
  exists v, randInt min max r = Some (v, snd (nextRaw r)) /\ min <= v <= max.
Proof.
  intros H. unfold randInt. destruct (min >? max) eqn:E; [lia|].
  cbn [nextRaw snd]. eexists. split; [reflexivity|].
  pose proof (Z.mod_pos_bound (toUint32 (1664525 * state r + 1013904223))
                              (max - min + 1) ltac:(lia)).
  lia.
Qed.

Lemma randInt_error (min max : Z) (r : DeterministicRNG) :
  max < min -> randInt min max r = None.
Proof. intros H. unfold randInt. destruct (min >? max) eqn:E; [reflexivity|lia]. Qed.

Lemma nextRaw_counts (r : DeterministicRNG) :
  callCount (snd (nextRaw r)) = callCount r + 1 /\
  originalSeed (snd (nextRaw r)) = originalSeed r.
Proof. split; reflexivity. Qed.

Lemma rollD20_spec (r : DeterministicRNG) :
  exists v, rollD20 r = Some (v, snd (nextRaw r)) /\ 1 <= v <= 20.
Proof. apply randInt_spec. lia. Qed.

(** ** roll *)

Lemma rollLoop_spec (n : nat) (sides : Z) :
  1 <= sides ->
  forall total r, exists sum r',
    rollLoop n sides total r = Some (total + sum, r') /\
    Z.of_nat n <= sum <= Z.of_nat n * sides /\
    callCount r' = callCount r + Z.of_nat n /\
    originalSeed r' = originalSeed r.
Proof.
  intros Hs. induction n as [|n IH]; intros total r.
  - exists 0, r. cbn. repeat split; try lia. f_equal. f_equal. lia.
  - cbn [rollLoop].
    destruct (randInt_spec 1 sides r Hs) as (v & Hv & Hrange).
    rewrite Hv. cbn [mbind option_bind].
    destruct (IH (total + v) (snd (nextRaw r))) as (sum & r' & Heq & Hsum & Hcc & Hseed).
    exists (v + sum), r'. rewrite Heq.
    destruct (nextRaw_counts r) as [Hc Ho].
    repeat split; try nia; try congruence.
    f_equal. f_equal. lia.
Qed.

(** X1: [roll(count, sides)] rejects a count or a number of sides below one;
    otherwise it returns a total between [count] and [count * sides] and
    advances the generator by exactly [count] draws. *)
Theorem roll_total_within_dice_bounds :
  forall (count sides : Z) (r : DeterministicRNG),
    (count < 1 \/ sides < 1 -> roll count sides r = None) /\
    (1 <= count -> 1 <= sides ->
     exists total r',
       roll count sides r = Some (total, r') /\
       count <= total <= count * sides /\
       callCount r' = callCount r + count /\
       originalSeed r' = originalSeed r).
Proof.
  intros count sides r. split.
  - intros H. unfold roll.
    destruct (count <? 1) eqn:E1; [reflexivity|].
    destruct (sides <? 1) eqn:E2; [reflexivity|]. lia.
  - intros Hc Hs. unfold roll.
    destruct (count <? 1) eqn:E1; [lia|].
    destruct (sides <? 1) eqn:E2; [lia|]. cbn [orb].
    destruct (rollLoop_spec (Z.to_nat count) sides Hs 0 r)
      as (sum & r' & Heq & Hsum & Hcc & Hseed).
    exists sum, r'. rewrite Heq. rewrite Z2Nat.id in * by lia.
    repeat split; try lia; assumption.
Qed.

Lemma roll_total_within_dice_bounds_witness :
  exists total r',
    roll 3 6 Sample.rng12345 = Some (total, r') /\
    3 <= total <= 3 * 6 /\
    callCount r' = callCount Sample.rng12345 + 3 /\
    originalSeed r' = originalSeed Sample.rng12345.
Proof.
  apply (roll_total_within_dice_bounds 3 6 Sample.rng12345); lia.
Defined.

(** ** Advantage and disadvantage *)

(** X2: from one generator state, a roll with advantage and a roll with
    disadvantage draw the same two d20 faces and leave the same generator
    state; the advantage result is the larger face, the disadvantage result
    the smaller one, and a normal roll is the first face after a single
    draw. *)
Theorem advantage_and_disadvantage_share_two_rolls :
  forall r : DeterministicRNG,
    exists roll1 roll2 r1 r2,
      rollD20 r = Some (roll1, r1) /\
      rollD20 r1 = Some (roll2, r2) /\
      1 <= roll1 <= 20 /\ 1 <= roll2 <= 20 /\
      rollD20WithCondition "advantage" r =
        Some (D20.mkRoll (Z.max roll1 roll2) [roll1; roll2] true false, r2) /\
      rollD20WithCondition "disadvantage" r =
        Some (D20.mkRoll (Z.min roll1 roll2) [roll1; roll2] false true, r2) /\
      rollD20WithCondition "normal" r =
        Some (D20.mkRoll roll1 [roll1] false false, r1) /\
      Z.min roll1 roll2 <= roll1 <= Z.max roll1 roll2 /\
      callCount r1 = callCount r + 1 /\
      callCount r2 = callCount r + 2.
Proof.
  intros r.
  destruct (rollD20_spec r) as (v1 & H1 & Hr1).
  destruct (rollD20_spec (snd (nextRaw r))) as (v2 & H2 & Hr2).
  exists v1, v2, (snd (nextRaw r)), (snd (nextRaw (snd (nextRaw r)))).
  split; [exact H1|]. split; [exact H2|].
  split; [exact Hr1|]. split; [exact Hr2|].
  unfold rollD20WithCondition, rollWithAdvantage, rollWithDisadvantage.
  cbn [String.eqb Ascii.eqb Bool.eqb].
  rewrite H1. cbn [mbind option_bind]. rewrite H2. cbn [mbind option_bind].
  repeat split; try lia; cbn [nextRaw snd callCount]; lia.
Qed.

(** ** Percentile checks *)

(** X3: [percentileCheck] rejects targets outside [0, 100]; a 0% check
    never succeeds, a 100% check always succeeds, and a check that succeeds
    for one target succeeds for every larger target from the same state. *)
Theorem percentileCheck_extremes_and_monotone :
  forall (r : DeterministicRNG) (t1 t2 : Q),
    (((t1 < 0)%Q \/ (100 < t1)%Q) -> percentileCheck t1 r = None) /\
    fst <$> percentileCheck 0 r = Some false /\
    fst <$> percentileCheck 100 r = Some true /\
    ((0 <= t1)%Q -> (t1 <= t2)%Q -> (t2 <= 100)%Q ->
     fst <$> percentileCheck t1 r = Some true ->
     fst <$> percentileCheck t2 r = Some true).
Proof.
  intros r t1 t2.
  pose proof (RngFacts.random_unit_interval r) as [Hlo Hhi].
  assert (Hcheck : forall t : Q,
             (0 <= t)%Q -> (t <= 100)%Q ->
             fst <$> percentileCheck t r = Some (Js.ltb (fst (random r) * 100)%Q t)).
  { intros t H0 H100. unfold percentileCheck.
    destruct (Js.ltb t 0) eqn:E1; [apply JsFacts.ltb_true in E1; lra|].
    destruct (Js.gtb t 100) eqn:E2; [apply JsFacts.gtb_true in E2; lra|].
    cbn [orb]. destruct (random r) as [v r1]. reflexivity. }
  split; [|split; [|split]].
  - intros H. unfold percentileCheck.
    destruct (Js.ltb t1 0) eqn:E1; [reflexivity|].
    destruct (Js.gtb t1 100) eqn:E2; [reflexivity|].
    exfalso. destruct H as [H|H].
    + apply JsFacts.ltb_true in H. congruence.
    + apply JsFacts.gtb_true in H. congruence.
  - rewrite Hcheck by lra. f_equal.
    destruct (Js.ltb _ 0) eqn:E; [|reflexivity].
    apply JsFacts.ltb_true in E. lra.
  - rewrite Hcheck by lra. f_equal.
    apply JsFacts.ltb_true. lra.
  - intros H0 H12 H100. rewrite !Hcheck by lra.
    intros H.
    assert (H' : Js.ltb (fst (random r) * 100)%Q t1 = true) by congruence.
    f_equal. apply JsFacts.ltb_true in H'. apply JsFacts.ltb_true. lra.
Qed.

Lemma percentileCheck_extremes_and_monotone_witness :
  percentileCheck (-1) Sample.rng12345 = None /\
  fst <$> percentileCheck 75 Sample.rng12345 = Some true.
Proof.
  pose proof (percentileCheck_extremes_and_monotone Sample.rng12345 (-1) 0)
    as (Herr & _).
  pose proof (percentileCheck_extremes_and_monotone Sample.rng12345 50 75)
    as (_ & _ & _ & Hmono).
  split.
  - apply Herr. left. reflexivity.
  - apply Hmono; [discriminate | discriminate | discriminate |].
    vm_compute. reflexivity.
Defined.

(** ** Choices *)

(** X4: [choice] fails on an empty array; on a non-empty array it returns
    one of the array's elements, at an index within bounds, after exactly
    one draw. *)
Theorem choice_returns_a_member :
  forall (A : Type) (array : list A) (r : DeterministicRNG),
    (array = [] -> choice array r = None) /\
    (array <> [] ->
     exists (index : nat) (x : A),
       choice array r = Some (x, snd (nextRaw r)) /\
       array !! index = Some x /\
       (index < length array)%nat /\
       In x array).
Proof.
  intros A array r. split.
  - intros ->. reflexivity.
  - intros Hne. destruct array as [|a rest]; [congruence|].
    unfold choice.
    destruct (randInt_spec 0 (Z.of_nat (length (a :: rest)) - 1) r)
      as (v & Hv & Hrange); [cbn [length]; lia|].
    rewrite Hv. cbn [mbind option_bind].
    assert (Hlt : (Z.to_nat v < length (a :: rest))%nat) by lia.
    destruct (lookup_lt_is_Some_2 _ _ Hlt) as [x Hx].
    rewrite Hx. cbn [mbind option_bind].
    exists (Z.to_nat v), x. repeat split; try assumption.
    apply list_elem_of_In. eapply list_elem_of_lookup_2. exact Hx.
Qed.

Lemma choice_returns_a_member_witness :
  choice (@nil Z) Sample.rng12345 = None /\
  exists (index : nat) (x : Z),
    choice [10; 20; 30]%Z Sample.rng12345 = Some (x, snd (nextRaw Sample.rng12345)) /\
    [10; 20; 30]%Z !! index = Some x /\
    (index < 3)%nat /\ In x [10; 20; 30]%Z.
Proof.
  split.
  - apply (choice_returns_a_member Z [] Sample.rng12345). reflexivity.
  - apply (choice_returns_a_member Z [10; 20; 30]%Z Sample.rng12345). discriminate.
Defined.

(** ** Shuffles *)

Lemma swap_length {A : Type} (l : list A) (i j : nat) :
  length (swap l i j) = length l.
Proof.
  unfold swap. destruct (l !! i), (l !! j); try reflexivity.
  now rewrite !length_insert.
Qed.

Lemma swap_perm {A : Type} (l : list A) (i j : nat) : Permutation (swap l i j) l.
Proof.
  unfold swap. destruct (l !! i) as [ai|] eqn:Hi, (l !! j) as [aj|] eqn:Hj;
    try reflexivity.
  destruct (decide (i = j)) as [->|Hij].
  - rewrite list_insert_insert_eq.
    assert (ai = aj) by congruence. subst.
    rewrite list_insert_id by assumption. reflexivity.
  - symmetry.
    apply (Permutation_inj l) .
    split; [now rewrite !length_insert|].
    exists (fun k => if decide (k = i) then j else if decide (k = j) then i else k).
    split.
    + intros x y. repeat case_decide; congruence.
    + intros k. repeat case_decide; subst.
      * rewrite list_lookup_insert_eq; [congruence|].
        rewrite length_insert. eapply lookup_lt_Some; eassumption.
      * rewrite list_lookup_insert_ne by congruence.
        rewrite list_lookup_insert_eq; [congruence|].
        eapply lookup_lt_Some; eassumption.
      * rewrite !list_lookup_insert_ne by congruence. reflexivity.
Qed.

Lemma shuffleLoop_spec {A : Type} (i : nat) :
  forall (l : list A) (r : DeterministicRNG),
    exists l' r',
      shuffleLoop i l r = Some (l', r') /\
      Permutation l' l /\
      callCount r' = callCount r + Z.of_nat i /\
      originalSeed r' = originalSeed r.
Proof.
  induction i as [|k IH]; intros l r.
  - exists l, r. cbn. repeat split; [reflexivity | lia].
  - cbn [shuffleLoop].
    destruct (randInt_spec 0 (Z.of_nat (S k)) r) as (v & Hv & Hrange); [lia|].
    rewrite Hv. cbn [mbind option_bind].
    destruct (IH (swap l (S k) (Z.to_nat v)) (snd (nextRaw r)))
      as (l' & r' & Heq & Hperm & Hcc & Hseed).
    exists l', r'. rewrite Heq.
    destruct (nextRaw_counts r) as [Hc Ho].
    repeat split; [| lia | congruence].
    rewrite Hperm. apply swap_perm.
Qed.

(** X5: [shuffle] never fails; the result is a rearrangement of the input
    (same elements, same multiplicities), and the generator advances by one
    draw per position but the first: [length - 1] draws, none for arrays of
    at most one element. *)
Theorem shuffle_is_a_permutation :
  forall (A : Type) (array : list A) (r : DeterministicRNG),
    exists shuffled r',
      shuffle array r = Some (shuffled, r') /\
      Permutation shuffled array /\
      length shuffled = length array /\
      callCount r' = callCount r + Z.max 0 (Z.of_nat (length array) - 1) /\
      originalSeed r' = originalSeed r.
Proof.
  intros A array r. unfold shuffle.
  destruct (shuffleLoop_spec (length array - 1) array r)
    as (l' & r' & Heq & Hperm & Hcc & Hseed).
  exists l', r'. repeat split; try assumption.
  - now apply Permutation_length.
  - lia.
Qed.

(** ** Saved states *)

Lemma setState_getState (r other : DeterministicRNG) :
  setState (getState r) other = r.
Proof.
  destruct r as [seed st cc]. unfold setState, getState. cbn.
  destruct (cc =? 0) eqn:E; [|reflexivity].
  apply Z.eqb_eq in E. now subst.
Qed.

(** X6: restoring a saved state brings the generator back exactly: whatever
    was drawn in between, [setState(getState())] yields the generator that
    was saved, so the draws after the restore repeat the draws that followed
    the save. *)
Theorem saved_state_round_trip :
  forall (r : DeterministicRNG) (m n : nat),
    let saved := getState r in
    let later := snd (randoms m r) in
    setState saved later = r /\
    getState (setState saved later) = saved /\
    randoms n (setState saved later) = randoms n r /\
    rollD20s n (setState saved later) = rollD20s n r.
Proof.
  intros r m n saved later. subst saved later.
  rewrite setState_getState. repeat split.
Qed.

(** ** The string hash and derived seeds *)

Lemma toInt32_range (z : Z) : - two31 <= toInt32 z < two31.
Proof.
  unfold toInt32.
  pose proof (Z.mod_pos_bound (z + two31) two32 ltac:(unfold two32; lia)).
  unfold two31, two32 in *. lia.
Qed.

Lemma toInt32_small (z : Z) : - two31 <= z < two31 -> toInt32 z = z.
Proof.
  intros H. unfold toInt32.
  rewrite Z.mod_small; unfold two31, two32 in *; lia.
Qed.

Lemma toInt32_congr (a b : Z) :
  a mod two32 = b mod two32 -> toInt32 a = toInt32 b.
Proof.
  intros H. unfold toInt32. f_equal.
  rewrite (Z.add_mod a), (Z.add_mod b), H by (unfold two32; lia). reflexivity.
Qed.

Lemma toInt32_mod (z : Z) : toInt32 z mod two32 = z mod two32.
Proof.
  unfold toInt32.
  rewrite Zminus_mod, Z.mod_mod by (unfold two32; lia).
  rewrite <- Zminus_mod. f_equal. lia.
Qed.

Lemma hashStep_polynomial (h p c : Z) :
  h = toInt32 p -> hashStep h c = toInt32 (31 * p + c).
Proof.
  intros ->. unfold hashStep. apply toInt32_congr.
  assert (H2 : two32 <> 0) by (unfold two32; lia).
  rewrite Z.add_mod, Zminus_mod, !toInt32_mod by exact H2.
  rewrite <- Zminus_mod, <- Z.add_mod by exact H2.
  rewrite (Z.add_mod (31 * p)), (Z.mul_mod 31 p) by exact H2.
  rewrite (Z.add_mod (_ - _)), (Zminus_mod (_ * 32)), (Z.mul_mod (toInt32 p) 32),
    toInt32_mod by exact H2.
  rewrite <- (Z.mul_mod p 32), <- Zminus_mod, <- Z.add_mod by exact H2.
  rewrite <- (Z.mul_mod 31 p), <- Z.add_mod by exact H2.
  f_equal. lia.
Qed.

Lemma hashCodes_from (codes : list Z) :
  forall h p, h = toInt32 p ->
    fold_left hashStep codes h = toInt32 (fold_left (fun a c => 31 * a + c) codes p).
Proof.
  induction codes as [|c rest IH]; intros h p Hh; [exact Hh|].
  cbn [fold_left]. apply IH. now apply hashStep_polynomial.
Qed.

Lemma randoms_originalSeed (n : nat) (r : DeterministicRNG) :
  originalSeed (snd (randoms n r)) = originalSeed r.
Proof. now rewrite RngFacts.randoms_state. Qed.

(** X7: the string hash behind [deriveSeed] and [createStringRNG] is the
    base-31 polynomial of the character codes wrapped into the signed
    32-bit range; [createStringRNG] starts from its absolute value, which
    seed normalization leaves unchanged. *)
Theorem string_hash_is_wrapped_polynomial :
  forall s : string,
    hashString s = toInt32 (polynomial (charCodes s)) /\
    - two31 <= hashString s < two31 /\
    state (createStringRNG s) = Z.abs (hashString s) /\
    originalSeed (createStringRNG s) = Finite (inject_Z (Z.abs (hashString s))) /\
    (forall r : DeterministicRNG,
        deriveSeed r s = absPlus (originalSeed r) (toInt32 (polynomial (charCodes s)))).
Proof.
  intros s.
  assert (H : hashString s = toInt32 (polynomial (charCodes s))).
  { unfold hashString, hashCodes, polynomial. apply hashCodes_from.
    symmetry. apply toInt32_small. unfold two31. lia. }
  pose proof (toInt32_range (polynomial (charCodes s))) as Hr.
  rewrite <- H in Hr.
  split; [exact H|]. split; [exact Hr|]. split; [|split].
  - unfold createStringRNG, create. cbn [state normalizeSeed].
    rewrite JsFacts.floor_int. rewrite Z.abs_idemp.
    unfold toUint32. apply Z.mod_small. unfold two31, two32 in *. lia.
  - reflexivity.
  - intros r. unfold deriveSeed. now rewrite H.
Qed.

(** X8: a subsystem generator depends only on the root seed and the label:
    however many values the parent has drawn, and whether or not it was
    reset, [createSubsystemRNG] returns the same fresh generator, and
    drawing from the child leaves the parent untouched. *)
Theorem subsystem_stream_ignores_parent_progress :
  forall (r : DeterministicRNG) (label : string) (n m : nat),
    let child := createSubsystemRNG r label in
    createSubsystemRNG (snd (randoms n r)) label = child /\
    createSubsystemRNG (reset r) label = child /\
    callCount child = 0 /\
    state child = normalizeSeed (deriveSeed r label) /\
    0 <= state child < two32 /\
    fst (randoms m (createSubsystemRNG (snd (randoms n r)) label)) =
      fst (randoms m child).
Proof.
  intros r label n m child. subst child.
  assert (H : createSubsystemRNG (snd (randoms n r)) label = createSubsystemRNG r label).
  { unfold createSubsystemRNG, deriveSeed. now rewrite randoms_originalSeed. }
  rewrite H. repeat split.
  - apply RngFacts.normalizeSeed_range.
  - apply RngFacts.normalizeSeed_range.
Qed.

End DiceFacts.

Module SavesFacts.
Import D20 Saves.
Local Open Scope Q_scope.

Lemma validateAbilityScore_range (x : Q) :
  3 <= validateAbilityScore x <= 18.
Proof.
  unfold validateAbilityScore, ABILITY_MIN, ABILITY_MAX.
  split; Js.minmax_cases; lra.
Qed.

Lemma validateAbilityScore_fixed (x : Q) :
  3 <= x <= 18 -> validateAbilityScore x == x.
Proof.
  intros H. unfold validateAbilityScore, ABILITY_MIN, ABILITY_MAX.
  Js.minmax_cases; lra.
Qed.

Lemma calculateModifier_bounds (x : Q) :
  3 <= x <= 18 -> -4 <= calculateModifier x <= 4.
Proof.
  intros [Hlo Hhi].
  pose proof (D20Facts.calculateModifier_monotone 3 x Hlo) as H1.
  pose proof (D20Facts.calculateModifier_monotone x 18 Hhi) as H2.
  change 3 with (inject_Z 3) in H1. change 18 with (inject_Z 18) in H2.
  rewrite D20Facts.calculateModifier_int in H1, H2.
  change (inject_Z ((3 - 10) / 2)) with (-4) in H1.
  change (inject_Z ((18 - 10) / 2)) with 4 in H2.
  split; assumption.
Qed.

Lemma newAbilityScores_range (raw : AbilityScores) (ability : Ability) :
  3 <= score (newAbilityScores raw) ability <= 18.
Proof. destruct ability; cbn; apply validateAbilityScore_range. Qed.

Lemma orElse_nonzero (x d : Q) : ~ x == 0 -> Js.orElse x d = x.
Proof.
  intros H. unfold Js.orElse. destruct (Qeq_bool x 0) eqn:E; [|reflexivity].
  apply Qeq_bool_iff in E. contradiction.
Qed.

Lemma clone_score (a : AbilityScores) (ability : Ability) :
  3 <= score a ability <= 18 -> score (clone a) ability == score a ability.
Proof.
  intros H. unfold clone, toObject.
  destruct ability; cbn in *;
    (rewrite orElse_nonzero by lra); apply validateAbilityScore_fixed; exact H.
Qed.

Lemma withScore_same (a : AbilityScores) (ability : Ability) (v : Q) :
  score (withScore a ability v) ability = v.
Proof. destruct ability; reflexivity. Qed.

Lemma withScore_other (a : AbilityScores) (ability other : Ability) (v : Q) :
  other <> ability -> score (withScore a ability v) other = score a other.
Proof. destruct ability, other; intros H; try reflexivity; congruence. Qed.

(** X9: ability scores built by the engine stay in [3, 18] and their
    modifiers in [-4, +4]; [clone] keeps every score; [setAbility] clamps
    the new score into the same range, leaves the other five untouched and
    rejects unknown ability names. *)
Theorem ability_scores_stay_in_range :
  forall (raw : AbilityScores) (ability : Ability) (name : string) (v : Q),
    let a := newAbilityScores raw in
    3 <= score a ability <= 18 /\
    -4 <= getModifier a ability <= 4 /\
    score (clone a) ability == score a ability /\
    (abilityNamed name = None ->
     setAbility a name v = None /\ getModifierNamed a name = None) /\
    (forall target : Ability,
        abilityNamed name = Some target ->
        exists a',
          setAbility a name v = Some a' /\
          score a' target = validateAbilityScore v /\
          (forall other, other <> target -> score a' other = score a other) /\
          (forall other, 3 <= score a' other <= 18) /\
          getModifierNamed a' name = Some (calculateModifier (validateAbilityScore v))).
Proof.
  intros raw ability name v a.
  pose proof (newAbilityScores_range raw) as Hrange. fold a in Hrange.
  split; [apply Hrange|].
  split; [apply calculateModifier_bounds, Hrange|].
  split; [apply clone_score, Hrange|].
  split.
  - intros Hn. unfold setAbility, getModifierNamed. rewrite Hn. split; reflexivity.
  - intros target Hn. unfold setAbility, getModifierNamed. rewrite Hn.
    cbn [mbind option_bind]. eexists. split; [reflexivity|].
    split; [apply withScore_same|].
    split; [intros other Ho; now apply withScore_other|].
    split.
    + intros other.
      pose proof (validateAbilityScore_range v) as Hv.
      destruct target, other; cbn [withScore score];
        first [exact Hv | apply (Hrange STR) | apply (Hrange DEX)
              | apply (Hrange CON) | apply (Hrange INT)
              | apply (Hrange WIS) | apply (Hrange CHA)].
    + unfold getModifier. now rewrite withScore_same.
Qed.

Lemma ability_scores_stay_in_range_witness :
  (setAbility (newAbilityScores (mkAbilities 25 0 10 10 10 10)) "luck" 5 = None) /\
  exists a',
    setAbility (newAbilityScores (mkAbilities 25 0 10 10 10 10)) "dex" 40 = Some a' /\
    score a' DEX = validateAbilityScore 40 /\
    (forall other, other <> DEX ->
       score a' other = score (newAbilityScores (mkAbilities 25 0 10 10 10 10)) other) /\
    (forall other, 3 <= score a' other <= 18) /\
    getModifierNamed a' "dex" = Some (calculateModifier (validateAbilityScore 40)).
Proof.
  pose proof (ability_scores_stay_in_range (mkAbilities 25 0 10 10 10 10) STR "luck" 5)
    as (_ & _ & _ & Hbad & _).
  pose proof (ability_scores_stay_in_range (mkAbilities 25 0 10 10 10 10) STR "dex" 40)
    as (_ & _ & _ & _ & Hgood).
  split.
  - apply Hbad. reflexivity.
  - apply (Hgood DEX). reflexivity.
Defined.

(** ** Proficiency *)

Lemma calculateProficiency_range (level : Q) :
  2 <= calculateProficiency level <= 6.
Proof.
  unfold calculateProficiency.
  repeat match goal with |- context [Js.geb ?a ?b] => destruct (Js.geb a b) end;
    split; discriminate.
Qed.

Lemma calculateProficiency_monotone (l1 l2 : Q) :
  l1 <= l2 -> calculateProficiency l1 <= calculateProficiency l2.
Proof.
  intros H. unfold calculateProficiency.
  repeat match goal with
         | |- context [Js.geb ?a ?b] =>
             let E := fresh "E" in
             destruct (Js.geb a b) eqn:E;
             [apply JsFacts.geb_true in E
             |assert (~ b <= a) by (intros ?%JsFacts.geb_true; congruence); clear E]
         end; try lra.
Qed.

(** X10: the proficiency bonus lies between 2 and 6 and never decreases
    with the level; so the physical attack bonus, the spell attack bonus and
    the save difficulty of the same character never decrease with the level
    either. *)
Theorem proficiency_grows_with_level :
  forall (abilities : AbilityScores) (equipment : Obj.t) (isRanged : bool)
         (primaryAbility : Ability) (l1 l2 : Q),
    2 <= calculateProficiency l1 <= 6 /\
    (l1 <= l2 ->
     calculateProficiency l1 <= calculateProficiency l2 /\
     calculatePhysicalAttack abilities l1 isRanged equipment
       <= calculatePhysicalAttack abilities l2 isRanged equipment /\
     calculateSpellAttack abilities l1 primaryAbility equipment
       <= calculateSpellAttack abilities l2 primaryAbility equipment /\
     calculateSaveDC abilities l1 primaryAbility
       <= calculateSaveDC abilities l2 primaryAbility).
Proof.
  intros abilities equipment isRanged primaryAbility l1 l2.
  split; [apply calculateProficiency_range|].
  intros H. pose proof (calculateProficiency_monotone l1 l2 H) as Hm.
  split; [exact Hm|].
  unfold calculatePhysicalAttack, calculateSpellAttack, calculateSaveDC.
  repeat split; lra.
Qed.

Lemma proficiency_grows_with_level_witness :
  calculateProficiency 10 <= calculateProficiency 45 /\
  calculateSaveDC Sample.average 10 INT <= calculateSaveDC Sample.average 45 INT.
Proof.
  pose proof (proficiency_grows_with_level Sample.average [] false INT 10 45)
    as (_ & H).
  destruct H as (H1 & _ & _ & H4); [discriminate|].
  split; assumption.
Defined.

(** ** Saving throws *)



(** ** Spell attacks *)


End SavesFacts.

Module LifeFacts.
Import Units Life.
Local Open Scope Q_scope.

Lemma getCurrentStats_setHP (u : Unit) (hp : Q) (incap : bool) (ap : Q) :
  getCurrentStats (setHP u hp incap ap) = getCurrentStats u.
Proof. reflexivity. Qed.

Lemma getCurrentStats_setAP (u : Unit) (ap : Q) (acted : bool) :
  getCurrentStats (setAP u ap acted) = getCurrentStats u.
Proof. reflexivity. Qed.

Lemma perform_stats (u : Unit) (call : Call) :
  getCurrentStats (perform u call) = getCurrentStats u.
Proof.
  destruct call as [amount type|amount|cost|]; cbn [perform].
  - unfold takeDamage. destruct (isIncapacitated u); [reflexivity|].
    cbn [snd]. match goal with |- context [Qle_bool ?a ?b] => destruct (Qle_bool a b) end;
      reflexivity.
  - unfold heal. destruct (isIncapacitated u && Qle_bool amount 0)%bool; reflexivity.
  - unfold spendAP. destruct (Js.geb _ _ && _)%bool; reflexivity.
  - unfold restoreAP. destruct (negb _); reflexivity.
Qed.

Lemma performAll_stats (calls : list Call) :
  forall u, getCurrentStats (performAll u calls) = getCurrentStats u.
Proof.
  induction calls as [|c rest IH]; intros u; [reflexivity|].
  cbn [performAll fold_left]. fold (performAll (perform u c) rest).
  now rewrite IH, perform_stats.
Qed.

Lemma Qle_bool_false (a b : Q) : Qle_bool a b = false -> b < a.
Proof.
  intros H. apply Qnot_le_lt. intros Hle. apply Qle_bool_iff in Hle. congruence.
Qed.

Lemma gtb_false (a b : Q) : Js.gtb a b = false -> a <= b.
Proof.
  unfold Js.gtb. rewrite negb_false_iff. apply Qle_bool_iff.
Qed.

Lemma perform_consistent (u : Unit) (call : Call) :
  1 <= Visible.sHP (getCurrentStats u) ->
  sensible call -> consistent u -> consistent (perform u call).
Proof.
  intros Hmax Hs (Hhp0 & HhpM & Hinc & Hap0 & Hap3 & Hout).
  unfold consistent. rewrite perform_stats.
  set (M := Visible.sHP (getCurrentStats u)) in *.
  unfold MAX_PER_TURN in *.
  destruct call as [amount type|amount|cost|]; cbn [perform sensible] in *.
  - (* takeDamage *)
    unfold takeDamage. destruct (isIncapacitated u) eqn:Ei.
    { cbn [snd]. rewrite Ei. tauto. }
    cbn [snd].
    set (dealt := Qmax 1 _).
    assert (Hd : 1 <= dealt) by apply Q.le_max_l. clearbody dealt.
    assert (Hpos : 0 < currentHP u).
    { apply Qnot_le_lt. intros Hle. apply Hinc in Hle. congruence. }
    set (hp := Qmax 0 (currentHP u - Qmin (currentHP u) dealt)).
    assert (Hhp : 0 <= hp /\ hp <= currentHP u).
    { subst hp. split; Js.minmax_cases; lra. }
    destruct (Qle_bool hp 0) eqn:E; cbn [setHP currentHP currentAP isIncapacitated].
    + apply Qle_bool_iff in E. repeat split; try lra; tauto.
    + apply Qle_bool_false in E.
      repeat split; try lra; try discriminate; try (intros; lra).
  - (* heal *)
    unfold heal. destruct (isIncapacitated u && Qle_bool amount 0)%bool eqn:Eg.
    { cbn [snd]. tauto. }
    cbn [snd setHP currentHP currentAP isIncapacitated]. fold M.
    set (hp := Qmin M (currentHP u + Qmin amount (M - currentHP u))).
    assert (Hhp : 0 <= hp /\ hp <= M /\ (hp <= 0 -> currentHP u <= 0)).
    { subst hp. repeat split; Js.minmax_cases; lra. }
    destruct Hhp as (H1 & H2 & H3).
    destruct (Js.gtb hp 0) eqn:E.
    + apply JsFacts.gtb_true in E.
      repeat split; try lra; try discriminate; try (intros; lra).
    + apply gtb_false in E.
      repeat split; try lra; try tauto.
  - (* spendAP *)
    unfold spendAP.
    destruct (Js.geb (currentAP u) cost && negb (isIncapacitated u))%bool eqn:E.
    + cbn [snd setAP currentHP currentAP isIncapacitated].
      apply andb_true_iff in E. destruct E as [E1 E2].
      apply JsFacts.geb_true in E1. apply negb_true_iff in E2.
      repeat split; try tauto; try (Js.minmax_cases; lra); try congruence.
    + cbn [snd]. tauto.
  - (* restoreAP *)
    unfold restoreAP. destruct (isIncapacitated u) eqn:Ei; cbn [negb].
    + rewrite Ei. tauto.
    + cbn [setAP currentHP currentAP isIncapacitated]. rewrite Ei.
      unfold MAX_PER_TURN. repeat split; try tauto; try lra; try discriminate.
Qed.

Lemma newUnit_fresh (config : UnitConfig) (u : Unit) :
  newUnit config = Some u ->
  statusEffects u = [] /\ isIncapacitated u = false /\
  currentAP u = MAX_PER_TURN /\ hasActedThisTurn u = false /\
  currentHP u = Visible.sHP (baseStats u) /\
  currentMP u = Visible.sMP (baseStats u) /\
  exists loaded, baseStats u = deriveVisibleStats loaded /\
                 equipment u = equipment loaded /\
                 level u = level loaded /\
                 hiddenAbilities u = hiddenAbilities loaded /\
                 faction u = faction loaded.
Proof.
  unfold newUnit. destruct (validate (build config)) eqn:E; [|discriminate].
  intros H. injection H as <-. unfold build. cbn.
  repeat split. eexists. repeat split.
Qed.

(** X13: the unit's own operations keep its bookkeeping consistent.  For a
    freshly constructed unit and any sequence of [takeDamage], [heal] (with
    a non-negative amount), [spendAP] (with a non-negative cost) and
    [restoreAP] calls: hit points stay between 0 and the HP stat, the unit
    is flagged incapacitated exactly when its hit points are 0, action
    points stay between 0 and 3, and an incapacitated unit has no action
    points. *)
Theorem unit_bookkeeping_stays_consistent :
  forall (config : UnitConfig) (u : Unit) (calls : list Call),
    newUnit config = Some u ->
    Forall sensible calls ->
    let u' := performAll u calls in
    0 <= currentHP u' /\
    currentHP u' <= Visible.sHP (getCurrentStats u') /\
    (isIncapacitated u' = true <-> currentHP u' <= 0) /\
    0 <= currentAP u' /\ currentAP u' <= 3 /\
    (isIncapacitated u' = true -> currentAP u' == 0) /\
    getCurrentStats u' = getCurrentStats u /\
    100 <= Visible.sHP (getCurrentStats u) <= 600.
Proof.
  intros config u calls Hnew Hs u'.
  destruct (newUnit_fresh config u Hnew)
    as (Hst & Hinc & Hap & _ & Hhp & _ & loaded & Hbase & _).
  assert (Hstats : getCurrentStats u = baseStats u).
  { unfold getCurrentStats. now rewrite Hst. }
  assert (HM : 100 <= Visible.sHP (getCurrentStats u) <= 600).
  { rewrite Hstats, Hbase.
    apply (UnitFacts.deriveVisibleStats_in_range loaded Visible.HP). }
  assert (H0 : consistent u).
  { unfold consistent. rewrite Hhp, Hap, Hinc, <- Hstats. unfold MAX_PER_TURN.
    repeat split; try lra; try discriminate; try (intros; lra). }
  assert (Hall : consistent u' /\ getCurrentStats u' = getCurrentStats u).
  { subst u'. clear Hnew Hst Hinc Hap Hhp Hbase Hstats.
    revert u H0 HM. induction Hs as [|c rest Hc Hrest IH]; intros u H0 HM.
    - split; [exact H0 | reflexivity].
    - cbn [performAll fold_left]. fold (performAll (perform u c) rest).
      destruct (IH (perform u c)) as [H1 H2].
      + apply perform_consistent; [lra | exact Hc | exact H0].
      + now rewrite perform_stats.
      + split; [exact H1|]. now rewrite H2, perform_stats. }
  destruct Hall as [(A & B & C & D & E & F) G].
  unfold MAX_PER_TURN in E. repeat split; try assumption; try tauto; try lra.
Qed.

Lemma unit_bookkeeping_stays_consistent_witness :
  let u' := performAll (Sample.recruit "u1")
              [TakeDamage 1000 "true"; Heal 50; RestoreAP; SpendAP 2;
               TakeDamage 20 "physical"] in
  0 <= currentHP u' /\
  (isIncapacitated u' = true <-> currentHP u' <= 0) /\
  currentAP u' <= 3.
Proof.
  pose proof (unit_bookkeeping_stays_consistent
                (mkConfig "u1" "u1" "SWORDSMAN" "HUMAN_KINGDOM" 1 false
                          Sample.average [] None "")
                (Sample.recruit "u1")
                [TakeDamage 1000 "true"; Heal 50; RestoreAP; SpendAP 2;
                 TakeDamage 20 "physical"]) as H.
  cbv zeta in *.
  destruct H as (A & _ & C & _ & E & _).
  - vm_compute. reflexivity.
  - repeat constructor; cbn; discriminate.
  - split; [exact A|]. split; [exact C | exact E].
Defined.

(** ** Healing *)

(** X14: healing a living unit (or healing an incapacitated one by a
    positive amount) adds at most the missing hit points: the healing done
    plus the overheal is the requested amount, hit points never exceed the
    HP stat, and a unit that ends above 0 hit points is active again.
    Healing exactly the damage a unit just took restores its hit points,
    even when the damage had incapacitated it; the action points lost to
    the incapacitation stay lost. *)
Theorem healing_restores_what_damage_took :
  forall (u : Unit) (amount : Q) (type : string),
    let maxHP := Visible.sHP (getCurrentStats u) in
    isIncapacitated u = false ->
    0 < currentHP u -> currentHP u <= maxHP ->
    let hurt := takeDamage u amount type in
    let healed := heal (snd hurt) (actualDamage (fst hurt)) in
    0 < actualDamage (fst hurt) /\
    currentHP (snd hurt) == currentHP u - actualDamage (fst hurt) /\
    actualHealing (fst healed) == actualDamage (fst hurt) /\
    overheal (fst healed) == 0 /\
    currentHP (snd healed) == currentHP u /\
    isIncapacitated (snd healed) = false /\
    (isIncapacitated (snd hurt) = true -> currentAP (snd healed) == 0) /\
    (isIncapacitated (snd hurt) = false -> currentAP (snd healed) = currentAP u) /\
    (forall extra : Q,
        0 <= extra ->
        let topped := heal (snd healed) extra in
        currentHP (snd topped) <= maxHP /\
        actualHealing (fst topped) + overheal (fst topped) == extra /\
        0 <= overheal (fst topped)).
Proof.
  intros u amount type maxHP Hact Hpos Hmax hurt healed.
  subst hurt healed. unfold takeDamage. rewrite Hact. cbn [fst snd actualDamage].
  set (dealt := Qmax 1 _).
  assert (Hd : 1 <= dealt) by apply Q.le_max_l. clearbody dealt.
  set (actual := Qmin (currentHP u) dealt).
  assert (Ha : 0 < actual /\ actual <= currentHP u).
  { subst actual. split; Js.minmax_cases; lra. }
  set (hp := Qmax 0 (currentHP u - actual)).
  assert (Hhp : hp == currentHP u - actual).
  { subst hp. Js.minmax_cases; lra. }
  set (u1 := if Qle_bool hp 0 then setHP u hp true 0
             else setHP u hp false (currentAP u)).
  assert (Hu1 : currentHP u1 = hp /\ getCurrentStats u1 = getCurrentStats u /\
                (isIncapacitated u1 = true -> currentAP u1 = 0) /\
                (isIncapacitated u1 = false -> currentAP u1 = currentAP u)).
  { subst u1. destruct (Qle_bool hp 0); cbn;
      repeat split; try reflexivity; discriminate. }
  destruct Hu1 as (Hc1 & Hs1 & Hap1 & Hap1').
  assert (Hguard : (isIncapacitated u1 && Qle_bool actual 0)%bool = false).
  { apply andb_false_iff. right.
    destruct (Qle_bool actual 0) eqn:E; [|reflexivity].
    apply Qle_bool_iff in E. lra. }
  clearbody u1.
  set (ah := Qmin actual (maxHP - hp)).
  assert (Hah : ah == actual) by (subst ah; Js.minmax_cases; lra).
  set (hp2 := Qmin maxHP (hp + ah)).
  assert (Hhp2 : hp2 == currentHP u) by (subst hp2; Js.minmax_cases; lra).
  assert (Hgt : Js.gtb hp2 0 = true) by (apply JsFacts.gtb_true; lra).
  assert (Hheal : heal u1 actual =
                  ({| healing := actual; actualHealing := ah;
                      overheal := actual - ah; healedHP := Some hp2 |},
                   setHP u1 hp2 false (currentAP u1))).
  { unfold heal. rewrite Hguard, Hs1, Hc1. fold maxHP. fold ah. fold hp2.
    rewrite Hgt. reflexivity. }
  rewrite Hheal.
  cbn [fst snd actualHealing overheal setHP currentHP currentAP isIncapacitated].
  split; [lra|]. split; [rewrite Hc1; lra|]. split; [exact Hah|]. split; [lra|].
  split; [exact Hhp2|]. split; [reflexivity|].
  split; [intros Hi; rewrite (Hap1 Hi); reflexivity|].
  split; [exact Hap1'|].
  intros extra Hextra. cbv zeta.
  unfold heal. cbn [setHP isIncapacitated andb fst snd currentHP actualHealing overheal].
  change (getCurrentStats (setHP u1 hp2 false (currentAP u1)))
    with (getCurrentStats u1). rewrite Hs1. fold maxHP.
  repeat split; Js.minmax_cases; lra.
Qed.

Lemma healing_restores_what_damage_took_witness :
  let u := Sample.recruit "u1" in
  let hurt := takeDamage u 1000 "true" in
  let healed := heal (snd hurt) (actualDamage (fst hurt)) in
  currentHP (snd healed) == currentHP u /\ isIncapacitated (snd healed) = false.
Proof.
  cbv zeta.
  pose proof (healing_restores_what_damage_took (Sample.recruit "u1") 1000 "true") as H.
  cbv zeta in H.
  destruct H as (_ & _ & _ & _ & Hhp & Hinc & _).
  - reflexivity.
  - vm_compute. reflexivity.
  - vm_compute. discriminate.
  - split; [exact Hhp | exact Hinc].
Defined.

(** ** Equipment *)

Lemma setItem_fresh (items : list Equipment) (item : Equipment) :
  findItem items (itemId item) = None -> setItem items item = items ++ [item].
Proof.
  induction items as [|other rest IH]; intros H; [reflexivity|].
  cbn [findItem setItem] in *.
  destruct (String.eqb (itemId other) (itemId item)); [discriminate|].
  cbn [app]. f_equal. now apply IH.
Qed.

Lemma findItem_last (items : list Equipment) (item : Equipment) :
  findItem items (itemId item) = None ->
  findItem (items ++ [item]) (itemId item) = Some item /\
  deleteItem (items ++ [item]) (itemId item) = items.
Proof.
  induction items as [|other rest IH]; intros H; cbn [findItem deleteItem app] in *.
  - rewrite String.eqb_refl. split; reflexivity.
  - destruct (String.eqb (itemId other) (itemId item)); [discriminate|].
    destruct (IH H) as [H1 H2]. split; [exact H1 | now rewrite H2].
Qed.

Lemma deriveVisibleStats_ext (u v : Unit) :
  level u = level v -> hiddenAbilities u = hiddenAbilities v ->
  faction u = faction v -> equipment u = equipment v ->
  deriveVisibleStats u = deriveVisibleStats v.
Proof.
  intros Hl Ha Hf He. unfold deriveVisibleStats.
  unfold getEquipmentStatModifiers, getEquipmentAbilityModifiers.
  now rewrite Hl, Ha, Hf, He.
Qed.

(** X15: equipping an item whose id is not yet worn, below the limit of 20
    items, and unequipping it again is a round trip: the unit gets the same
    item back, wears what it wore before, and its base stats are the stats
    derived from that equipment; while the item is worn the base stats are
    the ones derived with it.  Unequipping an id that is not worn changes
    nothing. *)
Theorem equip_then_unequip_round_trip :
  forall (u : Unit) (item : Equipment),
    (findItem (equipment u) (itemId item) = None ->
     (length (equipment u) < 20)%nat ->
     let worn := equipItem u item in
     let bare := unequipItem (snd worn) (itemId item) in
     fst worn = true /\
     equipment (snd worn) = equipment u ++ [item] /\
     baseStats (snd worn) = deriveVisibleStats (snd worn) /\
     fst bare = Some item /\
     equipment (snd bare) = equipment u /\
     baseStats (snd bare) = deriveVisibleStats u /\
     currentHP (snd bare) = currentHP u /\
     currentAP (snd bare) = currentAP u /\
     statusEffects (snd bare) = statusEffects u) /\
    (findItem (equipment u) (itemId item) = None ->
     unequipItem u (itemId item) = (None, u)) /\
    ((20 <= length (equipment u))%nat -> equipItem u item = (false, u)).
Proof.
  intros u item. split; [|split].
  - intros Hfresh Hlen worn bare. subst bare worn.
    unfold equipItem, MAX_CONCURRENT_EFFECTS.
    destruct (Nat.leb 20 (length (equipment u))) eqn:E;
      [apply Nat.leb_le in E; lia|].
    cbn [fst snd withEquipment equipment baseStats].
    rewrite (setItem_fresh _ _ Hfresh).
    destruct (findItem_last _ _ Hfresh) as [Hfind Hdel].
    unfold unequipItem. cbn [withEquipment equipment baseStats].
    rewrite Hfind. cbn [fst snd withEquipment equipment baseStats currentHP
                        currentAP statusEffects].
    rewrite Hdel.
    repeat split; apply deriveVisibleStats_ext; reflexivity.
  - intros Hfresh. unfold unequipItem. now rewrite Hfresh.
  - intros Hlen. unfold equipItem, MAX_CONCURRENT_EFFECTS.
    destruct (Nat.leb 20 (length (equipment u))) eqn:E; [reflexivity|].
    apply Nat.leb_gt in E. lia.
Qed.

Lemma equip_then_unequip_round_trip_witness :
  let blade := mkEquipment "blade" "Blade" "weapon" 10 [("ATK"%string, 5)] [] [] in
  let worn := equipItem (Sample.recruit "u1") blade in
  let bare := unequipItem (snd worn) "blade" in
  fst bare = Some blade /\ equipment (snd bare) = equipment (Sample.recruit "u1").
Proof.
  cbv zeta.
  pose proof (equip_then_unequip_round_trip (Sample.recruit "u1")
                (mkEquipment "blade" "Blade" "weapon" 10 [("ATK"%string, 5)] [] []))
    as (H & _).
  cbv zeta in H.
  destruct H as (_ & _ & _ & Hitem & Heq & _).
  - reflexivity.
  - vm_compute. lia.
  - split; [exact Hitem | exact Heq].
Defined.

Lemma addEntries_nil (combined : Obj.t) : addEntries combined [] = combined.
Proof. reflexivity. Qed.

Lemma fold_skip_broken (f : Equipment -> Obj.t) (broken : Equipment)
    (l1 l2 : list Equipment) (start : Obj.t) :
  f broken = [] ->
  fold_left (fun combined item => addEntries combined (f item))
            (l1 ++ broken :: l2) start =
  fold_left (fun combined item => addEntries combined (f item))
            (l1 ++ l2) start.
Proof.
  intros H. rewrite !fold_left_app. cbn [fold_left]. now rewrite H.
Qed.

Lemma deleteItem_middle (l1 l2 : list Equipment) (item : Equipment) :
  Forall (fun other => itemId other <> itemId item) l1 ->
  findItem (l1 ++ item :: l2) (itemId item) = Some item /\
  deleteItem (l1 ++ item :: l2) (itemId item) = l1 ++ l2.
Proof.
  induction 1 as [|other rest Hne _ IH]; cbn [findItem deleteItem app].
  - rewrite String.eqb_refl. split; reflexivity.
  - destruct (String.eqb (itemId other) (itemId item)) eqn:E.
    + apply String.eqb_eq in E. contradiction.
    + destruct IH as [H1 H2]. split; [exact H1 | now rewrite H2].
Qed.

(** X16: a worn-out item counts for nothing.  Once [reduceDurability] has
    brought an item's durability to zero the item is broken and contributes
    no stat or ability modifiers, so the stats derived with the broken item
    in place are exactly the base stats the unit has after unequipping
    it. *)
Theorem broken_equipment_contributes_nothing :
  forall (u : Unit) (l1 l2 : list Equipment) (item : Equipment) (amount : Q),
    equipment u = l1 ++ item :: l2 ->
    Forall (fun other => itemId other <> itemId item) l1 ->
    durability item <= amount ->
    let wornOut := reduceDurability item amount in
    let u' := withEquipment u (l1 ++ wornOut :: l2) (baseStats u) in
    isBroken wornOut = true /\
    durability wornOut == 0 /\
    getStatModifiers wornOut = [] /\
    getAbilityModifiers wornOut = [] /\
    fst (unequipItem u (itemId item)) = Some item /\
    deriveVisibleStats u' = baseStats (snd (unequipItem u (itemId item))).
Proof.
  intros u l1 l2 item amount Heq Hids Hdur wornOut u'.
  assert (Hzero : durability wornOut == 0).
  { subst wornOut. cbn [reduceDurability durability]. Js.minmax_cases; lra. }
  assert (Hbroken : isBroken wornOut = true).
  { unfold isBroken. apply Qle_bool_iff. lra. }
  assert (Hs : getStatModifiers wornOut = []).
  { unfold getStatModifiers. now rewrite Hbroken. }
  assert (Ha : getAbilityModifiers wornOut = []).
  { unfold getAbilityModifiers. now rewrite Hbroken. }
  destruct (deleteItem_middle l1 l2 item Hids) as [Hfind Hdel].
  repeat split; try assumption.
  - unfold unequipItem. now rewrite Heq, Hfind.
  - unfold unequipItem. rewrite Heq, Hfind, Hdel.
    cbn [snd withEquipment baseStats equipment].
    subst u'. unfold deriveVisibleStats.
    unfold getEquipmentStatModifiers, getEquipmentAbilityModifiers.
    cbn [withEquipment equipment level hiddenAbilities faction].
    rewrite (fold_skip_broken getStatModifiers wornOut l1 l2 [] Hs).
    rewrite (fold_skip_broken getAbilityModifiers wornOut l1 l2 [] Ha).
    reflexivity.
Qed.

Lemma broken_equipment_contributes_nothing_witness :
  let blade := mkEquipment "blade" "Blade" "weapon" 10 [("ATK"%string, 5)] [] [] in
  let u := snd (equipItem (Sample.recruit "u1") blade) in
  isBroken (reduceDurability blade 10) = true /\
  deriveVisibleStats (withEquipment u [reduceDurability blade 10] (baseStats u)) =
    baseStats (snd (unequipItem u "blade")).
Proof.
  cbv zeta.
  set (blade := mkEquipment "blade" "Blade" "weapon" 10 [("ATK"%string, 5)] [] []).
  pose proof (broken_equipment_contributes_nothing
                (snd (equipItem (Sample.recruit "u1") blade)) [] [] blade 10) as H.
  cbv zeta in H.
  destruct H as (Hb & _ & _ & _ & _ & Hd).
  - reflexivity.
  - constructor.
  - vm_compute. discriminate.
  - split; [exact Hb | exact Hd].
Defined.

(** ** The constructor *)

Lemma setItem_length (items : list Equipment) (item : Equipment) :
  (length (setItem items item) <= S (length items))%nat.
Proof.
  induction items as [|other rest IH]; cbn [setItem length]; [lia|].
  destruct (String.eqb (itemId other) (itemId item)); cbn [length]; lia.
Qed.

Lemma equipItem_keeps (u : Unit) (item : Equipment) :
  let u' := snd (equipItem u item) in
  unitId u' = unitId u /\ unitClass u' = unitClass u /\ faction u' = faction u /\
  level u' = level u /\ hiddenAbilities u' = hiddenAbilities u /\
  ((length (equipment u) <= 20)%nat -> (length (equipment u') <= 20)%nat).
Proof.
  unfold equipItem, MAX_CONCURRENT_EFFECTS.
  destruct (Nat.leb 20 (length (equipment u))) eqn:E; cbn [snd].
  - repeat split; auto.
  - cbn [withEquipment unitId unitClass faction level hiddenAbilities equipment].
    repeat split. intros _. apply Nat.leb_gt in E.
    pose proof (setItem_length (equipment u) item). lia.
Qed.

Lemma load_keeps (items : list Equipment) :
  forall u,
    let u' := fold_left (fun u item => snd (equipItem u (newEquipment item))) items u in
    unitId u' = unitId u /\ unitClass u' = unitClass u /\ faction u' = faction u /\
    level u' = level u /\ hiddenAbilities u' = hiddenAbilities u /\
    ((length (equipment u) <= 20)%nat -> (length (equipment u') <= 20)%nat).
Proof.
  induction items as [|item rest IH]; intros u; cbn [fold_left].
  - repeat split; auto.
  - destruct (equipItem_keeps u (newEquipment item)) as (A & B & C & D & E & F).
    destruct (IH (snd (equipItem u (newEquipment item)))) as (A' & B' & C' & D' & E' & F').
    cbv zeta in *. repeat split; try congruence. auto.
Qed.

Lemma oneOf_false_or (x : string) (l : list string) :
  Str.oneOf x l = false \/ Str.oneOf x l = true.
Proof. destruct (Str.oneOf x l); auto. Qed.

(** X17: the unit constructor.  With an id supplied, construction fails
    exactly when the class (default SWORDSMAN) or the faction (default
    HUMAN_KINGDOM) is not a known one; the level is clamped into 1..80
    before it is validated, so it never causes a failure.  A constructed
    unit has every base stat inside its documented range, starts at full HP
    and MP with 3 AP, no status effects, not incapacitated, wears at most
    20 items, and its base stats are the stats derived from its abilities,
    level, faction and equipment. *)
Theorem constructed_unit_is_well_formed :
  forall config : UnitConfig,
    cfgId config <> ""%string ->
    let class := orString (cfgClass config) "SWORDSMAN" in
    let side := orString (cfgFaction config) "HUMAN_KINGDOM" in
    (newUnit config = None <->
       Str.oneOf class CLASS_TYPES = false \/ Str.oneOf side FACTION_TYPES = false) /\
    (forall u : Unit,
        newUnit config = Some u ->
        unitId u = cfgId config /\ unitClass u = class /\ faction u = side /\
        1 <= level u <= 80 /\
        (forall n, Visible.statMin n <= Visible.get (baseStats u) n <= Visible.statMax n) /\
        baseStats u = deriveVisibleStats u /\
        getCurrentStats u = baseStats u /\
        currentHP u = Visible.sHP (baseStats u) /\
        currentMP u = Visible.sMP (baseStats u) /\
        currentAP u = 3 /\
        statusEffects u = [] /\
        isIncapacitated u = false /\
        hasActedThisTurn u = false /\
        (length (equipment u) <= 20)%nat).
Proof.
  intros config Hid class side.
  set (blank := {| unitId := cfgId config;
       unitName := orString (cfgName config) "Unknown Unit";
       unitClass := orString (cfgClass config) "SWORDSMAN";
       faction := orString (cfgFaction config) "HUMAN_KINGDOM";
       level := Qmax 1 (Qmin 80 (Js.orElse (cfgLevel config) 1));
       isLeader := cfgIsLeader config;
       hiddenAbilities := D20.newAbilityScores (cfgHiddenAbilities config);
       equipment := [];
       baseStats := Visible.mkStats 0 0 0 0 0 0 0 0 0 0 0;
       currentHP := 0; currentMP := 0; currentAP := 0;
       statusEffects := []; isIncapacitated := false;
       position := (0, 0)%Z; facing := "north";
       hasActedThisTurn := false |}).
  destruct (load_keeps (cfgEquipment config) blank) as (A & B & C & D & E & F).
  cbv zeta in A, B, C, D, E, F.
  set (loaded := fold_left _ _ blank) in *.
  assert (Hb : build config =
               {| unitId := unitId loaded; unitName := unitName loaded;
                  unitClass := unitClass loaded; faction := faction loaded;
                  level := level loaded; isLeader := isLeader loaded;
                  hiddenAbilities := hiddenAbilities loaded;
                  equipment := equipment loaded;
                  baseStats := deriveVisibleStats loaded;
                  currentHP := Visible.sHP (deriveVisibleStats loaded);
                  currentMP := Visible.sMP (deriveVisibleStats loaded);
                  currentAP := MAX_PER_TURN;
                  statusEffects := [];
                  isIncapacitated := false;
                  position := match cfgPosition config with
                              | Some p => p
                              | None => (0, 0)%Z
                              end;
                  facing := orString (cfgFacing config) "north";
                  hasActedThisTurn := false |}) by reflexivity.
  assert (Hlevel : 1 <= level loaded <= 80).
  { rewrite D. subst blank. cbn [level]. split; Js.minmax_cases; lra. }
  assert (Hvalid : validate (build config) =
                   (Str.oneOf class CLASS_TYPES && Str.oneOf side FACTION_TYPES)%bool).
  { rewrite Hb. unfold validate. cbn [unitId unitClass faction level].
    rewrite A, B, C. subst blank. cbn [unitId unitClass faction].
    fold class. fold side.
    assert (H1 : String.eqb (cfgId config) "" = false)
      by (apply String.eqb_neq; exact Hid).
    rewrite H1.
    assert (H2 : Js.ltb (level loaded) 1 = false).
    { destruct (Js.ltb (level loaded) 1) eqn:El; [|reflexivity].
      apply JsFacts.ltb_true in El. lra. }
    assert (H3 : Js.gtb (level loaded) 80 = false).
    { destruct (Js.gtb (level loaded) 80) eqn:Eg; [|reflexivity].
      apply JsFacts.gtb_true in Eg. lra. }
    rewrite H2, H3. cbn [negb andb]. now rewrite !andb_true_r. }
  unfold newUnit. rewrite Hvalid.
  split.
  - destruct (Str.oneOf class CLASS_TYPES), (Str.oneOf side FACTION_TYPES);
      cbn [andb]; split; intros H;
      try discriminate; try tauto; destruct H; discriminate.
  - intros u Hu.
    destruct (Str.oneOf class CLASS_TYPES && Str.oneOf side FACTION_TYPES)%bool;
      [|discriminate].
    injection Hu as <-. rewrite Hb.
    cbn [unitId unitClass faction level baseStats currentHP currentMP currentAP
         statusEffects isIncapacitated hasActedThisTurn equipment].
    split; [exact A|]. split; [exact B|]. split; [exact C|].
    split; [exact Hlevel|].
    split; [intros n; apply UnitFacts.deriveVisibleStats_in_range|].
    split; [apply deriveVisibleStats_ext; reflexivity|].
    split; [reflexivity|].
    repeat split. apply F. cbn. lia.
Qed.

Lemma constructed_unit_is_well_formed_witness :
  newUnit (mkConfig "u1" "" "" "" 200 false Sample.average [] None "") <> None /\
  newUnit (mkConfig "u1" "" "WIZARD" "" 1 false Sample.average [] None "") = None.
Proof.
  pose proof (constructed_unit_is_well_formed
                (mkConfig "u1" "" "" "" 200 false Sample.average [] None "")) as H1.
  pose proof (constructed_unit_is_well_formed
                (mkConfig "u1" "" "WIZARD" "" 1 false Sample.average [] None "")) as H2.
  cbv zeta in H1, H2.
  destruct H1 as [H1 _]; [discriminate|].
  destruct H2 as [H2 _]; [discriminate|].
  split.
  - intros Hn. apply H1 in Hn. destruct Hn as [Hn|Hn]; vm_compute in Hn; discriminate.
  - apply H2. left. reflexivity.
Defined.
End LifeFacts.

Module StatusFacts.
Import Units Status.
Local Open Scope Q_scope.

Lemma findExisting_none (l : list Tracked) (name : string) :
  findExisting l name = None <-> ~ In name (names l).
Proof.
  induction l as [|t rest IH]; cbn [findExisting names map In].
  - tauto.
  - destruct (String.eqb (effectName (effect t)) name) eqn:E.
    + apply String.eqb_eq in E. split; [discriminate | tauto].
    + apply String.eqb_neq in E.
      destruct (findExisting rest name) as [[i found]|] eqn:F; cbn.
      * split; [discriminate|]. intros H. exfalso.
        assert (~ In name (names rest)) by tauto.
        apply IH in H0. discriminate.
      * split; [|reflexivity]. intros _ [H|H]; [contradiction|].
        now apply IH in H.
Qed.

Lemma findExisting_some (l : list Tracked) (name : string) (i : nat) (t : Tracked) :
  findExisting l name = Some (i, t) ->
  l !! i = Some t /\ effectName (effect t) = name.
Proof.
  revert i. induction l as [|x rest IH]; intros i; cbn [findExisting]; [discriminate|].
  destruct (String.eqb (effectName (effect x)) name) eqn:E.
  - intros H. injection H as <- <-. apply String.eqb_eq in E. split; [reflexivity | exact E].
  - destruct (findExisting rest name) as [[j found]|]; cbn; [|discriminate].
    intros H. injection H as <- <-. now apply IH.
Qed.

Lemma names_insert_same (l : list Tracked) (i : nat) (old new : Tracked) :
  l !! i = Some old ->
  effectName (effect new) = effectName (effect old) ->
  names (<[i := new]> l) = names l.
Proof.
  intros Hl Hn. unfold names.
  rewrite list_fmap_insert. apply list_insert_id.
  rewrite list_lookup_fmap, Hl. cbn. now rewrite Hn.
Qed.

Lemma stackWith_name (incoming existing : Tracked) :
  effectName (effect (snd (stackWith incoming existing))) = effectName (effect existing).
Proof.
  unfold stackWith.
  destruct (negb _); [reflexivity|].
  destruct (String.eqb (stackType incoming) "extend"); [reflexivity|].
  destruct (String.eqb (stackType incoming) "intensity"); [|reflexivity].
  destruct (Js.ltb _ _); reflexivity.
Qed.

(** X18: applying a status effect keeps the list of active effects in
    order.  An effect whose name is already active is stacked onto or
    replaces the active one in place, so the names (and the number) of the
    active effects do not change; a new name is appended when fewer than 20
    effects are active and refused, leaving the list untouched, when 20
    already are.  Hence a list with at most 20 effects and no repeated name
    stays so. *)
Theorem applyStatusEffect_keeps_names_unique_and_bounded :
  forall (l : list Tracked) (incoming : Tracked),
    let name := effectName (effect incoming) in
    let outcome := applyStatusEffect l incoming in
    (In name (names l) ->
     fst outcome = true /\ names (snd outcome) = names l) /\
    (~ In name (names l) -> (length l < 20)%nat ->
     fst outcome = true /\ snd outcome = l ++ [clone incoming] /\
     names (snd outcome) = names l ++ [name]) /\
    (~ In name (names l) -> (20 <= length l)%nat ->
     outcome = (false, l)) /\
    ((length l <= 20)%nat -> (length (snd outcome) <= 20)%nat) /\
    (List.NoDup (names l) -> List.NoDup (names (snd outcome))).
Proof.
  intros l incoming name outcome. subst outcome. unfold applyStatusEffect.
  fold name.
  destruct (findExisting l name) as [[i existing]|] eqn:F.
  - destruct (findExisting_some _ _ _ _ F) as [Hl Hn].
    assert (Hin : In name (names l)).
    { destruct (in_dec String.string_dec name (names l)) as [H|H]; [exact H|].
      apply findExisting_none in H. congruence. }
    assert (Hres : forall t : Tracked,
               effectName (effect t) = effectName (effect existing) ->
               names (<[i := t]> l) = names l /\
               length (<[i := t]> l) = length l).
    { intros t Ht. split; [now apply (names_insert_same l i existing)|].
      apply length_insert. }
    pose proof (stackWith_name incoming existing) as Hsn.
    destruct (stackWith incoming existing) as [stacked existing'] eqn:S.
    cbn [snd] in Hsn.
    assert (Hc : effectName (effect (clone incoming)) = effectName (effect existing)).
    { cbn. fold name. congruence. }
    destruct stacked.
    + destruct (Hres existing' Hsn) as [Hnames Hlen].
      cbn [fst snd] in *. rewrite Hnames, Hlen.
      repeat split; try tauto; try lia; contradiction.
    + destruct (Hres (clone incoming) Hc) as [Hnames Hlen].
      cbn [fst snd] in *. rewrite Hnames, Hlen.
      repeat split; try tauto; try lia; contradiction.
  - pose proof (proj1 (findExisting_none l name) F) as Hnot.
    unfold LIMIT. destruct (Nat.ltb (length l) 20) eqn:E.
    + apply Nat.ltb_lt in E. cbn [fst snd].
      assert (Hnames : names (l ++ [clone incoming]) = names l ++ [name]).
      { unfold names. rewrite map_app. reflexivity. }
      rewrite Hnames, length_app. cbn [length].
      repeat split; try tauto; try lia.
      intros Hnd. apply NoDup_ListNoDup. apply NoDup_app.
      apply NoDup_ListNoDup in Hnd.
      split; [exact Hnd|]. split.
      * intros x Hx Hx'. apply list_elem_of_In in Hx.
        apply list_elem_of_singleton in Hx'. subst. contradiction.
      * apply NoDup_singleton.
    + apply Nat.ltb_ge in E. cbn [fst snd].
      repeat split; try tauto; try lia.
Qed.

Lemma applyStatusEffect_keeps_names_unique_and_bounded_witness :
  let burn := mkTracked (mkStatus "burn" "debuff" 3 1 noEffects) 3 "intensity" "start_turn" in
  let once := snd (applyStatusEffect [] burn) in
  let twice := applyStatusEffect once burn in
  names once = ["burn"%string] /\ fst twice = true /\ names (snd twice) = names once.
Proof.
  cbv zeta.
  set (burn := mkTracked (mkStatus "burn" "debuff" 3 1 noEffects) 3 "intensity" "start_turn").
  pose proof (applyStatusEffect_keeps_names_unique_and_bounded [] burn) as H1.
  pose proof (applyStatusEffect_keeps_names_unique_and_bounded
                (snd (applyStatusEffect [] burn)) burn) as H2.
  cbv zeta in H1, H2.
  destruct H1 as (_ & Hnew & _). destruct H2 as (Hold & _).
  destruct Hnew as (_ & _ & Hn); [intros [] | cbn; lia |].
  destruct Hold as (Hok & Hsame); [rewrite Hn; left; reflexivity|].
  split; [exact Hn|]. split; [exact Hok | exact Hsame].
Defined.

(** ** Upkeep *)

Lemma trigger_snd (l : list Tracked) (phase : string) :
  snd (trigger l phase) = map (upkeep phase) l.
Proof.
  induction l as [|t rest IH]; [reflexivity|].
  cbn [trigger map]. destruct (trigger rest phase) as [results rest'].
  cbn [snd] in IH. unfold upkeep at 1.
  destruct (String.eqb (triggersOn t) phase); cbn [snd]; now rewrite IH.
Qed.

Lemma trigger_fst (l : list Tracked) (phase : string) :
  fst (trigger l phase) =
  map (fun t => mkProcessed (effectName (effect t)) (effectType (effect t))
                            (getModifiers (effect t)) (intensity (effect t)))
      (List.filter (fun t => String.eqb (triggersOn t) phase) l).
Proof.
  induction l as [|t rest IH]; [reflexivity|].
  cbn [trigger List.filter]. destruct (trigger rest phase) as [results rest'].
  cbn [fst] in IH.
  destruct (String.eqb (triggersOn t) phase); cbn [fst map]; now rewrite IH.
Qed.

Lemma not_expired (t : Tracked) :
  negb (hasExpired (effect t)) = true <-> 0 < duration (effect t).
Proof.
  unfold hasExpired. rewrite negb_true_iff. split.
  - intros H. apply Qnot_le_lt. intros Hle. apply Qle_bool_iff in Hle. congruence.
  - intros H. destruct (Qle_bool _ 0) eqn:E; [|reflexivity].
    apply Qle_bool_iff in E. lra.
Qed.

Lemma names_upkeep (phase : string) (l : list Tracked) :
  names (map (upkeep phase) l) = names l.
Proof.
  unfold names. rewrite map_map. apply map_ext. intros t. unfold upkeep.
  destruct (String.eqb (triggersOn t) phase); reflexivity.
Qed.

Lemma names_filter_sublist (p : Tracked -> bool) (l : list Tracked) :
  sublist (names (List.filter p l)) (names l).
Proof.
  induction l as [|t rest IH]; cbn [List.filter names map]; [constructor|].
  destruct (p t); cbn [map]; [now constructor | now apply sublist_cons].
Qed.

(** X19: status effect upkeep for a turn phase.  Every effect that triggers
    on the phase is reported once, in order, and loses one turn of
    duration; afterwards no effect with a duration of zero or less remains,
    whether it triggered or not.  A triggering effect with more than one
    turn left stays with one turn less, an effect for another phase that
    has not expired stays as it is, and nothing is ever added: the
    remaining names are a sub-list of the names before. *)
Theorem processStatusEffects_advances_and_drops_expired :
  forall (l : list Tracked) (phase : string),
    let out := processStatusEffects l phase in
    Forall (fun t => 0 < duration (effect t)) (snd out) /\
    sublist (names (snd out)) (names l) /\
    (length (snd out) <= length l)%nat /\
    fst out =
      map (fun t => mkProcessed (effectName (effect t)) (effectType (effect t))
                                (getModifiers (effect t)) (intensity (effect t)))
          (List.filter (fun t => String.eqb (triggersOn t) phase) l) /\
    (forall t, In t l -> triggersOn t = phase -> 1 < duration (effect t) ->
               In (advance t) (snd out) /\
               duration (effect (advance t)) == duration (effect t) - 1) /\
    (forall t, In t l -> triggersOn t <> phase -> 0 < duration (effect t) ->
               In t (snd out)) /\
    (forall t', In t' (snd out) ->
                exists t, In t l /\
                  ((triggersOn t = phase /\ t' = advance t /\ 1 < duration (effect t)) \/
                   (triggersOn t <> phase /\ t' = t))).
Proof.
  intros l phase out. subst out. unfold processStatusEffects.
  pose proof (trigger_snd l phase) as Hs. pose proof (trigger_fst l phase) as Hf.
  destruct (trigger l phase) as [results advanced]. cbn [fst snd] in *. subst.
  split; [|split; [|split; [|split; [|split; [|split]]]]].
  - apply List.Forall_forall. intros t Ht. apply filter_In in Ht.
    destruct Ht as [_ Ht]. now apply not_expired.
  - rewrite <- (names_upkeep phase l). apply names_filter_sublist.
  - etransitivity; [apply List.filter_length_le|]. now rewrite length_map.
  - reflexivity.
  - intros t Hin Htr Hd.
    assert (Hadv : duration (effect (advance t)) == duration (effect t) - 1).
    { cbn. Js.minmax_cases; lra. }
    split; [|exact Hadv].
    apply filter_In. split.
    + apply in_map_iff. exists t. split; [|exact Hin].
      unfold upkeep. apply String.eqb_eq in Htr. now rewrite Htr.
    + apply not_expired. lra.
  - intros t Hin Htr Hd. apply filter_In. split.
    + apply in_map_iff. exists t. split; [|exact Hin].
      unfold upkeep. apply String.eqb_neq in Htr. now rewrite Htr.
    + now apply not_expired.
  - intros t' Ht'. apply filter_In in Ht'. destruct Ht' as [Hm He].
    apply in_map_iff in Hm. destruct Hm as (t & Heq & Hin).
    exists t. split; [exact Hin|]. unfold upkeep in Heq.
    destruct (String.eqb (triggersOn t) phase) eqn:E.
    + left. apply String.eqb_eq in E. split; [exact E|]. split; [now symmetry|].
      subst t'. apply not_expired in He. cbn in He.
      revert He. Js.minmax_cases; intros; lra.
    + right. apply String.eqb_neq in E. split; [exact E | now symmetry].
Qed.

Lemma processStatusEffects_advances_and_drops_expired_witness :
  let burn := mkTracked (mkStatus "burn" "debuff" 3 1 noEffects) 3 "intensity" "start_turn" in
  let chill := mkTracked (mkStatus "chill" "debuff" 1 1 noEffects) 1 "none" "start_turn" in
  let out := processStatusEffects [burn; chill] "start_turn" in
  In (advance burn) (snd out) /\ duration (effect (advance burn)) == 2.
Proof.
  cbv zeta.
  set (burn := mkTracked (mkStatus "burn" "debuff" 3 1 noEffects) 3 "intensity" "start_turn").
  set (chill := mkTracked (mkStatus "chill" "debuff" 1 1 noEffects) 1 "none" "start_turn").
  pose proof (processStatusEffects_advances_and_drops_expired [burn; chill] "start_turn") as H.
  cbv zeta in H. destruct H as (_ & _ & _ & _ & Hadv & _).
  destruct (Hadv burn) as [Hin Hd].
  - left. reflexivity.
  - reflexivity.
  - reflexivity.
  - split; [exact Hin|]. rewrite Hd. reflexivity.
Defined.
End StatusFacts.

Module FieldFacts.
Import Units Match Initiative Field.
Local Open Scope Z_scope.

(** What [validateState] checks, as a proposition. *)
Lemma validateState_true (s : CombatState) (order : list InitiativeEntry) :
  validateState s order = true <->
  units s <> ∅ /\ 1 <= turn s /\ In (phase s) PHASES /\
  (forall p id, unitPositions s !! p = Some id ->
                exists u, units s !! id = Some u /\ position u = p) /\
  (forall e, In e order -> is_Some (units s !! entryUnitId e)).
Proof.
  unfold validateState.
  assert (Hsize : Nat.eqb (size (units s)) 0 = true <-> units s = ∅).
  { rewrite Nat.eqb_eq. apply map_size_empty_iff. }
  assert (Hphase : Str.oneOf (phase s) PHASES = true <-> In (phase s) PHASES).
  { unfold Str.oneOf. rewrite existsb_exists. split.
    - intros (x & Hx & He). apply String.eqb_eq in He. now subst.
    - intros H. exists (phase s). split; [exact H | apply String.eqb_refl]. }
  assert (Hpos : forallb (positionRecorded s) (map_to_list (unitPositions s)) = true <->
                 forall p id, unitPositions s !! p = Some id ->
                              exists u, units s !! id = Some u /\ position u = p).
  { rewrite forallb_forall. split.
    - intros H p id Hl. specialize (H (p, id)).
      assert (Hin : In (p, id) (map_to_list (unitPositions s))).
      { apply list_elem_of_In. now apply elem_of_map_to_list. }
      specialize (H Hin). unfold positionRecorded, getUnit in H. cbn [fst snd] in H.
      destruct (units s !! id) as [u|]; [|discriminate].
      exists u. split; [reflexivity|].
      apply andb_true_iff in H. destruct H as [H1 H2].
      apply Z.eqb_eq in H1, H2. destruct (position u), p; cbn in *; congruence.
    - intros H [p id] Hin. apply list_elem_of_In, elem_of_map_to_list in Hin.
      destruct (H p id Hin) as (u & Hu & Hp).
      unfold positionRecorded, getUnit. cbn [fst snd]. rewrite Hu, Hp.
      now rewrite !Z.eqb_refl. }
  assert (Hord : forallb (entryKnown s) order = true <->
                 forall e, In e order -> is_Some (units s !! entryUnitId e)).
  { rewrite forallb_forall. split; intros H e He; specialize (H e He);
      unfold entryKnown, getUnit in *.
    - destruct (units s !! entryUnitId e); [eauto | discriminate].
    - destruct H as [u ->]. reflexivity. }
  destruct (Nat.eqb (size (units s)) 0).
  { split; [discriminate|]. intros (H & _). exfalso. apply H, Hsize. reflexivity. }
  destruct (turn s <? 1) eqn:E2.
  { split; [discriminate|]. intros (_ & H & _). apply Z.ltb_lt in E2. lia. }
  destruct (Str.oneOf (phase s) PHASES); cbn [negb].
  2:{ split; [discriminate|]. intros (_ & _ & H & _). apply Hphase in H. discriminate. }
  destruct (forallb (positionRecorded s) _); cbn [negb].
  2:{ split; [discriminate|]. intros (_ & _ & _ & H & _). apply Hpos in H. discriminate. }
  destruct (forallb (entryKnown s) order); cbn [negb].
  2:{ split; [discriminate|]. intros (_ & _ & _ & _ & H). apply Hord in H. discriminate. }
  split; [intros _|reflexivity].
  split; [intros H; apply Hsize in H; discriminate|].
  split; [apply Z.ltb_ge in E2; lia|].
  split; [now apply Hphase|].
  split; [now apply Hpos | now apply Hord].
Qed.

(** ** Moving *)

Lemma moveUnit_success (s : CombatState) (unitId : string) (x y : Z) (u : Unit) :
  units s !! unitId = Some u ->
  fst (moveUnit s unitId x y) = true ->
  moveUnit s unitId x y =
  (true,
   {| phase := phase s; turn := turn s;
      mapWidth := mapWidth s; mapHeight := mapHeight s;
      units := <[unitId := setPosition u (x, y)]> (units s);
      deployedUnits := deployedUnits s;
      incapacitatedUnits := incapacitatedUnits s;
      terrain := terrain s;
      unitPositions := <[(x, y) := unitId]> (delete (position u) (unitPositions s)) |}).
Proof.
  intros Hu. unfold moveUnit, getUnit. rewrite Hu.
  destruct (outOfBounds s x y); [discriminate|].
  destruct (unitPositions s !! (x, y)); [discriminate | reflexivity].
Qed.

(** X20: [moveUnit] succeeds exactly when the unit exists, the target is on
    the map and no unit is recorded on the target tile; a refused move
    changes nothing.  A successful move relocates exactly this unit: its
    position becomes the target, the target tile is recorded as held by it
    (so it is no longer passable), its old tile is released, and every other
    unit, every other tile of the position index, the terrain and the
    deployment records stay as they were. *)
Theorem moveUnit_relocates_exactly_one_unit :
  forall (s : CombatState) (unitId : string) (x y : Z),
    let s' := snd (moveUnit s unitId x y) in
    (fst (moveUnit s unitId x y) = true <->
       is_Some (units s !! unitId) /\
       (0 <= x < mapWidth s /\ 0 <= y < mapHeight s) /\
       unitPositions s !! (x, y) = None) /\
    (fst (moveUnit s unitId x y) = false -> s' = s) /\
    (forall u : Unit,
        units s !! unitId = Some u ->
        fst (moveUnit s unitId x y) = true ->
        units s' !! unitId = Some (setPosition u (x, y)) /\
        position (setPosition u (x, y)) = (x, y) /\
        currentHP (setPosition u (x, y)) = currentHP u /\
        currentAP (setPosition u (x, y)) = currentAP u /\
        unitPositions s' !! (x, y) = Some unitId /\
        ((x, y) <> position u -> unitPositions s' !! position u = None) /\
        (forall other, other <> unitId -> units s' !! other = units s !! other) /\
        (forall p, p <> (x, y) -> p <> position u ->
                   unitPositions s' !! p = unitPositions s !! p) /\
        (unitId <> ""%string ->
         getUnitAtPosition s' x y = Some (setPosition u (x, y)) /\
         forall unitType, isPositionPassable s' x y unitType = false) /\
        terrain s' = terrain s /\ deployedUnits s' = deployedUnits s /\
        phase s' = phase s).
Proof.
  intros s unitId x y s'. subst s'.
  split; [apply MatchFacts.moveUnit_success_iff|].
  split; [apply MatchFacts.moveUnit_failure_unchanged|].
  intros u Hu Hok. rewrite (moveUnit_success s unitId x y u Hu Hok).
  cbn [snd units unitPositions terrain deployedUnits phase].
  split; [apply lookup_insert_eq|].
  split; [reflexivity|]. split; [reflexivity|]. split; [reflexivity|].
  split; [apply lookup_insert_eq|].
  split.
  { intros Hne. rewrite lookup_insert_ne by exact Hne. apply lookup_delete_eq. }
  split.
  { intros other Hne. apply lookup_insert_ne. congruence. }
  split.
  { intros p H1 H2. rewrite lookup_insert_ne by congruence.
    apply lookup_delete_ne. congruence. }
  split; [|repeat split].
  intros Hid.
  assert (Hat : getUnitAtPosition
                  {| phase := phase s; turn := turn s;
                     mapWidth := mapWidth s; mapHeight := mapHeight s;
                     units := <[unitId := setPosition u (x, y)]> (units s);
                     deployedUnits := deployedUnits s;
                     incapacitatedUnits := incapacitatedUnits s;
                     terrain := terrain s;
                     unitPositions :=
                       <[(x, y) := unitId]> (delete (position u) (unitPositions s)) |}
                  x y = Some (setPosition u (x, y))).
  { unfold getUnitAtPosition, getUnit. cbn [unitPositions units].
    rewrite lookup_insert_eq.
    apply String.eqb_neq in Hid. rewrite Hid. apply lookup_insert_eq. }
  split; [exact Hat|].
  intros unitType. unfold isPositionPassable. rewrite Hat.
  destruct (outOfBounds _ x y); reflexivity.
Qed.

Lemma moveUnit_relocates_exactly_one_unit_witness :
  let s' := snd (moveUnit lakeside "u1" 2 3) in
  fst (moveUnit lakeside "u1" 2 3) = true /\
  unitPositions s' !! (2, 3) = Some "u1"%string /\
  unitPositions s' !! (0, 0) = None.
Proof.
  cbv zeta.
  pose proof (moveUnit_relocates_exactly_one_unit lakeside "u1" 2 3) as H.
  cbv zeta in H. destruct H as (Hiff & _ & Heff).
  assert (Hu : units lakeside !! "u1"%string = Some (Sample.recruit "u1")).
  { unfold lakeside, addUnit, emptyMatch. cbn [units Sample.recruit unitId].
    rewrite lookup_empty. cbn [snd units]. apply lookup_insert_eq. }
  assert (Hok : fst (moveUnit lakeside "u1" 2 3) = true).
  { apply Hiff. split; [rewrite Hu; eauto|]. split.
    - unfold lakeside, addUnit, emptyMatch. cbn [units Sample.recruit unitId].
      rewrite lookup_empty. cbn. lia.
    - unfold lakeside, addUnit, emptyMatch. cbn [units Sample.recruit unitId position].
      rewrite lookup_empty. cbn [snd unitPositions]. rewrite lookup_empty.
      rewrite lookup_insert_ne by discriminate. apply lookup_empty. }
  destruct (Heff _ Hu Hok) as (_ & _ & _ & _ & Hnew & Hold & _).
  split; [exact Hok|]. split; [exact Hnew|].
  apply Hold. discriminate.
Defined.

(** ** State validation *)

Lemma insert_nonempty {K A} `{Countable K} (m : gmap K A) (k : K) (v : A) :
  <[k := v]> m <> ∅.
Proof. apply insert_non_empty. Qed.

Lemma valid_after_move (s : CombatState) (order : list InitiativeEntry)
    (unitId : string) (x y : Z) :
  validateState s order = true ->
  validateState (snd (moveUnit s unitId x y)) order = true.
Proof.
  intros Hv.
  destruct (fst (moveUnit s unitId x y)) eqn:Hok.
  2:{ now rewrite (MatchFacts.moveUnit_failure_unchanged _ _ _ _ Hok). }
  pose proof (proj1 (MatchFacts.moveUnit_success_iff s unitId x y) Hok) as ([u Hu] & _ & _).
  rewrite (moveUnit_success s unitId x y u Hu Hok). cbn [snd].
  apply validateState_true in Hv. destruct Hv as (Hne & Hturn & Hph & Hpos & Hord).
  apply validateState_true. cbn [units turn phase unitPositions].
  split; [apply insert_non_empty|]. split; [exact Hturn|]. split; [exact Hph|].
  split.
  - intros p id Hl.
    destruct (decide (p = (x, y))) as [->|Hp].
    + rewrite lookup_insert_eq in Hl. injection Hl as <-.
      exists (setPosition u (x, y)). split; [apply lookup_insert_eq | reflexivity].
    + rewrite lookup_insert_ne in Hl by congruence.
      apply lookup_delete_Some in Hl. destruct Hl as [Hp' Hl].
      destruct (Hpos p id Hl) as (u' & Hu' & Hpu').
      assert (Hid : id <> unitId).
      { intros ->. rewrite Hu in Hu'. injection Hu' as <-. congruence. }
      exists u'. split; [|exact Hpu'].
      rewrite lookup_insert_ne by congruence. exact Hu'.
  - intros e He. destruct (Hord e He) as [u' Hu'].
    destruct (decide (entryUnitId e = unitId)) as [->|Hid].
    + rewrite lookup_insert_eq. eauto.
    + rewrite lookup_insert_ne by congruence. eauto.
Qed.

Lemma markDeployed_valid (s : CombatState) (order : list InitiativeEntry)
    (unitId : string) :
  validateState (markDeployed s unitId) order = validateState s order.
Proof. reflexivity. Qed.

Lemma valid_after_deploy (s : CombatState) (order : list InitiativeEntry)
    (unitId : string) (x y : Z) :
  validateState s order = true ->
  validateState (snd (deployUnit s unitId x y)) order = true.
Proof.
  intros Hv. unfold deployUnit.
  destruct (negb (String.eqb (phase s) "DEPLOYMENT")); [exact Hv|].
  destruct (getUnit s unitId); [|exact Hv].
  destruct (bool_decide (unitId ∈ deployedUnits s)); [exact Hv|].
  pose proof (valid_after_move s order unitId x y Hv) as Hm.
  destruct (moveUnit s unitId x y) as [[|] s1]; cbn [snd] in *.
  - now rewrite markDeployed_valid.
  - exact Hm.
Qed.

Lemma valid_after_add (s : CombatState) (order : list InitiativeEntry) (unit : Unit) :
  validateState s order = true ->
  validateState (snd (addUnit s unit)) order = true.
Proof.
  intros Hv. unfold addUnit.
  destruct (units s !! unitId unit) eqn:Hfresh; [exact Hv|]. cbn [snd].
  apply validateState_true in Hv. destruct Hv as (Hne & Hturn & Hph & Hpos & Hord).
  apply validateState_true. cbn [units turn phase unitPositions].
  split; [apply insert_non_empty|]. split; [exact Hturn|]. split; [exact Hph|].
  assert (Hkeep : forall p id, unitPositions s !! p = Some id ->
            exists u, <[unitId unit := unit]> (units s) !! id = Some u /\ position u = p).
  { intros p id Hl. destruct (Hpos p id Hl) as (u' & Hu' & Hpu').
    exists u'. split; [|exact Hpu'].
    rewrite lookup_insert_ne; [exact Hu'|]. intros <-. congruence. }
  split.
  - intros p id Hl.
    destruct (unitPositions s !! position unit) eqn:Hocc; [now apply Hkeep|].
    destruct (decide (p = position unit)) as [->|Hp].
    + rewrite lookup_insert_eq in Hl. injection Hl as <-.
      exists unit. split; [apply lookup_insert_eq | reflexivity].
    + rewrite lookup_insert_ne in Hl by congruence. now apply Hkeep.
  - intros e He. destruct (Hord e He) as [u' Hu'].
    destruct (decide (entryUnitId e = unitId unit)) as [->|Hid].
    + rewrite lookup_insert_eq. eauto.
    + rewrite lookup_insert_ne by congruence. eauto.
Qed.

Lemma valid_after_remove (s : CombatState) (order : list InitiativeEntry)
    (unitId : string) :
  validateState s order = true ->
  units (fst (snd (removeUnit s order unitId))) <> ∅ ->
  validateState (fst (snd (removeUnit s order unitId)))
                (snd (snd (removeUnit s order unitId))) = true.
Proof.
  intros Hv. unfold removeUnit.
  destruct (units s !! unitId) as [u|] eqn:Hu; cbn [fst snd]; [|intros _; exact Hv].
  intros Hne'.
  apply validateState_true in Hv. destruct Hv as (Hne & Hturn & Hph & Hpos & Hord).
  apply validateState_true. cbn [units turn phase unitPositions].
  split; [exact Hne'|]. split; [exact Hturn|]. split; [exact Hph|].
  split.
  - intros p id Hl.
    assert (Hl' : unitPositions s !! p = Some id /\
                  (unitPositions s !! position u = Some unitId -> p <> position u)).
    { destruct (unitPositions s !! position u) as [holder|] eqn:Hh.
      - destruct (String.eqb holder unitId) eqn:E.
        + apply String.eqb_eq in E. subst holder.
          apply lookup_delete_Some in Hl. destruct Hl as [Hp Hl].
          split; [exact Hl | intros _; congruence].
        + apply String.eqb_neq in E. split; [exact Hl|]. intros H. congruence.
      - split; [exact Hl | discriminate]. }
    destruct Hl' as [Hl0 Hfree].
    destruct (Hpos p id Hl0) as (u' & Hu' & Hpu').
    assert (Hid : id <> unitId).
    { intros ->. rewrite Hu in Hu'. injection Hu' as <-.
      apply Hfree; [|now symmetry]. now rewrite Hpu'. }
    exists u'. split; [|exact Hpu']. rewrite lookup_delete_ne by congruence. exact Hu'.
  - intros e He. apply filter_In in He. destruct He as [He Hid].
    apply negb_true_iff, String.eqb_neq in Hid.
    destruct (Hord e He) as [u' Hu'].
    rewrite lookup_delete_ne by congruence. eauto.
Qed.

(** X21: a match state that passes [validateState] still passes it after
    [addUnit], [moveUnit], [deployUnit] and [setTerrainAt], whether or not
    the call succeeds, and after [removeUnit] as long as a unit is left: at
    least one unit, turn at least 1, a known phase, every entry of the
    position index naming an existing unit that stands on that tile, and
    every initiative entry naming an existing unit. *)
Theorem validateState_survives_updates :
  forall (s : CombatState) (order : list InitiativeEntry),
    validateState s order = true ->
    (forall unit, validateState (snd (addUnit s unit)) order = true) /\
    (forall unitId x y, validateState (snd (moveUnit s unitId x y)) order = true) /\
    (forall unitId x y, validateState (snd (deployUnit s unitId x y)) order = true) /\
    (forall tile, validateState (setTerrainAt s tile) order = true) /\
    (forall unitId,
        let after := snd (removeUnit s order unitId) in
        units (fst after) <> ∅ -> validateState (fst after) (snd after) = true) /\
    (forall p id, unitPositions s !! p = Some id ->
                  exists u, units s !! id = Some u /\ position u = p).
Proof.
  intros s order Hv.
  split; [intros; now apply valid_after_add|].
  split; [intros; now apply valid_after_move|].
  split; [intros; now apply valid_after_deploy|].
  split; [intros tile; exact Hv|].
  split; [intros unitId after; now apply valid_after_remove|].
  apply validateState_true in Hv. tauto.
Qed.

Lemma validateState_survives_updates_witness :
  validateState (snd (moveUnit lakeside "u1" 2 3)) [] = true /\
  validateState (snd (deployUnit lakeside "u1" 1 1)) [] = true.
Proof.
  pose proof (validateState_survives_updates lakeside []) as H.
  destruct H as (_ & Hmove & Hdeploy & _).
  - vm_compute. reflexivity.
  - split; [apply Hmove | apply Hdeploy].
Defined.

(** ** Removing *)

Lemma filter_all (unitId : string) (order : list InitiativeEntry) :
  Forall (fun e => entryUnitId e <> unitId) order ->
  List.filter (fun entry => negb (String.eqb (entryUnitId entry) unitId)) order = order.
Proof.
  induction 1 as [|e rest He _ IH]; [reflexivity|].
  cbn [List.filter]. apply String.eqb_neq in He. rewrite He. cbn [negb].
  now rewrite IH.
Qed.

(** X22: [removeUnit] returns null and changes nothing for an unknown id.
    For a known unit it returns the unit and forgets it everywhere: the id
    is no longer a unit, is neither deployed nor incapacitated, and has no
    initiative entry; its tile is released only if the position index named
    this unit there, and all other units and index entries stay.  Removing
    a unit right after adding it (fresh id, free tile, no records under
    that id) gives back the state before the addition. *)
Theorem removeUnit_forgets_the_unit :
  forall (s : CombatState) (order : list InitiativeEntry) (unitId : string),
    let outcome := removeUnit s order unitId in
    let s' := fst (snd outcome) in
    let order' := snd (snd outcome) in
    (units s !! unitId = None -> outcome = (None, (s, order))) /\
    (forall u : Unit,
        units s !! unitId = Some u ->
        fst outcome = Some u /\
        getUnit s' unitId = None /\
        (unitId ∉ deployedUnits s') /\
        (unitId ∉ incapacitatedUnits s') /\
        Forall (fun e => entryUnitId e <> unitId) order' /\
        (forall e, In e order -> entryUnitId e <> unitId -> In e order') /\
        (forall other, other <> unitId -> units s' !! other = units s !! other) /\
        (unitPositions s !! position u = Some unitId ->
         unitPositions s' !! position u = None) /\
        (forall p holder, unitPositions s !! p = Some holder -> holder <> unitId ->
                          unitPositions s' !! p = Some holder)) /\
    (forall unit : Unit,
        unitId = Units.unitId unit ->
        units s !! unitId = None ->
        unitPositions s !! position unit = None ->
        (unitId ∉ deployedUnits s) -> (unitId ∉ incapacitatedUnits s) ->
        Forall (fun e => entryUnitId e <> unitId) order ->
        removeUnit (snd (addUnit s unit)) order unitId = (Some unit, (s, order))).
Proof.
  intros s order unitId outcome s' order'. subst outcome s' order'.
  split; [|split].
  - intros Hu. unfold removeUnit. now rewrite Hu.
  - intros u Hu. unfold removeUnit. rewrite Hu.
    cbn [fst snd getUnit units deployedUnits incapacitatedUnits unitPositions].
    split; [reflexivity|].
    split; [apply lookup_delete_eq|].
    split; [apply not_elem_of_difference; right; now apply elem_of_singleton|].
    split; [apply not_elem_of_difference; right; now apply elem_of_singleton|].
    split.
    { apply List.Forall_forall. intros e He. apply filter_In in He.
      destruct He as [_ He]. now apply negb_true_iff, String.eqb_neq in He. }
    split.
    { intros e He Hid. apply filter_In. split; [exact He|].
      now apply negb_true_iff, String.eqb_neq. }
    split; [intros other Hne; apply lookup_delete_ne; congruence|].
    split.
    { intros Hh. rewrite Hh, String.eqb_refl. apply lookup_delete_eq. }
    intros p holder Hl Hne.
    destruct (unitPositions s !! position u) as [h|] eqn:Hh; [|exact Hl].
    destruct (String.eqb h unitId) eqn:E; [|exact Hl].
    apply String.eqb_eq in E. subst h.
    rewrite lookup_delete_ne; [exact Hl|]. intros <-. congruence.
  - intros unit -> Hfresh Hfree Hd Hi Hord.
    unfold addUnit. rewrite Hfresh, Hfree. cbn [snd].
    unfold removeUnit. cbn [units unitPositions deployedUnits incapacitatedUnits
                            phase turn mapWidth mapHeight terrain].
    rewrite !lookup_insert_eq, String.eqb_refl.
    rewrite (filter_all _ _ Hord).
    rewrite delete_insert_id by exact Hfresh.
    rewrite delete_insert_id by exact Hfree.
    rewrite !difference_disjoint_L by set_solver.
    destruct s; reflexivity.
Qed.

Lemma removeUnit_forgets_the_unit_witness :
  removeUnit lakeside [] "u1" = (Some (Sample.recruit "u1"), (emptyMatch, [])) /\
  removeUnit emptyMatch [] "u1" = (None, (emptyMatch, [])).
Proof.
  pose proof (removeUnit_forgets_the_unit emptyMatch [] "u1") as H.
  cbv zeta in H. destruct H as (Hnone & _ & Hround).
  split.
  - apply (Hround (Sample.recruit "u1")).
    + reflexivity.
    + apply lookup_empty.
    + apply lookup_empty.
    + cbn. set_solver.
    + cbn. set_solver.
    + constructor.
  - apply Hnone. apply lookup_empty.
Defined.

(** ** Terrain *)

(** X23: after [setTerrainAt], [getTerrainAt] returns the new tile at the
    tile's coordinates and is unchanged elsewhere.  On a free tile inside
    the map, a flying unit always passes, an amphibious unit always passes
    water, and any other unit passes exactly when the tile's move cost is
    not Infinity; a tile outside the map or one that holds a unit is never
    passable, whatever the terrain. *)
Theorem terrain_passability :
  forall (s : CombatState) (tile : TerrainTile) (unitType : string),
    let s' := setTerrainAt s tile in
    let x := tileX tile in
    let y := tileY tile in
    getTerrainAt s' x y = Some tile /\
    (forall x' y', (x', y') <> (x, y) -> getTerrainAt s' x' y' = getTerrainAt s x' y') /\
    (forall x' y' t, outOfBounds s x' y' = true -> isPositionPassable s' x' y' t = false) /\
    (forall x' y' t, is_Some (getUnitAtPosition s x' y') ->
                     isPositionPassable s' x' y' t = false) /\
    (outOfBounds s x y = false -> getUnitAtPosition s x y = None ->
     isPositionPassable s' x y "flying" = true /\
     (tileType tile = "WATER"%string -> isPositionPassable s' x y "amphibious" = true) /\
     (unitType <> "flying"%string ->
      unitType <> "amphibious"%string \/ tileType tile <> "WATER"%string ->
      (isPositionPassable s' x y unitType = true <-> moveCost tile <> Infinity))).
Proof.
  intros s tile unitType s' x y. subst s' x y.
  assert (Hget : getTerrainAt (setTerrainAt s tile) (tileX tile) (tileY tile) = Some tile).
  { unfold getTerrainAt, setTerrainAt. cbn [terrain]. apply lookup_insert_eq. }
  split; [exact Hget|].
  split.
  { intros x' y' Hne. unfold getTerrainAt, setTerrainAt. cbn [terrain].
    apply lookup_insert_ne. congruence. }
  split.
  { intros x' y' t Hout. unfold isPositionPassable.
    change (outOfBounds (setTerrainAt s tile) x' y') with (outOfBounds s x' y').
    now rewrite Hout. }
  split.
  { intros x' y' t [u Hu]. unfold isPositionPassable.
    change (outOfBounds (setTerrainAt s tile) x' y') with (outOfBounds s x' y').
    change (getUnitAtPosition (setTerrainAt s tile) x' y')
      with (getUnitAtPosition s x' y').
    rewrite Hu. destruct (outOfBounds s x' y'); reflexivity. }
  intros Hin Hfree.
  assert (Hpass : forall t,
             isPositionPassable (setTerrainAt s tile) (tileX tile) (tileY tile) t =
             match getMoveCost tile t with Cost _ => true | Infinity => false end).
  { intros t. unfold isPositionPassable.
    change (outOfBounds (setTerrainAt s tile) (tileX tile) (tileY tile))
      with (outOfBounds s (tileX tile) (tileY tile)).
    change (getUnitAtPosition (setTerrainAt s tile) (tileX tile) (tileY tile))
      with (getUnitAtPosition s (tileX tile) (tileY tile)).
    now rewrite Hin, Hfree, Hget. }
  rewrite !Hpass. split; [reflexivity|]. split.
  - intros Hw. unfold getMoveCost. cbn [String.eqb Ascii.eqb Bool.eqb].
    rewrite Hw. reflexivity.
  - intros Hfly Hamph. unfold getMoveCost.
    apply String.eqb_neq in Hfly. rewrite Hfly.
    assert (Hno : (String.eqb unitType "amphibious"
                   && String.eqb (tileType tile) "WATER")%bool = false).
    { apply andb_false_iff. destruct Hamph as [H|H]; apply String.eqb_neq in H; auto. }
    rewrite Hno. destruct (moveCost tile); split; congruence.
Qed.

Lemma terrain_passability_witness :
  isPositionPassable (setTerrainAt lakeside lake) 1 1 "flying" = true /\
  isPositionPassable (setTerrainAt lakeside lake) 1 1 "amphibious" = true /\
  isPositionPassable (setTerrainAt lakeside lake) 1 1 "normal" <> true.
Proof.
  pose proof (terrain_passability lakeside lake "normal") as H.
  cbv zeta in H. destruct H as (_ & _ & _ & _ & H).
  destruct H as (Hfly & Hwater & Hother).
  - reflexivity.
  - reflexivity.
  - split; [exact Hfly|]. split; [apply Hwater; reflexivity|].
    intros Hp. apply Hother in Hp.
    + apply Hp. reflexivity.
    + discriminate.
    + left. discriminate.
Defined.
End FieldFacts.

Module TurnsFacts.
Import Units Initiative Turns.
Local Open Scope Q_scope.

(** ** Finding the next active unit *)

Lemma entryAt_nat (order : list InitiativeEntry) (i : nat) :
  entryAt order (Z.of_nat i) = order !! i.
Proof.
  unfold entryAt. destruct (Z.of_nat i <? 0)%Z eqn:E; [apply Z.ltb_lt in E; lia|].
  now rewrite Nat2Z.id.
Qed.

Lemma search_from (order : list InitiativeEntry) :
  forall (k i : nat),
    (i < length order)%nat -> (length order - i <= k)%nat ->
    (forall j e, (i <= j)%nat -> order !! j = Some e -> eligible e = true ->
                 (forall j' e', (i <= j' < j)%nat -> order !! j' = Some e' ->
                                eligible e' = false) ->
                 search order k (Z.of_nat i) = mkNext (Some e) (Z.of_nat j) false) /\
    ((forall j e, (i <= j)%nat -> order !! j = Some e -> eligible e = false) ->
     search order k (Z.of_nat i) = mkNext None 0 true).
Proof.
  induction k as [|k IH]; intros i Hi Hk; [lia|].
  cbn [search]. rewrite entryAt_nat.
  destruct (lookup_lt_is_Some_2 order i Hi) as [x Hx]. rewrite Hx.
  assert (Hnext : forall r : NextActive,
             (S i < length order)%nat ->
             (let index' := Z.rem (Z.of_nat i + 1) (Z.of_nat (length order)) in
              if (index' =? 0)%Z then mkNext None 0 true else r) = r).
  { intros r Hlt. cbv zeta.
    rewrite Z.rem_small by lia.
    destruct (Z.of_nat i + 1 =? 0)%Z eqn:E; [apply Z.eqb_eq in E; lia | reflexivity]. }
  assert (Hlast : forall r : NextActive,
             S i = length order ->
             (let index' := Z.rem (Z.of_nat i + 1) (Z.of_nat (length order)) in
              if (index' =? 0)%Z then mkNext None 0 true else r) = mkNext None 0 true).
  { intros r Heq. cbv zeta.
    replace (Z.of_nat i + 1)%Z with (Z.of_nat (length order)) by lia.
    rewrite Z.rem_same by lia. reflexivity. }
  assert (Hstep : Z.rem (Z.of_nat i + 1) (Z.of_nat (length order)) = Z.of_nat (S i)
                  \/ S i = length order).
  { destruct (decide (S i = length order)) as [H|H]; [now right|left].
    rewrite Z.rem_small by lia. lia. }
  split.
  - intros j e Hij Hj He Hbefore.
    destruct (decide (j = i)) as [->|Hne].
    + rewrite Hx in Hj. injection Hj as ->. now rewrite He.
    + assert (Hxe : eligible x = false) by (apply (Hbefore i x); [lia | exact Hx]).
      rewrite Hxe.
      assert (Hlt : (S i < length order)%nat).
      { apply lookup_lt_Some in Hj. lia. }
      rewrite Hnext by exact Hlt.
      rewrite Z.rem_small by lia.
      replace (Z.of_nat i + 1)%Z with (Z.of_nat (S i)) by lia.
      destruct (IH (S i) Hlt ltac:(lia)) as [IH1 _].
      apply IH1; [lia | exact Hj | exact He |].
      intros j' e' Hj' Hl'. apply (Hbefore j' e'); [lia | exact Hl'].
  - intros Hnone.
    rewrite (Hnone i x (le_n i) Hx).
    destruct (decide (S i = length order)) as [Heq|Hneq].
    + now rewrite Hlast.
    + assert (Hlt : (S i < length order)%nat) by lia.
      rewrite Hnext by exact Hlt.
      rewrite Z.rem_small by lia.
      replace (Z.of_nat i + 1)%Z with (Z.of_nat (S i)) by lia.
      destruct (IH (S i) Hlt ltac:(lia)) as [_ IH2].
      apply IH2. intros j e Hj. apply Hnone. lia.
Qed.

(** From a position on, either some entry is the first that can act or
    none can. *)
Lemma first_eligible_or_none (order : list InitiativeEntry) (c : nat) :
  (exists j x, (c <= j)%nat /\ order !! j = Some x /\ eligible x = true /\
               forall j' e', (c <= j' < j)%nat -> order !! j' = Some e' ->
                             eligible e' = false)
  \/ (forall j x, (c <= j)%nat -> order !! j = Some x -> eligible x = false).
Proof.
  assert (Hgen : forall n c, (length order - c <= n)%nat ->
             (exists j x, (c <= j)%nat /\ order !! j = Some x /\ eligible x = true /\
                          forall j' e', (c <= j' < j)%nat -> order !! j' = Some e' ->
                                        eligible e' = false)
             \/ (forall j x, (c <= j)%nat -> order !! j = Some x -> eligible x = false)).
  { clear c. induction n as [|n IH]; intros c Hn.
    - right. intros j x Hj Hl. apply lookup_lt_Some in Hl. lia.
    - destruct (order !! c) as [x|] eqn:Hx.
      + destruct (eligible x) eqn:Ex.
        * left. exists c, x. repeat split; auto. intros j' e' Hj'. lia.
        * destruct (IH (S c) ltac:(lia)) as [(j & y & Hj & Hl & Hy & Hb)|Hnone].
          -- left. exists j, y. repeat split; auto; [lia|].
             intros j' e' Hj' Hl'. destruct (decide (j' = c)) as [->|Hne].
             ++ congruence.
             ++ apply (Hb j' e'); [lia | exact Hl'].
          -- right. intros j y Hj Hl. destruct (decide (j = c)) as [->|Hne].
             ++ congruence.
             ++ apply (Hnone j y); [lia | exact Hl].
      + right. intros j y Hj Hl. apply lookup_ge_None in Hx.
        apply lookup_lt_Some in Hl. lia. }
  apply (Hgen (length order) c). lia.
Qed.

(** Attempts beyond the end of the order are never used. *)
Lemma search_attempts (order : list InitiativeEntry) (k k' i : nat) :
  (i < length order)%nat ->
  (length order - i <= k)%nat -> (length order - i <= k')%nat ->
  search order k (Z.of_nat i) = search order k' (Z.of_nat i).
Proof.
  intros Hi Hk Hk'.
  destruct (search_from order k i Hi Hk) as [A1 A2].
  destruct (search_from order k' i Hi Hk') as [B1 B2].
  destruct (first_eligible_or_none order i) as [(j & x & Hj & Hl & Hx & Hb)|Hnone].
  - now rewrite (A1 j x Hj Hl Hx Hb), (B1 j x Hj Hl Hx Hb).
  - now rewrite (A2 Hnone), (B2 Hnone).
Qed.

Lemma search_eligible (order : list InitiativeEntry) (k i : nat) (e : InitiativeEntry) :
  (i < length order)%nat -> (length order - i <= k)%nat ->
  nextEntry (search order k (Z.of_nat i)) = Some e ->
  hasActed e = false /\ entryIncapacitated e = false /\
  endOfRound (search order k (Z.of_nat i)) = false.
Proof.
  intros Hi Hk He.
  destruct (search_from order k i Hi Hk) as [H1 H2].
  destruct (first_eligible_or_none order i) as [(j & x & Hj & Hl & Hx & Hb)|Hnone].
  - rewrite (H1 j x Hj Hl Hx Hb) in He |- *. cbn in He. injection He as <-.
    unfold eligible in Hx. apply andb_true_iff in Hx. destruct Hx as [Ha Hinc].
    apply negb_true_iff in Ha, Hinc. auto.
  - rewrite (H2 Hnone) in He. discriminate.
Qed.

(** Below the start there is no entry, and the index climbs to 0. *)
Lemma search_below_start (order : list InitiativeEntry) :
  forall (r k : nat),
    (1 <= r)%nat -> (r <= k)%nat -> (r < length order)%nat ->
    search order k (- Z.of_nat r) = mkNext None 0 true.
Proof.
  induction r as [|r IH]; intros k Hr Hk Hlen; [lia|].
  destruct k as [|k]; [lia|]. cbn [search].
  assert (Hat : entryAt order (- Z.of_nat (S r)) = None).
  { unfold entryAt. destruct (- Z.of_nat (S r) <? 0)%Z eqn:E; [reflexivity|].
    apply Z.ltb_ge in E. lia. }
  rewrite Hat.
  replace (- Z.of_nat (S r) + 1)%Z with (- Z.of_nat r)%Z by lia.
  rewrite Z.rem_opp_l by lia. rewrite Z.rem_small by lia.
  destruct r as [|r].
  - reflexivity.
  - destruct (- Z.of_nat (S r) =? 0)%Z eqn:E; [apply Z.eqb_eq in E; lia|].
    apply IH; lia.
Qed.

Lemma search_before_start (order : list InitiativeEntry) (index : Z) :
  order <> [] -> (index < 0)%Z ->
  search order (length order) index = mkNext None 0 true.
Proof.
  intros Hne Hneg.
  assert (Hlen : (0 < length order)%nat) by (destruct order; [contradiction | cbn; lia]).
  destruct (length order) as [|k] eqn:Ek; [lia|]. cbn [search]. rewrite Ek.
  assert (Hat : entryAt order index = None).
  { unfold entryAt. destruct (index <? 0)%Z eqn:E; [reflexivity|].
    apply Z.ltb_ge in E. lia. }
  rewrite Hat.
  assert (Hb : (- Z.of_nat (S k) < Z.rem (index + 1) (Z.of_nat (S k)) <= 0)%Z)
    by (apply Z.rem_bound_pos_neg; lia).
  destruct (Z.rem (index + 1) (Z.of_nat (S k)) =? 0)%Z eqn:E; [reflexivity|].
  apply Z.eqb_neq in E.
  replace (Z.rem (index + 1) (Z.of_nat (S k)))
    with (- Z.of_nat (Z.to_nat (- Z.rem (index + 1) (Z.of_nat (S k)))))%Z by lia.
  apply search_below_start; lia.
Qed.

Lemma search_past_end (order : list InitiativeEntry) (index : Z) :
  order <> [] -> (Z.of_nat (length order) <= index)%Z ->
  let start := ((index + 1) mod Z.of_nat (length order))%Z in
  (start = 0%Z -> search order (length order) index = mkNext None 0 true) /\
  (start <> 0%Z ->
   search order (length order) index = search order (length order) start).
Proof.
  intros Hne Hge start.
  assert (Hlen : (0 < length order)%nat) by (destruct order; [contradiction | cbn; lia]).
  assert (Hstart : (0 <= start < Z.of_nat (length order))%Z)
    by (apply Z.mod_pos_bound; lia).
  assert (Hrem : Z.rem (index + 1) (Z.of_nat (length order)) = start)
    by (apply Z.rem_mod_nonneg; lia).
  assert (Hat : entryAt order index = None).
  { unfold entryAt. destruct (index <? 0)%Z; [reflexivity|].
    apply lookup_ge_None. lia. }
  assert (Hstep : search order (length order) index =
                  if (start =? 0)%Z then mkNext None 0 true
                  else search order (length order - 1) start).
  { destruct (length order) as [|k] eqn:Ek; [lia|].
    cbn [search]. rewrite Ek, Hat, Hrem.
    replace (S k - 1)%nat with k by lia. reflexivity. }
  rewrite Hstep. split.
  - intros ->. reflexivity.
  - intros Hnz. destruct (start =? 0)%Z eqn:E; [apply Z.eqb_eq in E; contradiction|].
    replace start with (Z.of_nat (Z.to_nat start)) by lia.
    apply search_attempts; lia.
Qed.

(** X24: [getNextActiveUnit] never looks back.  For a current index inside
    the order it scans forward: it returns the first entry at or after the
    current index that has not acted and is not incapacitated, with its
    index, and if there is none up to the end of the order it reports the
    end of the round with index 0, even when earlier entries could still
    act.  For an index before the start it reports the end of the round
    with index 0 whatever the entries are.  For an index at or past the end
    it moves on to (index + 1) mod length: it reports the end of the round
    (index 0) if that is 0 and otherwise answers as for that index, so
    that entry 0 is skipped.  For an empty order it reports the end of the
    round with index -1.  An entry it returns has not acted and is not
    incapacitated. *)
Theorem getNextActiveUnit_scans_forward_only :
  forall (order : list InitiativeEntry) (index : Z),
    getNextActiveUnit [] index = mkNext None (-1) true /\
    (forall current : nat,
        index = Z.of_nat current -> (current < length order)%nat ->
        (forall j e,
            (current <= j)%nat -> order !! j = Some e -> eligible e = true ->
            (forall j' e', (current <= j' < j)%nat -> order !! j' = Some e' ->
                           eligible e' = false) ->
            getNextActiveUnit order index = mkNext (Some e) (Z.of_nat j) false) /\
        ((forall j e, (current <= j)%nat -> order !! j = Some e ->
                      eligible e = false) ->
         getNextActiveUnit order index = mkNext None 0 true)) /\
    (order <> [] -> (index < 0)%Z ->
     getNextActiveUnit order index = mkNext None 0 true) /\
    (order <> [] -> (Z.of_nat (length order) <= index)%Z ->
     let start := ((index + 1) mod Z.of_nat (length order))%Z in
     (0 <= start < Z.of_nat (length order))%Z /\
     (start = 0%Z -> getNextActiveUnit order index = mkNext None 0 true) /\
     (start <> 0%Z ->
      getNextActiveUnit order index = getNextActiveUnit order start)) /\
    (forall e, nextEntry (getNextActiveUnit order index) = Some e ->
               hasActed e = false /\ entryIncapacitated e = false /\
               endOfRound (getNextActiveUnit order index) = false).
Proof.
  intros order index.
  assert (Hget : order <> [] ->
                 forall i, getNextActiveUnit order i = search order (length order) i).
  { intros Hne i. destruct order; [contradiction | reflexivity]. }
  assert (Hin : forall current : nat,
             (current < length order)%nat -> order <> []).
  { intros current Hc ->. cbn in Hc. lia. }
  split; [reflexivity|].
  split.
  { intros current -> Hc. rewrite (Hget (Hin current Hc)).
    apply search_from; [exact Hc | lia]. }
  split.
  { intros Hne Hneg. rewrite (Hget Hne). now apply search_before_start. }
  split.
  { intros Hne Hge start.
    assert (Hlen : (0 < length order)%nat)
      by (destruct order; [contradiction | cbn; lia]).
    split; [apply Z.mod_pos_bound; lia|].
    rewrite !(Hget Hne). now apply search_past_end. }
  intros e He.
  destruct order as [|x rest] eqn:Eo; [discriminate He|]. rewrite <- Eo in *.
  assert (Hne : order <> []) by (rewrite Eo; discriminate).
  assert (Hlen : (0 < length order)%nat) by (rewrite Eo; cbn; lia).
  rewrite (Hget Hne) in *.
  destruct (Z_lt_le_dec index 0) as [Hneg|Hpos].
  { rewrite (search_before_start order index Hne Hneg) in He. discriminate. }
  destruct (Z_lt_le_dec index (Z.of_nat (length order))) as [Hlt|Hge].
  - replace index with (Z.of_nat (Z.to_nat index)) in * by lia.
    apply search_eligible in He; [exact He | lia | lia].
  - destruct (search_past_end order index Hne Hge) as [H0 H1].
    set (start := ((index + 1) mod Z.of_nat (length order))%Z) in *.
    assert (Hstart : (0 <= start < Z.of_nat (length order))%Z)
      by (apply Z.mod_pos_bound; lia).
    destruct (Z.eq_dec start 0) as [Hz|Hnz].
    + rewrite (H0 Hz) in He. discriminate.
    + rewrite (H1 Hnz) in *.
      replace start with (Z.of_nat (Z.to_nat start)) in * by lia.
      apply search_eligible in He; [exact He | lia | lia].
Qed.

(** Of three entries the first has acted: from index 0 the second is next.
    With all three able to act, index 3 answers with the second entry
    (entry 0 is skipped) and index -1 with the end of the round. *)
Lemma getNextActiveUnit_scans_forward_only_witness :
  let entry (id : string) (acted : bool) :=
    mkEntry id id "p1" 15 10 25 7 [] acted false 0 in
  let order := [entry "a" true; entry "b" false; entry "c" false] in
  let fresh := [entry "a" false; entry "b" false; entry "c" false] in
  getNextActiveUnit order 0 = mkNext (Some (entry "b" false)) 1 false /\
  getNextActiveUnit [entry "a" true] 0 = mkNext None 0 true /\
  getNextActiveUnit fresh 3 = mkNext (Some (entry "b" false)) 1 false /\
  getNextActiveUnit fresh (-1) = mkNext None 0 true.
Proof.
  cbv zeta.
  set (a := mkEntry "a" "a" "p1" 15 10 25 7 [] true false 0).
  set (a' := mkEntry "a" "a" "p1" 15 10 25 7 [] false false 0).
  set (b := mkEntry "b" "b" "p1" 15 10 25 7 [] false false 0).
  set (c := mkEntry "c" "c" "p1" 15 10 25 7 [] false false 0).
  pose proof (getNextActiveUnit_scans_forward_only [a; b; c] 0) as (_ & H1 & _).
  pose proof (getNextActiveUnit_scans_forward_only [a] 0) as (_ & H2 & _).
  pose proof (getNextActiveUnit_scans_forward_only [a'; b; c] 3)
    as (_ & _ & _ & H3 & _).
  pose proof (getNextActiveUnit_scans_forward_only [a'; b; c] 1) as (_ & H3' & _).
  pose proof (getNextActiveUnit_scans_forward_only [a'; b; c] (-1))
    as (_ & _ & H4 & _).
  destruct (H1 0%nat eq_refl) as (Hfound & _); [cbn; lia|].
  destruct (H2 0%nat eq_refl) as (_ & Hnone); [cbn; lia|].
  destruct (H3' 1%nat eq_refl) as (Hsecond & _); [cbn; lia|].
  destruct H3 as (_ & _ & Hskip); [discriminate | cbn; lia |].
  split; [|split; [|split]].
  - apply (Hfound 1%nat b); [lia | reflexivity | reflexivity |].
    intros j' e' Hj' Hl'. assert (j' = 0%nat) by lia. subst j'.
    cbn in Hl'. injection Hl' as <-. reflexivity.
  - apply Hnone. intros j e _ Hl. destruct j as [|j]; cbn in Hl; [|discriminate].
    injection Hl as <-. reflexivity.
  - rewrite Hskip by (cbn; discriminate).
    apply (Hsecond 1%nat b); [lia | reflexivity | reflexivity |].
    intros j' e' Hj' Hl'. lia.
  - apply H4; [discriminate | lia].
Defined.
(** ** What the validator accepts *)

Lemma outranked_false (a b : InitiativeEntry) :
  outranked a b = false <-> ranksAtLeast a b.
Proof.
  unfold outranked, ranksAtLeast. rewrite orb_false_iff, andb_false_iff.
  split.
  - intros [H1 H2].
    assert (Hge : totalInitiative b <= totalInitiative a).
    { destruct (Qlt_le_dec (totalInitiative a) (totalInitiative b)) as [H|H]; [|exact H].
      apply JsFacts.ltb_true in H. congruence. }
    destruct (Qlt_le_dec (totalInitiative b) (totalInitiative a)) as [H|H]; [now left|].
    right. assert (Heq : totalInitiative a == totalInitiative b) by lra.
    split; [exact Heq|].
    destruct H2 as [H2|H2].
    + apply Qeq_bool_iff in Heq. congruence.
    + destruct (Qlt_le_dec (tiebreaker a) (tiebreaker b)) as [H'|H']; [|exact H'].
      apply JsFacts.ltb_true in H'. congruence.
  - intros [H|[H1 H2]].
    + split.
      * destruct (Js.ltb _ _) eqn:E; [|reflexivity]. apply JsFacts.ltb_true in E. lra.
      * left. destruct (Qeq_bool _ _) eqn:E; [|reflexivity].
        apply Qeq_bool_iff in E. lra.
    + split.
      * destruct (Js.ltb (totalInitiative a) _) eqn:E; [|reflexivity].
        apply JsFacts.ltb_true in E. lra.
      * right. destruct (Js.ltb (tiebreaker a) _) eqn:E; [|reflexivity].
        apply JsFacts.ltb_true in E. lra.
Qed.

Lemma beats_spec (e o : InitiativeEntry) :
  (beats e o = true -> ranksAtLeast e o) /\
  (beats e o = false -> ranksAtLeast o e).
Proof.
  unfold beats, ranksAtLeast. split.
  - intros H. apply orb_true_iff in H. destruct H as [H|H].
    + apply JsFacts.gtb_true in H. now left.
    + apply andb_true_iff in H. destruct H as [H1 H2].
      apply Qeq_bool_iff in H1. apply JsFacts.gtb_true in H2. right. split; lra.
  - intros H. apply orb_false_iff in H. destruct H as [H1 H2].
    assert (Hge : totalInitiative e <= totalInitiative o).
    { destruct (Qlt_le_dec (totalInitiative o) (totalInitiative e)) as [H|H]; [|exact H].
      apply JsFacts.gtb_true in H. congruence. }
    destruct (Qlt_le_dec (totalInitiative e) (totalInitiative o)) as [H|H]; [now left|].
    right. assert (Heq : totalInitiative e == totalInitiative o) by lra.
    split; [lra|].
    apply andb_false_iff in H2. destruct H2 as [H2|H2].
    + apply Qeq_bool_iff in Heq. congruence.
    + destruct (Qlt_le_dec (tiebreaker o) (tiebreaker e)) as [H'|H']; [|exact H'].
      apply JsFacts.gtb_true in H'. congruence.
Qed.

Lemma ranksAtLeast_trans (a b c : InitiativeEntry) :
  ranksAtLeast a b -> ranksAtLeast b c -> ranksAtLeast a c.
Proof.
  unfold ranksAtLeast. intros [H1|[H1 H1']] [H2|[H2 H2']].
  - left. lra.
  - left. lra.
  - left. lra.
  - right. split; lra.
Qed.

Lemma ids_not_seen (order : list InitiativeEntry) :
  forall seen,
    noDuplicateIds order seen = true <->
    List.NoDup (map entryUnitId order) /\
    (forall x, In x (map entryUnitId order) -> ~ In x seen).
Proof.
  induction order as [|e rest IH]; intros seen; cbn [noDuplicateIds map].
  - split; [intros _; split; [constructor | intros x []] | reflexivity].
  - assert (Hone : Str.oneOf (entryUnitId e) seen = true <-> In (entryUnitId e) seen).
    { unfold Str.oneOf. rewrite existsb_exists. split.
      - intros (x & Hx & He). apply String.eqb_eq in He. now subst.
      - intros H. exists (entryUnitId e). split; [exact H | apply String.eqb_refl]. }
    destruct (Str.oneOf (entryUnitId e) seen) eqn:E.
    + split; [discriminate|]. intros [_ H]. exfalso.
      apply (H (entryUnitId e)); [now left | now apply Hone].
    + rewrite IH. rewrite List.NoDup_cons_iff. split.
      * intros [Hnd Hseen]. split; [split|].
        -- intros Hin. apply (Hseen _ Hin). now left.
        -- exact Hnd.
        -- intros x [<-|Hx] Hs.
           ++ apply Hone in Hs. discriminate.
           ++ apply (Hseen x Hx). now right.
      * intros [[Hnot Hnd] Hseen]. split; [exact Hnd|].
        intros x Hx [<-|Hs]; [contradiction|].
        apply (Hseen x); [now right | exact Hs].
Qed.

Lemma indices_from (order : list InitiativeEntry) :
  forall i,
    indicesSequential order i = true <->
    (forall k e, order !! k = Some e -> turnIndex e = (i + Z.of_nat k)%Z).
Proof.
  induction order as [|x rest IH]; intros i; cbn [indicesSequential].
  - split; [intros _ k e H; discriminate | reflexivity].
  - destruct (turnIndex x =? i)%Z eqn:E; cbn [negb].
    + apply Z.eqb_eq in E. rewrite IH. split.
      * intros H [|k] e Hl; cbn in Hl.
        -- injection Hl as <-. lia.
        -- rewrite (H k e Hl). lia.
      * intros H k e Hl. rewrite (H (S k) e Hl). lia.
    + apply Z.eqb_neq in E. split; [discriminate|].
      intros H. exfalso. apply E. rewrite (H 0%nat x eq_refl). lia.
Qed.

Lemma sorted_spec (order : list InitiativeEntry) :
  properlySorted order = true <-> StronglySorted ranksAtLeast order.
Proof.
  induction order as [|a rest IH]; [split; [constructor | reflexivity]|].
  destruct rest as [|b rest].
  - split; [intros _; repeat constructor | reflexivity].
  - change (properlySorted (a :: b :: rest))
      with (if outranked a b then false else properlySorted (b :: rest)).
    destruct (outranked a b) eqn:E.
    + split; [discriminate|]. intros H. inversion H as [|? ? _ Hall]; subst.
      inversion Hall as [|? ? Hab _]; subst.
      apply outranked_false in Hab. congruence.
    + apply outranked_false in E. rewrite IH. split.
      * intros H. constructor; [exact H|].
        constructor; [exact E|].
        inversion H as [|? ? _ Hall]; subst.
        eapply Forall_impl; [exact Hall|].
        intros c Hc. cbn. eapply ranksAtLeast_trans; eassumption.
      * intros H. now inversion H.
Qed.

Lemma validate_iff (order : list InitiativeEntry) :
  validateInitiativeOrder order = true <-> wellOrdered order.
Proof.
  unfold validateInitiativeOrder, wellOrdered.
  pose proof (ids_not_seen order []) as H1.
  pose proof (indices_from order 0) as H2.
  pose proof (sorted_spec order) as H3.
  destruct (noDuplicateIds order []); cbn [negb].
  2:{ split; [discriminate|]. intros (H & _). apply H1. split; [exact H | intros x _ []]. }
  destruct (indicesSequential order 0); cbn [negb].
  2:{ split; [discriminate|]. intros (_ & H & _). apply H2.
      intros k e Hl. rewrite (H k e Hl). lia. }
  destruct (properlySorted order); cbn [negb].
  2:{ split; [discriminate|]. intros (_ & _ & H). now apply H3. }
  split; [intros _ | reflexivity].
  split; [now apply H1|]. split; [|now apply H3].
  intros i e Hl. destruct H2 as [H2 _]. rewrite (H2 eq_refl i e Hl). lia.
Qed.

(** ** Re-indexing *)

Lemma assign_lookup (l : list InitiativeEntry) :
  forall k i e,
    assignTurnIndices l k !! i = Some e ->
    exists e0, l !! i = Some e0 /\ e = setTurnIndex e0 (k + Z.of_nat i)%Z.
Proof.
  induction l as [|x rest IH]; intros k i e; cbn [assignTurnIndices]; [discriminate|].
  destruct i as [|i]; cbn.
  - intros H. injection H as <-. exists x. split; [reflexivity|]. f_equal. lia.
  - intros H. destruct (IH _ _ _ H) as (e0 & H0 & ->).
    exists e0. split; [exact H0|]. f_equal. lia.
Qed.

Lemma assign_ranks (l : list InitiativeEntry) :
  forall k, StronglySorted ranksAtLeast l ->
            StronglySorted ranksAtLeast (assignTurnIndices l k).
Proof.
  induction l as [|x rest IH]; intros k H; cbn [assignTurnIndices]; [constructor|].
  inversion H as [|? ? Hs Hall]; subst. constructor; [now apply IH|].
  apply List.Forall_forall. intros e He.
  apply InitiativeFacts.assignTurnIndices_in in He. destruct He as (e0 & i & He0 & ->).
  rewrite List.Forall_forall in Hall. exact (Hall e0 He0).
Qed.

Lemma assign_wellOrdered (l : list InitiativeEntry) :
  List.NoDup (map entryUnitId l) -> StronglySorted ranksAtLeast l ->
  wellOrdered (assignTurnIndices l 0).
Proof.
  intros Hnd Hs. unfold wellOrdered.
  rewrite InitiativeFacts.assignTurnIndices_ids.
  split; [exact Hnd|]. split; [|now apply assign_ranks].
  intros i e Hl. destruct (assign_lookup _ _ _ _ Hl) as (e0 & _ & ->). cbn. lia.
Qed.

Lemma assign_fixed (l : list InitiativeEntry) :
  forall k,
    (forall i e, l !! i = Some e -> turnIndex e = (k + Z.of_nat i)%Z) ->
    assignTurnIndices l k = l.
Proof.
  induction l as [|x rest IH]; intros k H; cbn [assignTurnIndices]; [reflexivity|].
  f_equal.
  - pose proof (H 0%nat x eq_refl) as Hx. destruct x; cbn in *. f_equal. lia.
  - apply IH. intros i e Hl. rewrite (H (S i) e Hl). lia.
Qed.

(** ** Sorted insertion and removal *)

Lemma sorted_app (R : InitiativeEntry -> InitiativeEntry -> Prop)
    (l1 l2 : list InitiativeEntry) :
  StronglySorted R (l1 ++ l2) <->
  StronglySorted R l1 /\ StronglySorted R l2 /\
  (forall a b, In a l1 -> In b l2 -> R a b).
Proof.
  induction l1 as [|x rest IH]; cbn [app].
  - split; [intros H; repeat split; [constructor | exact H | intros a b []] | tauto].
  - split.
    + intros H. inversion H as [|? ? Hs Hall]; subst.
      apply IH in Hs. destruct Hs as (H1 & H2 & H3).
      rewrite List.Forall_forall in Hall.
      split; [constructor; [exact H1|]|split; [exact H2|]].
      * apply List.Forall_forall. intros a Ha. apply Hall, in_or_app. now left.
      * intros a b [<-|Ha] Hb; [apply Hall, in_or_app; now right | now apply H3].
    + intros (H1 & H2 & H3). inversion H1 as [|? ? Hs Hall]; subst.
      constructor.
      * apply IH. split; [exact Hs|]. split; [exact H2|].
        intros a b Ha Hb. apply H3; [now right | exact Hb].
      * rewrite List.Forall_forall in Hall |- *.
        intros a Ha. apply in_app_or in Ha. destruct Ha as [Ha|Ha];
          [now apply Hall | apply H3; [now left | exact Ha]].
Qed.

Lemma insertIndex_spec (e : InitiativeEntry) (order : list InitiativeEntry) :
  (insertIndex e order <= length order)%nat /\
  (forall a, In a (take (insertIndex e order) order) -> beats e a = false) /\
  (forall x, order !! insertIndex e order = Some x -> beats e x = true).
Proof.
  induction order as [|o rest IH]; cbn [insertIndex].
  - cbn. split; [lia|]. split; [intros a [] | discriminate].
  - destruct (beats e o) eqn:E.
    + cbn. split; [lia|]. split; [intros a [] | intros x H; injection H as <-; exact E].
    + destruct IH as (H1 & H2 & H3). cbn [length take lookup].
      split; [lia|]. split.
      * intros a [<-|Ha]; [exact E | now apply H2].
      * exact H3.
Qed.

Lemma take_drop_ids (order : list InitiativeEntry) (i : nat) :
  map entryUnitId (take i order) ++ map entryUnitId (drop i order) =
  map entryUnitId order.
Proof. rewrite <- map_app. now rewrite take_drop. Qed.

Lemma inserted_ids (order : list InitiativeEntry) (entry : InitiativeEntry) (i : nat) :
  Permutation (map entryUnitId (take i order ++ entry :: drop i order))
              (entryUnitId entry :: map entryUnitId order).
Proof.
  rewrite map_app. cbn [map]. rewrite <- Permutation_middle.
  now rewrite take_drop_ids.
Qed.

Lemma inserted_sorted (order : list InitiativeEntry) (entry : InitiativeEntry) :
  StronglySorted ranksAtLeast order ->
  StronglySorted ranksAtLeast
    (take (insertIndex entry order) order ++ entry :: drop (insertIndex entry order) order).
Proof.
  intros Hs. destruct (insertIndex_spec entry order) as (Hlen & Hbefore & Hat).
  set (i := insertIndex entry order) in *.
  rewrite <- (take_drop i order) in Hs.
  apply sorted_app in Hs. destruct Hs as (H1 & H2 & H3).
  assert (Hafter : forall b, In b (drop i order) -> ranksAtLeast entry b).
  { destruct (drop i order) as [|x rest] eqn:Ed; [intros b []|].
    assert (Hx : order !! i = Some x).
    { rewrite <- (take_drop i order) at 1. rewrite Ed.
      rewrite lookup_app_r by (rewrite length_take; lia).
      rewrite length_take. replace (i - i `min` length order)%nat with 0%nat by lia.
      reflexivity. }
    pose proof (proj1 (beats_spec entry x) (Hat x Hx)) as Hex.
    inversion H2 as [|? ? _ Hall]; subst. rewrite List.Forall_forall in Hall.
    intros b [<-|Hb]; [exact Hex|].
    eapply ranksAtLeast_trans; [exact Hex | now apply Hall]. }
  apply sorted_app. split; [exact H1|]. split.
  - constructor; [exact H2|]. apply List.Forall_forall. exact Hafter.
  - intros a b Ha [<-|Hb].
    + apply beats_spec. now apply Hbefore.
    + now apply H3.
Qed.

(** X25: the order that [addUnitToInitiative] returns is the old one with
    the new unit's entry added: one entry longer, the old ids in their old
    relative order.  Given an order that [validateInitiativeOrder] accepts,
    the returned order is accepted exactly when the unit's id was not in it
    already: the insertion point and the renumbering keep the order sorted
    and the turn indices sequential, and nothing checks for a second entry
    of the same unit. *)
Theorem addUnitToInitiative_valid_iff_unit_is_new :
  forall (order : list InitiativeEntry) (unit : Unit) (rng : Rng.DeterministicRNG)
         (player : string) (bonuses : list Modifier),
    validateInitiativeOrder order = true ->
    exists order' rng',
      addUnitToInitiative order unit rng player bonuses = Some (order', rng') /\
      length order' = S (length order) /\
      Permutation (map entryUnitId order') (unitId unit :: map entryUnitId order) /\
      sublist (map entryUnitId order) (map entryUnitId order') /\
      (validateInitiativeOrder order' = true <->
       ~ In (unitId unit) (map entryUnitId order)).
Proof.
  intros order unit rng player bonuses Hvalid.
  apply validate_iff in Hvalid. destruct Hvalid as (Hnd & _ & Hs).
  unfold addUnitToInitiative.
  destruct (InitiativeFacts.calculateUnitInitiative_spec unit rng player bonuses)
    as (entry & roll & Heq & _ & _ & Hwf).
  destruct Hwf as (Hid & _).
  rewrite Heq. cbn [mbind option_bind].
  set (i := insertIndex entry order).
  set (inserted := take i order ++ entry :: drop i order).
  exists (assignTurnIndices inserted 0), (snd (Rng.nextRaw rng)).
  assert (Hperm : Permutation (map entryUnitId inserted)
                              (unitId unit :: map entryUnitId order)).
  { rewrite <- Hid. apply inserted_ids. }
  split; [reflexivity|]. split.
  { rewrite <- (length_map entryUnitId), InitiativeFacts.assignTurnIndices_ids.
    rewrite (Permutation_length Hperm). cbn. now rewrite length_map. }
  rewrite InitiativeFacts.assignTurnIndices_ids.
  split; [exact Hperm|]. split.
  { unfold inserted. rewrite map_app. cbn [map].
    rewrite <- (take_drop_ids order i) at 1.
    apply sublist_app; [reflexivity|]. apply sublist_cons. reflexivity. }
  rewrite validate_iff. split.
  - intros (Hnd' & _). rewrite InitiativeFacts.assignTurnIndices_ids in Hnd'.
    eapply Permutation_NoDup in Hnd'; [|exact Hperm].
    now apply List.NoDup_cons_iff in Hnd'.
  - intros Hfresh. apply assign_wellOrdered.
    + eapply Permutation_NoDup; [symmetry; exact Hperm|].
      apply List.NoDup_cons; assumption.
    + apply inserted_sorted. exact Hs.
Qed.

(** A recruit rolling 9 (total 24) joins three entries with totals 30, 25
    and 20: the new entry goes between the second and the third, and the
    order stays valid.  A second entry for unit "b" goes right behind the
    first one, and the validator rejects the result. *)
Lemma addUnitToInitiative_valid_iff_unit_is_new_witness :
  let entry (id : string) (total : Q) (index : Z) :=
    mkEntry id id "p1" 15 (total - 15) total 7 [] false false index in
  let order := [entry "a" 30 0%Z; entry "b" 25 1%Z; entry "c" 20 2%Z] in
  (exists order' rng',
      addUnitToInitiative order (Sample.recruit "alpha") Sample.rng12345 "p1" []
        = Some (order', rng') /\
      map entryUnitId order' = ["a"; "b"; "alpha"; "c"]%string /\
      validateInitiativeOrder order' = true) /\
  (exists order' rng',
      addUnitToInitiative order (Sample.recruit "b") Sample.rng12345 "p1" []
        = Some (order', rng') /\
      map entryUnitId order' = ["a"; "b"; "b"; "c"]%string /\
      validateInitiativeOrder order' = false).
Proof.
  cbv zeta.
  set (order := [mkEntry "a" "a" "p1" 15 (30 - 15) 30 7 [] false false 0;
                 mkEntry "b" "b" "p1" 15 (25 - 15) 25 7 [] false false 1;
                 mkEntry "c" "c" "p1" 15 (20 - 15) 20 7 [] false false 2]).
  split.
  - destruct (addUnitToInitiative_valid_iff_unit_is_new
                order (Sample.recruit "alpha") Sample.rng12345 "p1" [] eq_refl)
      as (order' & rng' & Heq & _ & _ & _ & Hiff).
    exists order', rng'. split; [exact Heq|]. split.
    + vm_compute in Heq. injection Heq as <- _. reflexivity.
    + apply Hiff. cbn. intuition discriminate.
  - destruct (addUnitToInitiative_valid_iff_unit_is_new
                order (Sample.recruit "b") Sample.rng12345 "p1" [] eq_refl)
      as (order' & rng' & Heq & _ & _ & _ & Hiff).
    exists order', rng'. split; [exact Heq|]. split.
    + vm_compute in Heq. injection Heq as <- _. reflexivity.
    + destruct (validateInitiativeOrder order') eqn:E; [|reflexivity].
      exfalso. apply (proj1 Hiff eq_refl). cbn. auto.
Defined.
(** ** Removal *)

Lemma findIndex_spec (order : list InitiativeEntry) (id : string) :
  match findIndex order id with
  | Some i =>
      exists e, order !! i = Some e /\ entryUnitId e = id /\
                ~ In id (map entryUnitId (take i order))
  | None => ~ In id (map entryUnitId order)
  end.
Proof.
  induction order as [|x rest IH]; cbn [findIndex]; [intros []|].
  destruct (String.eqb (entryUnitId x) id) eqn:E.
  - apply String.eqb_eq in E. exists x. split; [reflexivity|]. split; [exact E|]. intros [].
  - apply String.eqb_neq in E. destruct (findIndex rest id) as [i|]; cbn.
    + destruct IH as (e & Hl & He & Hnot). exists e. split; [exact Hl|].
      split; [exact He|]. intros [H|H]; [contradiction | now apply Hnot].
    + intros [H|H]; [contradiction | now apply IH].
Qed.

Lemma removed_ids (order : list InitiativeEntry) (i : nat) (e : InitiativeEntry) :
  order !! i = Some e ->
  map entryUnitId order =
  map entryUnitId (take i order) ++ entryUnitId e :: map entryUnitId (drop (S i) order).
Proof.
  intros Hl. rewrite <- (take_drop_middle order i e Hl) at 1.
  rewrite map_app. reflexivity.
Qed.

(** X26: [removeUnitFromInitiative] on an order that
    [validateInitiativeOrder] accepts returns an order that is accepted
    too and no longer holds the unit; the other ids keep their relative
    order.  For a unit that is in the order it reports the position the
    unit had, and an index adjustment of -1 wherever that position was;
    for a unit that is not, it returns the order as it is with index -1
    and adjustment 0. *)
Theorem removeUnitFromInitiative_keeps_order_valid :
  forall (order : list InitiativeEntry) (id : string),
    validateInitiativeOrder order = true ->
    validateInitiativeOrder (remainingOrder (removeUnitFromInitiative order id)) = true /\
    ~ In id (map entryUnitId (remainingOrder (removeUnitFromInitiative order id))) /\
    sublist (map entryUnitId (remainingOrder (removeUnitFromInitiative order id)))
            (map entryUnitId order) /\
    (In id (map entryUnitId order) ->
     exists (i : nat) (e : InitiativeEntry),
       order !! i = Some e /\ entryUnitId e = id /\
       removedIndex (removeUnitFromInitiative order id) = Z.of_nat i /\
       currentIndexAdjustment (removeUnitFromInitiative order id) = (-1)%Z /\
       length (remainingOrder (removeUnitFromInitiative order id))
         = (length order - 1)%nat) /\
    (~ In id (map entryUnitId order) ->
     removeUnitFromInitiative order id = mkRemoval order (-1) 0).
Proof.
  intros order id Hvalid.
  pose proof Hvalid as Hwell. apply validate_iff in Hwell.
  destruct Hwell as (Hnd & _ & Hs).
  unfold removeUnitFromInitiative.
  pose proof (findIndex_spec order id) as Hfind.
  destruct (findIndex order id) as [i|]; cbn [remainingOrder removedIndex currentIndexAdjustment].
  - destruct Hfind as (e & Hl & He & Hbefore).
    pose proof (removed_ids order i e Hl) as Hids.
    assert (Hlt : (i < length order)%nat) by (eapply lookup_lt_Some; exact Hl).
    rewrite Hids in Hnd. apply List.NoDup_remove in Hnd. destruct Hnd as [Hnd Hnot].
    rewrite <- map_app in Hnd, Hnot.
    rewrite InitiativeFacts.assignTurnIndices_ids.
    split; [|split; [|split; [|split]]].
    + apply validate_iff, assign_wellOrdered; [exact Hnd|].
      rewrite <- (take_drop_middle order i e Hl) in Hs.
      apply sorted_app in Hs. destruct Hs as (H1 & H2 & H3).
      inversion H2 as [|? ? H2' _]; subst.
      apply sorted_app. split; [exact H1|]. split; [exact H2'|].
      intros a b Ha Hb. apply H3; [exact Ha | now right].
    + rewrite <- He. exact Hnot.
    + rewrite Hids, map_app. apply sublist_app; [reflexivity|].
      apply sublist_cons. reflexivity.
    + intros _. exists i, e. split; [exact Hl|]. split; [exact He|].
      split; [reflexivity|]. split.
      * destruct (Z.of_nat i <? Z.of_nat (length order))%Z eqn:E; [reflexivity|].
        apply Z.ltb_ge in E. lia.
      * rewrite <- (length_map entryUnitId), InitiativeFacts.assignTurnIndices_ids.
        rewrite length_map, length_app, length_take, length_drop. lia.
    + intros Hnin. exfalso. apply Hnin. rewrite <- He.
      apply in_map. eapply list_elem_of_In, list_elem_of_lookup_2. exact Hl.
  - split; [exact Hvalid|]. split; [exact Hfind|]. split; [reflexivity|].
    split; [intros Hin; contradiction | reflexivity].
Qed.

Lemma removeUnitFromInitiative_keeps_order_valid_witness :
  let entry (id : string) (total : Q) (index : Z) :=
    mkEntry id id "p1" 15 (total - 15) total 7 [] false false index in
  let order := [entry "a" 30 0%Z; entry "b" 25 1%Z; entry "c" 20 2%Z] in
  validateInitiativeOrder (remainingOrder (removeUnitFromInitiative order "b")) = true /\
  ~ In "b"%string
       (map entryUnitId (remainingOrder (removeUnitFromInitiative order "b"))).
Proof.
  cbv zeta.
  pose proof (removeUnitFromInitiative_keeps_order_valid
                [mkEntry "a" "a" "p1" 15 (30 - 15) 30 7 [] false false 0;
                 mkEntry "b" "b" "p1" 15 (25 - 15) 25 7 [] false false 1;
                 mkEntry "c" "c" "p1" 15 (20 - 15) 20 7 [] false false 2]
                "b" eq_refl) as (H1 & H2 & _).
  split; [exact H1 | exact H2].
Defined.

(** ** Sorting again *)

Section Resorted.

Variable localeCompare : string -> string -> comparison.

Hypothesis localeCompare_eq :
  forall a b : string, localeCompare a b = Eq <-> a = b.
Hypothesis localeCompare_antisym :
  forall a b : string, localeCompare b a = CompOpp (localeCompare a b).
Hypothesis localeCompare_trans :
  forall a b c : string,
    localeCompare a b = Lt -> localeCompare b c = Lt -> localeCompare a c = Lt.

Local Abbreviation resort := (resortInitiativeOrder localeCompare).
Local Abbreviation ahead := (Initiative.ahead localeCompare).

Lemma ahead_ranks (a b : InitiativeEntry) : ahead a b -> ranksAtLeast a b.
Proof using Type.
  unfold Initiative.ahead, ranksAtLeast.
  intros [H|[H1 [H2|[H2 _]]]]; [now left | right; split; lra | right; split; lra].
Qed.

Lemma sorted_ahead_ranks (l : list InitiativeEntry) :
  StronglySorted ahead l -> StronglySorted ranksAtLeast l.
Proof using Type.
  induction 1 as [|a l _ IH Hall]; constructor; [exact IH|].
  eapply List.Forall_impl; [|exact Hall]. intros b. apply ahead_ranks.
Qed.

Lemma resort_ids (order : list InitiativeEntry) :
  Permutation (map entryUnitId (resort order)) (map entryUnitId order).
Proof using Type.
  unfold resortInitiativeOrder. rewrite InitiativeFacts.assignTurnIndices_ids.
  apply Permutation_map, InitiativeFacts.sortEntries_perm.
Qed.

Lemma resort_sorted (order : list InitiativeEntry) :
  List.NoDup (map entryUnitId order) -> StronglySorted ahead (resort order).
Proof using localeCompare_eq localeCompare_antisym localeCompare_trans.
  intros Hnd. unfold resortInitiativeOrder.
  apply InitiativeFacts.assignTurnIndices_sorted.
  now apply InitiativeFacts.sortEntries_sorted.
Qed.

Lemma resort_wellOrdered (order : list InitiativeEntry) :
  List.NoDup (map entryUnitId order) -> wellOrdered (resort order).
Proof using localeCompare_eq localeCompare_antisym localeCompare_trans.
  intros Hnd. unfold resortInitiativeOrder. apply assign_wellOrdered.
  - eapply Permutation_NoDup; [|exact Hnd].
    symmetry. apply Permutation_map, InitiativeFacts.sortEntries_perm.
  - apply sorted_ahead_ranks. now apply InitiativeFacts.sortEntries_sorted.
Qed.

Lemma resort_fixed (order : list InitiativeEntry) :
  List.NoDup (map entryUnitId order) ->
  StronglySorted ahead order ->
  (forall i e, order !! i = Some e -> turnIndex e = Z.of_nat i) ->
  resort order = order.
Proof using localeCompare_eq localeCompare_antisym localeCompare_trans.
  intros Hnd Hs Hidx. unfold resortInitiativeOrder.
  assert (Hsame : sortEntries localeCompare order = order).
  { apply (InitiativeFacts.sorted_arrangement_unique localeCompare localeCompare_antisym).
    - now apply InitiativeFacts.sortEntries_sorted.
    - exact Hs.
    - apply InitiativeFacts.sortEntries_perm. }
  rewrite Hsame. apply assign_fixed. intros i e Hl. rewrite (Hidx i e Hl). lia.
Qed.

(** X27: orders built by the system pass its own validator.  For entries
    with pairwise distinct unit ids, [resortInitiativeOrder] returns the
    same ids in an order that [validateInitiativeOrder] accepts, and
    sorting that result again changes nothing; for a non-empty list of
    units with pairwise distinct ids, [calculateInitiativeOrder] returns an
    order that is accepted. *)
Theorem built_orders_pass_validation :
  (forall order : list InitiativeEntry,
      List.NoDup (map entryUnitId order) ->
      validateInitiativeOrder (resort order) = true /\
      Permutation (map entryUnitId (resort order)) (map entryUnitId order) /\
      resort (resort order) = resort order) /\
  (forall (units : list Unit) (rng : Rng.DeterministicRNG) (options : Options),
      units <> [] ->
      List.NoDup (map unitId units) ->
      exists order rng',
        calculateInitiativeOrder localeCompare units rng options = Some (order, rng') /\
        validateInitiativeOrder order = true).
Proof using localeCompare_eq localeCompare_antisym localeCompare_trans.
  split.
  - intros order Hnd.
    pose proof (resort_wellOrdered order Hnd) as Hwell.
    split; [now apply validate_iff|]. split; [apply resort_ids|].
    destruct Hwell as (Hnd' & Hidx & _).
    apply resort_fixed; [exact Hnd' | now apply resort_sorted | exact Hidx].
  - intros units rng options Hne Hnd.
    destruct (InitiativeFacts.collectEntries_spec options units rng)
      as (entries & rng' & Heq & Hall & _).
    exists (resort entries), rng'.
    unfold calculateInitiativeOrder. destruct units as [|u rest]; [contradiction|].
    rewrite Heq. cbn [mbind option_bind]. split; [reflexivity|].
    apply validate_iff, resort_wellOrdered.
    rewrite (InitiativeFacts.wellFormed_ids _ _ Hall). exact Hnd.
Qed.



Lemma modifier_total (l : list Modifier) :
  forall acc v,
    fold_left (fun t m => t + value m) l (acc + v)
    == fold_left (fun t m => t + value m) l acc + v.
Proof using Type.
  induction l as [|m l IH]; intros acc v; cbn [fold_left]; [reflexivity|].
  rewrite <- IH. clear IH.
  assert (Hgen : forall a b, a == b ->
            fold_left (fun t m => t + value m) l a
            == fold_left (fun t m => t + value m) l b).
  { induction l as [|m' l IHl]; intros a b Hab; cbn [fold_left]; [exact Hab|].
    apply IHl. rewrite Hab. reflexivity. }
  apply Hgen. ring.
Qed.



End Resorted.

Lemma built_orders_pass_validation_witness :
  (forall order : list InitiativeEntry,
      List.NoDup (map entryUnitId order) ->
      validateInitiativeOrder (resortInitiativeOrder String.compare order) = true /\
      Permutation (map entryUnitId (resortInitiativeOrder String.compare order))
                  (map entryUnitId order) /\
      resortInitiativeOrder String.compare (resortInitiativeOrder String.compare order)
        = resortInitiativeOrder String.compare order) /\
  exists order rng',
    calculateInitiativeOrder String.compare
      [Sample.recruit "bravo"; Sample.recruit "alpha"] Sample.rng12345
      (mkOptions None None) = Some (order, rng') /\
    validateInitiativeOrder order = true.
Proof.
  destruct (built_orders_pass_validation
              String.compare InitiativeFacts.string_compare_eq
              (fun a b => String.compare_antisym b a)
              InitiativeFacts.string_compare_trans) as (Hresort & Hcalc).
  split; [exact Hresort|].
  apply Hcalc; [discriminate|].
  cbn. repeat constructor; cbn; intuition discriminate.
Defined.

End TurnsFacts.

(* ===================================================================== *)
(** * Resolved attacks and their preview *)
(* ===================================================================== *)

Module AttackFacts.
Import Units Match Hit Attack.
Local Open Scope Q_scope.



Section Geometry.

Variable atan2Degrees : Z -> Z -> Q.


End Geometry.

(** A recruit's spell with primary ability "LCK" against a defender in
    ruins throws after the two draws of a roll with disadvantage; the same
    spell with "wis" or with no primary ability, and a plain melee attack
    with "LCK", give a result. *)
Example resolveAttack_samples :
  let attack (spell : bool) (name : string) :=
    resolveAttack Hit.compassAtan2 Hit.attackerEast Hit.defenderAtOrigin
      (Hit.board Hit.ruins) Sample.rng12345 (mkResolveOptions false spell name) in
  fst (attack true "LCK") = None /\
  Rng.callCount (snd (attack true "LCK")) = 2%Z /\
  is_Some (fst (attack true "wis")) /\
  is_Some (fst (attack true "")) /\
  is_Some (fst (attack false "LCK")).
Proof.
  cbv zeta. repeat split; try (vm_compute; reflexivity);
    vm_compute; eexists; reflexivity.
Qed.

(** ** The previewed chances *)

Lemma faces_from (gap : Z) :
  length (List.filter (fun face => (gap <=? face)%Z) d20Faces)
  = Z.to_nat (Z.max 0 (21 - Z.max 1 gap)).
Proof.
  assert (Hcases : (gap <= 1 \/ 21 <= gap \/ 2 <= gap <= 20)%Z) by lia.
  destruct Hcases as [H|[H|H]].
  - rewrite (filter_ext_in _ (fun _ => true)).
    + replace (Z.max 1 gap) with 1%Z by lia. reflexivity.
    + intros face Hin. apply Z.leb_le. unfold d20Faces in Hin.
      apply in_map_iff in Hin. destruct Hin as (n & <- & Hn).
      apply in_seq in Hn. lia.
  - rewrite (filter_ext_in _ (fun _ => false)).
    + replace (Z.max 0 (21 - Z.max 1 gap)) with 0%Z by lia. reflexivity.
    + intros face Hin. apply Z.leb_gt. unfold d20Faces in Hin.
      apply in_map_iff in Hin. destruct Hin as (n & <- & Hn).
      apply in_seq in Hn. lia.
  - assert (Hn : gap = Z.of_nat (Z.to_nat gap)) by lia.
    destruct (Z.to_nat gap) as [|n] eqn:E; [lia|]. clear E.
    rewrite Hn in *. clear Hn.
    do 21 (destruct n as [|n]; [first [lia | reflexivity]|]). lia.
Qed.

Lemma square_le (a b : Q) : 0 <= a -> a <= b -> a * a <= b * b.
Proof. intros Ha Hab. nra. Qed.

Lemma normal_chance_range (attackBonus defenseValue : Q) (t : RollType) :
  0 <= normal (calculateHitProbabilities attackBonus defenseValue t) <= 1.
Proof.
  unfold calculateHitProbabilities. cbn [normal].
  change (inject_Z D20.D20_MAX) with 20.
  set (r := Qmax 1 (defenseValue - attackBonus)).
  assert (Hr : 1 <= r) by apply Q.le_max_l.
  split; [apply Q.le_max_l|].
  apply Q.max_lub; [lra|].
  apply Qle_shift_div_r; lra.
Qed.

Lemma normal_chance_monotone (attackBonus bonus' defenseValue : Q) (t t' : RollType) :
  attackBonus <= bonus' ->
  normal (calculateHitProbabilities attackBonus defenseValue t)
  <= normal (calculateHitProbabilities bonus' defenseValue t').
Proof.
  intros Hle. unfold calculateHitProbabilities. cbn [normal].
  change (inject_Z D20.D20_MAX) with 20.
  assert (Hr : Qmax 1 (defenseValue - bonus') <= Qmax 1 (defenseValue - attackBonus)).
  { apply Q.max_le_compat_l. lra. }
  apply Q.max_le_compat_l.
  unfold Qdiv. apply Qmult_le_compat_r; [lra|]. apply Qinv_le_0_compat. lra.
Qed.

Lemma effective_of_normal (attackBonus defenseValue : Q) (t : RollType) :
  effective (calculateHitProbabilities attackBonus defenseValue t) =
  let n := normal (calculateHitProbabilities attackBonus defenseValue t) in
  match t with
  | Advantage => 1 - (1 - n) * (1 - n)
  | Disadvantage => n * n
  | Normal => n
  end.
Proof. destruct t; reflexivity. Qed.

(** X30: the previewed hit chances are probabilities.  The single-roll
    chance and the effective chance lie in [0, 1]; advantage never lowers
    and disadvantage never raises the chance; a higher attack bonus never
    lowers it.  When defense value and attack bonus differ by a whole
    number, the single-roll chance is exactly the share of the twenty d20
    faces with which the engine's hit test (face + bonus >= defense value)
    succeeds.  The previewed critical chance of a single roll is between
    1/20 and 3/20, and the effective critical chance lies in (0, 1]. *)
Theorem previewed_chances_are_probabilities :
  forall (attackBonus defenseValue : Q),
    (forall t,
        0 <= normal (calculateHitProbabilities attackBonus defenseValue t) <= 1 /\
        0 <= effective (calculateHitProbabilities attackBonus defenseValue t) <= 1) /\
    (effective (calculateHitProbabilities attackBonus defenseValue Disadvantage)
       <= effective (calculateHitProbabilities attackBonus defenseValue Normal) /\
     effective (calculateHitProbabilities attackBonus defenseValue Normal)
       <= effective (calculateHitProbabilities attackBonus defenseValue Advantage)) /\
    (forall bonus' t,
        attackBonus <= bonus' ->
        effective (calculateHitProbabilities attackBonus defenseValue t)
          <= effective (calculateHitProbabilities bonus' defenseValue t)) /\
    (forall gap : Z,
        defenseValue - attackBonus == inject_Z gap ->
        normal (calculateHitProbabilities attackBonus defenseValue Normal) * 20
          == inject_Z (Z.of_nat (length (hittingFaces attackBonus defenseValue)))) /\
    (forall (attackerData : D20.Attacker) t,
        1 / 20 <= criticalNormalChance (calculateCriticalChances attackerData t)
               <= 3 / 20 /\
        0 < chance (calculateCriticalChances attackerData t) <= 1).
Proof.
  intros attackBonus defenseValue.
  split; [|split; [|split; [|split]]].
  - intros t. pose proof (normal_chance_range attackBonus defenseValue t) as Hn.
    split; [exact Hn|]. rewrite effective_of_normal. cbv zeta.
    set (n := normal _) in *. destruct t; [lra | nra | nra].
  - pose proof (normal_chance_range attackBonus defenseValue Normal) as Hn.
    rewrite !effective_of_normal. cbv zeta.
    change (normal (calculateHitProbabilities attackBonus defenseValue Disadvantage))
      with (normal (calculateHitProbabilities attackBonus defenseValue Normal)).
    change (normal (calculateHitProbabilities attackBonus defenseValue Advantage))
      with (normal (calculateHitProbabilities attackBonus defenseValue Normal)).
    set (n := normal _) in *. split; nra.
  - intros bonus' t Hle.
    pose proof (normal_chance_range attackBonus defenseValue t) as Hn.
    pose proof (normal_chance_range bonus' defenseValue t) as Hn'.
    pose proof (normal_chance_monotone attackBonus bonus' defenseValue t t Hle) as Hm.
    rewrite !effective_of_normal. cbv zeta.
    set (n := normal (calculateHitProbabilities attackBonus defenseValue t)) in *.
    set (n' := normal (calculateHitProbabilities bonus' defenseValue t)) in *.
    destruct t; [exact Hm | | apply square_le; lra].
    assert (Hsq : (1 - n') * (1 - n') <= (1 - n) * (1 - n)) by (apply square_le; lra).
    lra.
  - intros gap Hgap. unfold hittingFaces.
    rewrite (filter_ext_in _ (fun face => (gap <=? face)%Z)).
    2:{ intros face _. apply eq_true_iff_eq. rewrite JsFacts.geb_true, Z.leb_le.
        rewrite Zle_Qle. split; intros H; lra. }
    rewrite faces_from.
    unfold calculateHitProbabilities. cbn [normal].
    change (inject_Z D20.D20_MAX) with 20.
    assert (Hreq : Qmax 1 (defenseValue - attackBonus) == inject_Z (Z.max 1 gap)).
    { destruct (Z.max_spec 1 gap) as [[Hlt ->]|[Hge ->]].
      - rewrite Q.max_r; [exact Hgap|]. rewrite Hgap.
        change 1 with (inject_Z 1). rewrite <- Zle_Qle. lia.
      - rewrite Q.max_l; [reflexivity|]. rewrite Hgap.
        change 1 with (inject_Z 1). rewrite <- Zle_Qle. lia. }
    rewrite Hreq. rewrite Z2Nat.id by lia.
    set (r := Z.max 1 gap).
    assert (Hinj : inject_Z (21 - r) == 21 - inject_Z r).
    { unfold Zminus. rewrite inject_Z_plus, inject_Z_opp. reflexivity. }
    assert (Hdiv : (20 - inject_Z r + 1) / 20 * 20 == inject_Z (21 - r)).
    { rewrite Hinj. field. }
    destruct (Z.max_spec 0 (21 - r)) as [[Hlt ->]|[Hge ->]].
    + rewrite Q.max_r; [exact Hdiv|].
      apply Qle_shift_div_l; [lra|].
      assert (Hq : inject_Z 0 <= inject_Z (21 - r)) by (rewrite <- Zle_Qle; lia).
      rewrite Hinj in Hq. change (inject_Z 0) with 0 in Hq. lra.
    + rewrite Q.max_l; [change (inject_Z 0) with 0; lra|].
      apply Qle_shift_div_r; [lra|].
      assert (Hq : inject_Z (21 - r) <= inject_Z 0) by (rewrite <- Zle_Qle; lia).
      rewrite Hinj in Hq. change (inject_Z 0) with 0 in Hq. lra.
  - intros attackerData t.
    pose proof (D20Facts.threat_minimum_bounds (D20.attAbilities attackerData)
                  (D20.attVisibleStats attackerData) (D20.attEquipment attackerData))
      as [Hlo Hhi].
    unfold calculateCriticalChances. cbn [criticalNormalChance chance].
    change (inject_Z D20.D20_MAX) with 20.
    set (m := D20.minThreat _) in *.
    set (c := (20 - m + 1) / 20).
    assert (Hc : 1 / 20 <= c <= 3 / 20).
    { unfold c. split.
      - apply Qle_shift_div_l; [lra|]. field_simplify. lra.
      - apply Qle_shift_div_r; [lra|]. field_simplify. lra. }
    split; [exact Hc|].
    assert (Hc' : 1 / 20 == 0.05 /\ 3 / 20 == 0.15) by (split; reflexivity).
    destruct Hc' as [E1 E2]. rewrite E1, E2 in Hc.
    destruct t; [lra | nra | nra].
Qed.

Lemma previewed_chances_are_probabilities_witness :
  normal (calculateHitProbabilities 5 16 Normal) * 20
  == inject_Z (Z.of_nat (length (hittingFaces 5 16))).
Proof.
  destruct (previewed_chances_are_probabilities 5 16) as (_ & _ & _ & Hgap & _).
  apply (Hgap 11%Z). reflexivity.
Defined.
End AttackFacts.
